(** * Livepeer delegator dashboard: the aggregation core of
      [src/LivepeerDashboard.jsx] (final revision)

    The dashboard is one React component.  Its logic is embedded here as
    follows.

    - A JavaScript [Number] is kept abstract behind the class [JSNumber], so
      every routine below is written once, with the operators the source
      uses.  Two interpretations are given: [Qc], exact rational arithmetic,
      in which the arithmetic laws the dashboard relies on are proved, and
      the primitive [float] (IEEE 754 binary64), which is what a JavaScript
      engine really computes with.  The order laws that the cumulative
      series needs are proved of both.
    - A decimal string of the wire format ("12.5", "-3", "0.001") is the
      record [Decimal] of its digits and the number of fractional digits.
    - Strings are Rocq [string]s, a sequence of bytes (UTF-8); lengths and
      slices count bytes, which on the ASCII text of addresses and digits
      are the UTF-16 units that JavaScript counts.
    - The source divides only by constants, by a maximum with 1, or under
      a guard that the divisor is positive, so the convention of [Qc] for a
      division by zero never shows.
    - The component state is the record [State]; the two loaders run in a
      small state-and-exception monad that also keeps the log of the network
      requests that were issued.  The responses of the indexing service are
      an argument of each run. *)

From Stdlib Require Import ZArith QArith Qcanon Qround Qpower Zpower.
From Stdlib Require Import List String Ascii Bool Lia Lra Lqa.
From Stdlib Require Import Sorted Permutation.
From Stdlib Require Import DecimalString.
From Stdlib Require Floats.
Import ListNotations.

Local Open Scope string_scope.
Local Open Scope Z_scope.

(* ================================================================== *)
(** * Numbers *)

(** The content of a decimal string: [mantissa / 10 ^ scale]. *)
Record Decimal := mkDecimal { mantissa : Z; scale : nat }.

Definition pow10 (d : nat) : Z := 10 ^ Z.of_nat d.

Definition decimalQ (d : Decimal) : Qc :=
  Q2Qc (inject_Z (mantissa d) / inject_Z (pow10 (scale d))).

(** The mathematical value of a [Number]. *)
Inductive Value :=
| Finite (q : Qc)
| PlusInfinity
| MinusInfinity
| NotANumber.

(** The operators of the source on numbers. [Number_] is [Number(s)] on a
    decimal string, [gt a b] is [a > b], [strictEq a b] is [a === b]. *)
Class JSNumber (N : Type) := {
  Number_ : Decimal -> N;
  add : N -> N -> N;
  sub : N -> N -> N;
  mul : N -> N -> N;
  div : N -> N -> N;
  gt : N -> N -> bool;
  strictEq : N -> N -> bool;
  Math_max : N -> N -> N;
  exact : N -> Value
}.

(** A numeric literal of the source. *)
Definition lit {N} `{JSNumber N} (z : Z) : N := Number_ (mkDecimal z 0).

Declare Scope js_scope.
Delimit Scope js_scope with js.
Infix "+" := add : js_scope.
Infix "-" := sub : js_scope.
Infix "*" := mul : js_scope.
Infix "/" := div : js_scope.

(** ** Exact interpretation *)

Definition Qcltb (a b : Qc) : bool :=
  match (a ?= b)%Qc with Lt => true | _ => false end.

Definition Qcmax (a b : Qc) : Qc := if Qcltb a b then b else a.

#[export] Instance ExactNumber : JSNumber Qc := {
  Number_ := decimalQ;
  add := Qcplus;
  sub := Qcminus;
  mul := Qcmult;
  div := Qcdiv;
  gt := fun a b => Qcltb b a;
  strictEq := Qc_eq_bool;
  Math_max := Qcmax;
  exact := Finite
}.

(** ** IEEE 754 binary64 interpretation *)

Module Double.
Import Floats.

(** [Number(s)]: the double nearest to the decimal, ties to even. *)
Definition ofDecimal (d : Decimal) : float :=
  let den := S754_finite false (Z.to_pos (pow10 (scale d))) 0 in
  match mantissa d with
  | Z0 => PrimFloat.zero
  | Zpos m => SF2Prim (SFdiv prec emax (S754_finite false m 0) den)
  | Zneg m => SF2Prim (SFdiv prec emax (S754_finite true m 0) den)
  end.

(** [Math.max] on two arguments: NaN is contagious, +0 is above -0. *)
Definition max (a b : float) : float :=
  if PrimFloat.ltb a b then b
  else if PrimFloat.ltb b a then a
  else if PrimFloat.eqb a b then (if get_sign a then b else a)
  else nan.

Definition value (f : float) : Value :=
  match Prim2SF f with
  | S754_zero _ => Finite 0%Qc
  | S754_infinity false => PlusInfinity
  | S754_infinity true => MinusInfinity
  | S754_nan => NotANumber
  | S754_finite s m e =>
      let q := (inject_Z (Zpos m) * Qpower 2 e)%Q in
      Finite (Q2Qc (if s then Qopp q else q))
  end.
End Double.

#[export] Instance DoubleNumber : JSNumber PrimFloat.float := {
  Number_ := Double.ofDecimal;
  add := PrimFloat.add;
  sub := PrimFloat.sub;
  mul := PrimFloat.mul;
  div := PrimFloat.div;
  gt := fun a b => PrimFloat.ltb b a;
  strictEq := PrimFloat.eqb;
  Math_max := Double.max;
  exact := Double.value
}.

(* ================================================================== *)
(** * Strings *)

Definition chars (bytes : list nat) : list ascii := map ascii_of_nat bytes.

(** The white space and line terminators that [String.prototype.trim]
    strips, in UTF-8. *)
Definition whiteSpace : list (list ascii) :=
  map chars
    [ [9%nat]; [10%nat]; [11%nat]; [12%nat]; [13%nat]; [32%nat];
      [194; 160]%nat; [225; 154; 128]%nat;
      [226; 128; 128]%nat; [226; 128; 129]%nat; [226; 128; 130]%nat;
      [226; 128; 131]%nat; [226; 128; 132]%nat; [226; 128; 133]%nat;
      [226; 128; 134]%nat; [226; 128; 135]%nat; [226; 128; 136]%nat;
      [226; 128; 137]%nat; [226; 128; 138]%nat;
      [226; 128; 168]%nat; [226; 128; 169]%nat; [226; 128; 175]%nat;
      [226; 129; 159]%nat; [227; 128; 128]%nat; [239; 187; 191]%nat ].

Fixpoint stripPrefix (p l : list ascii) : option (list ascii) :=
  match p, l with
  | [], _ => Some l
  | _ :: _, [] => None
  | a :: p', b :: l' => if Ascii.eqb a b then stripPrefix p' l' else None
  end.

Fixpoint stripAny (toks : list (list ascii)) (l : list ascii)
  : option (list ascii) :=
  match toks with
  | [] => None
  | t :: toks' =>
      match stripPrefix t l with
      | Some r => Some r
      | None => stripAny toks' l
      end
  end.

Fixpoint dropLeading (toks : list (list ascii)) (fuel : nat) (l : list ascii)
  : list ascii :=
  match fuel with
  | O => l
  | S fuel' =>
      match stripAny toks l with
      | Some r => dropLeading toks fuel' r
      | None => l
      end
  end.

Definition trimStart (l : list ascii) : list ascii :=
  dropLeading whiteSpace (List.length l) l.

Definition trimEnd (l : list ascii) : list ascii :=
  rev (dropLeading (map (@rev ascii) whiteSpace) (List.length l) (rev l)).

(** [s.trim()] *)
Definition trim (s : string) : string :=
  string_of_list_ascii (trimEnd (trimStart (list_ascii_of_string s))).

(** [s.endsWith(suffix)] *)
Definition endsWith (s suffix : string) : bool :=
  match stripPrefix (rev (list_ascii_of_string suffix))
                    (rev (list_ascii_of_string s)) with
  | Some _ => true
  | None => false
  end.

Definition lowerChar (c : ascii) : ascii :=
  let n := nat_of_ascii c in
  if ((65 <=? n) && (n <=? 90))%nat then ascii_of_nat (n + 32) else c.

(** [s.toLowerCase()] on text whose cased characters are the ASCII letters,
    as in addresses and in normalized ENS names: the bytes of every other
    character are left as they are, where JavaScript also lowers the cased
    characters beyond ASCII. *)
Definition toLowerCase (s : string) : string :=
  string_of_list_ascii (map lowerChar (list_ascii_of_string s)).

Definition isLowerHex (c : ascii) : bool :=
  let n := nat_of_ascii c in
  (((48 <=? n) && (n <=? 57)) || ((97 <=? n) && (n <=? 102)))%nat.

(** [/^0x[a-f0-9]{40}$/.test(s)] *)
Definition isAddress (s : string) : bool :=
  match list_ascii_of_string s with
  | z :: x :: hex =>
      Ascii.eqb z "0" && Ascii.eqb x "x"
      && (List.length hex =? 40)%nat && forallb isLowerHex hex
  | _ => false
  end.

(** [s.slice(0, n)] and [s.slice(-n)] *)
Definition sliceFirst (n : nat) (s : string) : string := substring 0 n s.
Definition sliceLast (n : nat) (s : string) : string :=
  substring (String.length s - n) n s.

(** The literals that stand in the source where an ellipsis, an em dash
    and an en dash are meant, byte for byte as the final revision has them
    (lines 1555, 1679, 2018): each is the three characters U+201A, U+00C4
    and a third one, which is what the UTF-8 bytes of the intended character
    become when they are read as Mac Roman and written as UTF-8 again.
    This is the text that the page shows. *)
Definition ellipsis : string :=
  string_of_list_ascii (chars [226; 128; 154; 195; 132; 194; 182]%nat).
Definition emDash : string :=
  string_of_list_ascii (chars [226; 128; 154; 195; 132; 195; 174]%nat).
Definition enDash : string :=
  string_of_list_ascii (chars [226; 128; 154; 195; 132; 195; 172]%nat).

(** [s.length]: the number of UTF-16 code units of the text whose UTF-8
    bytes are [s].  A character of one, two or three bytes is one unit, a
    character of four bytes is two; the bytes that continue a character
    count nothing. *)
Definition units (c : ascii) : nat :=
  let n := nat_of_ascii c in
  if (n <? 128)%nat then 1%nat
  else if (n <? 192)%nat then 0%nat
  else if (n <? 240)%nat then 1%nat
  else 2%nat.

Fixpoint jsLength (s : string) : nat :=
  match s with
  | EmptyString => 0%nat
  | String c rest => (units c + jsLength rest)%nat
  end.

Definition fmtAddr (a : string) : string :=
  if String.eqb a "" then emDash
  else sliceFirst 6 a ++ ellipsis ++ sliceLast 4 a.

(** [parts.join(sep)] *)
Fixpoint join (sep : string) (parts : list string) : string :=
  match parts with
  | [] => ""
  | [p] => p
  | p :: rest => p ++ sep ++ join sep rest
  end.

(* ================================================================== *)
(** * Number formatting *)

Definition digitsOf (n : Z) : string :=
  NilZero.string_of_uint (N.to_uint (Z.to_N n)).

Fixpoint zeros (n : nat) : string :=
  match n with O => "" | S n' => String "0" (zeros n') end.

(** The integer [n] for which [n / 10^f] is nearest to [a], the larger one
    on a tie; [a] is not negative. *)
Definition nearest (f : nat) (a : Qc) : Z :=
  Qfloor (a * inject_Z (pow10 f) + (1 # 2)).

(** The digit string of step 6 of [Number.prototype.toFixed]. *)
Definition fixedDigits (f : nat) (n : Z) : string * string :=
  let m := digitsOf n in
  let k := String.length m in
  let m' := if (k <=? f)%nat then zeros (f + 1 - k) ++ m else m in
  let k' := String.length m' in
  (substring 0 (k' - f) m', substring (k' - f) f m').

Definition Qcabs (q : Qc) : Qc := if Qcltb q 0 then (- q)%Qc else q.

(** [x.toFixed(f)].  Magnitudes of 10^21 and more, which JavaScript prints
    in exponent notation, are printed here with all their digits; token
    and fee amounts are many orders of magnitude below. *)
Definition toFixed {N} `{JSNumber N} (x : N) (f : nat) : string :=
  match exact x with
  | NotANumber => "NaN"
  | PlusInfinity => "Infinity"
  | MinusInfinity => "-Infinity"
  | Finite q =>
      let s := if Qcltb q 0 then "-" else "" in
      let '(a, b) := fixedDigits f (nearest f (Qcabs q)) in
      match f with
      | O => s ++ a
      | S _ => s ++ a ++ "." ++ b
      end
  end.

(** [+x.toFixed(f)]: the printed decimal read back as a number.  A value
    that is not finite, or of magnitude 10^21 and more, reads back as
    itself. *)
Definition toFixedNumber {N} `{JSNumber N} (x : N) (f : nat) : N :=
  match exact x with
  | Finite q =>
      if Qcltb (Qcabs q) (Q2Qc (inject_Z (pow10 21))) then
        let n := nearest f (Qcabs q) in
        Number_ (mkDecimal (if Qcltb q 0 then - n else n) f)
      else x
  | _ => x
  end.

(** Thousands separators of the en-US locale. *)
Fixpoint group3 (fuel : nat) (s : string) : string :=
  match fuel with
  | O => s
  | S fuel' =>
      let k := String.length s in
      if (k <=? 3)%nat then s
      else group3 fuel' (substring 0 (k - 3) s) ++ "," ++ substring (k - 3) 3 s
  end.

(** [fmtN(n, d)]: [toLocaleString("en-US")] with exactly [d] fraction
    digits.  The digits are those of the mathematical value rounded to [d]
    decimals, a tie going away from zero.  On doubles an engine that formats
    with ICU rounds the shortest decimal that reads back as the double
    instead, so that it prints 1.005 as 1.01 where this definition, as
    [toFixed], prints 1.00; the two agree but for such values next to a
    tie. *)
Definition fmtN {N} `{JSNumber N} (x : N) (d : nat) : string :=
  match exact x with
  | NotANumber => "NaN"
  | PlusInfinity => string_of_list_ascii (chars [226; 136; 158]%nat)
  | MinusInfinity => "-" ++ string_of_list_ascii (chars [226; 136; 158]%nat)
  | Finite q =>
      let s := if Qcltb q 0 then "-" else "" in
      let '(a, b) := fixedDigits d (nearest d (Qcabs q)) in
      let a' := group3 (String.length a) a in
      match d with
      | O => s ++ a'
      | S _ => s ++ a' ++ "." ++ b
      end
  end.

(* ================================================================== *)
(** * Wire format of the indexing service *)

(** [delegate { id totalStake rewardCut feeShare ... }] *)
Record RawDelegate := {
  dg_id : string;
  dg_totalStake : Decimal;
  dg_rewardCut : Decimal;
  dg_feeShare : Decimal;
  dg_thirtyDayVolumeETH : Decimal
}.

Record RawDelegator := {
  rd_id : string;
  rd_bondedAmount : Decimal;
  rd_fees : Decimal;
  rd_withdrawnFees : Decimal;
  rd_startRound : Decimal;
  rd_delegate : option RawDelegate
}.

(** An [earningsClaimedEvents] entry. *)
Record RawClaim := {
  rc_timestamp : Decimal;
  rc_startRound : Decimal;
  rc_endRound_id : Decimal;
  rc_rewardTokens : Decimal;
  rc_fees : Decimal;
  rc_delegate : option string
}.

Record RawBond := {
  rb_timestamp : Decimal;
  rb_round_id : Decimal;
  rb_bondedAmount : Decimal;
  rb_additionalAmount : Decimal;
  rb_newDelegate : string;
  rb_oldDelegate : option string
}.

(** An unbond, rebond, withdrawStake or withdrawFees entry. *)
Record RawAmount := {
  ra_timestamp : Decimal;
  ra_round_id : Decimal;
  ra_amount : Decimal
}.

Record RawEvents := {
  bondEvents : option (list RawBond);
  unbondEvents : option (list RawAmount);
  rebondEvents : option (list RawAmount);
  withdrawStakeEvents : option (list RawAmount);
  withdrawFeesEvents : option (list RawAmount)
}.

Record RawTranscoder := {
  rt_id : string;
  rt_rewardCut : Decimal;
  rt_feeShare : Decimal;
  rt_totalStake : Decimal;
  rt_thirtyDayVolumeETH : Decimal;
  rt_ninetyDayVolumeETH : Decimal;
  rt_totalVolumeETH : Decimal;
  rt_lastRewardRound : option string
}.

Record RawProtocol := {
  rp_inflation : Decimal;
  rp_totalActiveStake : Decimal;
  rp_totalSupply : Decimal;
  rp_participationRate : Decimal;
  rp_currentRound_id : string;
  rp_mintableTokens : Decimal;
  rp_lptPriceEth : Decimal
}.

Record Domain := {
  dm_name : option string;
  dm_resolvedAddress : option string
}.

Record RawDay := {
  day_transcoder : string;
  day_date : Decimal;
  day_volumeETH : Decimal
}.

(** The entries of [QUERIES] and the three queries written in place. *)
Inductive Query :=
| Q_delegator (id : string)
| Q_earnings (id : string)
| Q_events (id : string)
| Q_transcoders
| Q_protocol
| Q_domains (name : string)
| Q_domains_in (addresses : list string)
| Q_transcoderDays (ids : list string) (dayStart : Z).

(** What a request comes back with: the fetch or the JSON decoding fails,
    or a body with an optional [errors] list and the [data]. *)
Inductive Outcome (A : Type) :=
| Rejected (message : string)
| Body (errors : option (list string)) (data : A).
Arguments Rejected {A} message.
Arguments Body {A} errors data.

(** [arrival] orders the responses in time. *)
Record Response (A : Type) := mkResponse {
  arrival : nat;
  outcome : Outcome A
}.
Arguments mkResponse {A} arrival outcome.
Arguments arrival {A} r.
Arguments outcome {A} r.

(** The indexing services during one run of a loader; [now] is
    [Date.now()], in milliseconds. *)
Record Network := {
  now : Z;
  fetch_delegator : string -> Response (option RawDelegator);
  fetch_earnings : string -> Response (option (list RawClaim));
  fetch_events : string -> Response RawEvents;
  fetch_transcoders : Response (list RawTranscoder);
  fetch_protocol : Response RawProtocol;
  fetch_domains : string -> Response (list Domain);
  fetch_domains_in : list string -> Response (list Domain);
  fetch_transcoderDays : list string -> Z -> Response (list RawDay)
}.

(** [xs || []] *)
Definition orEmpty {A} (xs : option (list A)) : list A :=
  match xs with Some l => l | None => [] end.

(* ================================================================== *)
(** * Sorting *)

(** [Array.prototype.sort(cmp)], which is stable: an element moves behind
    another one only where the comparator is positive.  [after a b] is
    [cmp(a, b) > 0]. *)
Section Sort.
Context {A : Type} (after : A -> A -> bool).

Fixpoint insert (x : A) (l : list A) : list A :=
  match l with
  | [] => [x]
  | y :: l' => if after x y then y :: insert x l' else x :: y :: l'
  end.

Definition sort (l : list A) : list A := fold_right insert [] l.
End Sort.

(* ================================================================== *)
(** * The component *)

Inductive EventKind :=
| K_bond | K_redelegate | K_unbond | K_rebond
| K_withdraw | K_withdrawFees | K_claim.

Inductive Tab := T_dash | T_earn | T_hist | T_compare.
Inductive OrchFilter := F_working | F_all.
Inductive Column :=
| Col_rewardAPY | Col_eth30d | Col_ethYieldPerLPT
| Col_rewardCut | Col_feeShare | Col_stake.
Inductive Direction := Desc | Asc.

Definition tab_eqb (a b : Tab) : bool :=
  match a, b with
  | T_dash, T_dash | T_earn, T_earn | T_hist, T_hist
  | T_compare, T_compare => true
  | _, _ => false
  end.

Definition quote : string := String (ascii_of_nat 34) "".

Definition msgInvalidInput : string :=
  "Please enter a valid Ethereum address (0x...) or ENS name (.eth)".
Definition msgNoDelegator : string :=
  "No delegator found at this address. Make sure the wallet has delegated LPT on Livepeer (Arbitrum).".
Definition msgUnresolved (name : string) : string :=
  "Could not resolve ENS name " ++ quote ++ name ++ quote
  ++ ". Make sure it's a valid .eth name.".
(** Reading [json.errors[0].message] of an empty [errors] array. *)
Definition msgTypeError : string :=
  "Cannot read properties of undefined (reading 'message')".

(** How a computation ends: with a value, or with a thrown [Error]. *)
Inductive Result (A : Type) :=
| Return (a : A)
| Throw (message : string).
Arguments Return {A} a.
Arguments Throw {A} message.

Section Component.
Context {N : Type} `{JSNumber N}.
Local Open Scope js_scope.

(** ** Normalized records *)

Record Claim := {
  c_r : string;
  c_lpt : N;
  c_eth : N;
  c_ts : N;
  c_rounds : N;
  c_delegate : option string
}.

Record Event := {
  e_t : EventKind;
  e_ts : N;
  e_round : N;
  e_desc : string;
  e_val : string;
  e_to : option string
}.

Record Data := {
  d_address : string;
  d_delegator : RawDelegator;
  d_claims : list Claim;
  d_events : list Event;
  d_bondedAmount : N;
  d_totalFees : N;
  d_withdrawnFees : N;
  d_delegate : option RawDelegate;
  d_earned : N;
  d_totalETH : N;
  d_totalRounds : N
}.

Record Orch := {
  o_id : string;
  o_rewardCut : N;
  o_feeShare : N;
  o_stake : N;
  o_eth30d : N;
  o_eth90d : N;
  o_totalETH : N;
  o_rewardAPY : N;
  o_ethYieldPerLPT : N;
  o_delegatorFees30d : N;
  o_isWorking : bool;
  o_lastRewardRound : option string;
  o_callingReward : bool;
  o_sparkline : option (list (N * N))
}.

Record ProtocolData := {
  p_inflation : N;
  p_totalActiveStake : N;
  p_totalSupply : N;
  p_participationRate : N;
  p_currentRound : string;
  p_lptPriceEth : N
}.

(** The [useState] cells that the loaders and the derived data touch. *)
Record State := {
  wallet : string;
  loading : bool;
  error : string;
  data : option Data;
  tab : Tab;
  show : bool;
  orchData : option (list Orch);
  orchLoading : bool;
  orchFilter : OrchFilter;
  orchSort : Column * Direction;
  ensNames : list (string * string);
  protocolData : option ProtocolData;
  simStake : N;
  simCustom : bool
}.

(** [useState] defaults. *)
Definition initialState : State := {|
  wallet := ""; loading := false; error := ""; data := None;
  tab := T_dash; show := false; orchData := None; orchLoading := false;
  orchFilter := F_working; orchSort := (Col_rewardAPY, Desc);
  ensNames := []; protocolData := None; simStake := lit 0;
  simCustom := false
|}.

(** The component state, the requests issued so far, oldest first, and
    the [address] parameter of the page URL. *)
Record World := {
  state : State;
  requests : list Query;
  addressParam : option string
}.

(** ** Normalization (body of [loadDelegator]) *)

(** The template literal on a round number, which is an integer. *)
Definition roundLabel (x : N) : string := toFixed x 0.

Definition mkClaim (c : RawClaim) : Claim :=
  let startR := Number_ (rc_startRound c) in
  let endR := Number_ (rc_endRound_id c) in
  let rounds := Math_max (endR - startR + lit 1) (lit 1) in
  {| c_r := (roundLabel startR ++ enDash ++ roundLabel endR)%string;
     c_lpt := Number_ (rc_rewardTokens c);
     c_eth := Number_ (rc_fees c);
     c_ts := Number_ (rc_timestamp c);
     c_rounds := rounds;
     c_delegate := rc_delegate c |}.

Definition mkClaims (earningsClaimedEvents : option (list RawClaim))
  : list Claim :=
  map mkClaim (orEmpty earningsClaimedEvents).

Definition isSome {A} (o : option A) : bool :=
  match o with Some _ => true | None => false end.

Definition bondEntry (e : RawBond) : Event :=
  let isRebond :=
    strictEq (Number_ (rb_additionalAmount e)) (lit 0)
    && isSome (rb_oldDelegate e) in
  {| e_t := if isRebond then K_redelegate else K_bond;
     e_ts := Number_ (rb_timestamp e);
     e_round := Number_ (rb_round_id e);
     e_desc := (if isRebond
                then "Moved delegation to " ++ fmtAddr (rb_newDelegate e)
                else "Bonded " ++ fmtN (Number_ (rb_additionalAmount e)) 2
                     ++ " LPT")%string;
     e_val := (fmtN (Number_ (rb_additionalAmount e)) 2 ++ " LPT")%string;
     e_to := Some (fmtAddr (rb_newDelegate e)) |}.

Definition amountEntry (t : EventKind) (before after : string) (d : nat)
    (unit : string) (e : RawAmount) : Event :=
  {| e_t := t;
     e_ts := Number_ (ra_timestamp e);
     e_round := Number_ (ra_round_id e);
     e_desc := (before ++ fmtN (Number_ (ra_amount e)) d ++ after)%string;
     e_val := (fmtN (Number_ (ra_amount e)) d ++ unit)%string;
     e_to := None |}.

Definition claimEntry (c : Claim) : Event :=
  {| e_t := K_claim;
     e_ts := c_ts c;
     e_round := lit 0;
     e_desc := ("Claimed " ++ fmtN (c_lpt c) 2 ++ " LPT + "
                ++ fmtN (c_eth c) 6 ++ " ETH (" ++ c_r c ++ ")")%string;
     e_val := (fmtN (c_lpt c) 2 ++ " LPT")%string;
     e_to := None |}.

(** The five [forEach] loops over the stake events, in source order. *)
Definition stakeEntries (evtData : RawEvents) : list Event :=
  map bondEntry (orEmpty (bondEvents evtData))
  ++ map (amountEntry K_unbond "Unbonded " " LPT" 2 " LPT")
         (orEmpty (unbondEvents evtData))
  ++ map (amountEntry K_rebond "Rebonded " " LPT" 2 " LPT")
         (orEmpty (rebondEvents evtData))
  ++ map (amountEntry K_withdraw "Withdrew " " LPT stake" 2 " LPT")
         (orEmpty (withdrawStakeEvents evtData))
  ++ map (amountEntry K_withdrawFees "Withdrew " " ETH fees" 6 " ETH")
         (orEmpty (withdrawFeesEvents evtData)).

(** [(a, b) => a.ts - b.ts] is positive. *)
Definition laterThan (a b : Event) : bool := gt (e_ts a - e_ts b) (lit 0).

(** The [events] array after [events.sort]. *)
Definition timeline (evtData : RawEvents) (claims : list Claim)
  : list Event :=
  sort laterThan (stakeEntries evtData ++ map claimEntry claims).

(** The argument of [setData]. *)
Definition mkData (addr : string) (del : RawDelegator)
    (earnData : option (list RawClaim)) (evtData : RawEvents) : Data :=
  let claims := mkClaims earnData in
  let events := timeline evtData claims in
  {| d_address := addr;
     d_delegator := del;
     d_claims := claims;
     d_events := events;
     d_bondedAmount := Number_ (rd_bondedAmount del);
     d_totalFees := Number_ (rd_fees del);
     d_withdrawnFees := Number_ (rd_withdrawnFees del);
     d_delegate := rd_delegate del;
     d_earned := fold_left (fun s c => s + c_lpt c) claims (lit 0);
     d_totalETH := fold_left (fun s c => s + c_eth c) claims (lit 0);
     d_totalRounds := fold_left (fun s c => s + c_rounds c) claims (lit 0)
  |}.

(** ** State, exceptions and the request log *)

Definition M (A : Type) : Type := World -> Result A * World.

Definition ret {A} (a : A) : M A := fun w => (Return a, w).
Definition throw {A} (message : string) : M A := fun w => (Throw message, w).
Definition bind {A B} (m : M A) (k : A -> M B) : M B :=
  fun w =>
    match m w with
    | (Return a, w') => k a w'
    | (Throw message, w') => (Throw message, w')
    end.

Notation "x <- m ;; k" := (bind m (fun x => k))
  (at level 61, m at next level, right associativity).
Notation "m ;; k" := (bind m (fun _ => k))
  (at level 61, right associativity).

(** [try { body } catch (err) { handler(err.message) } finally { fin }] *)
Definition tryCatchFinally {A} (body : M A) (handler : string -> M A)
    (fin : M unit) : M A :=
  fun w =>
    let '(r, w1) :=
      match body w with
      | (Return a, w') => (Return a, w')
      | (Throw message, w') => handler message w'
      end in
    match fin w1 with
    | (Return _, w2) => (r, w2)
    | (Throw message, w2) => (Throw message, w2)
    end.

Definition modify (f : State -> State) : M unit :=
  fun w =>
    (Return tt,
     {| state := f (state w); requests := requests w;
        addressParam := addressParam w |}).

Definition getState : M State := fun w => (Return (state w), w).

Definition setWallet (v : string) : M unit := modify (fun s =>
  {| wallet := v; loading := loading s; error := error s; data := data s;
     tab := tab s; show := show s; orchData := orchData s;
     orchLoading := orchLoading s; orchFilter := orchFilter s;
     orchSort := orchSort s; ensNames := ensNames s;
     protocolData := protocolData s; simStake := simStake s;
     simCustom := simCustom s |}).
Definition setLoading (v : bool) : M unit := modify (fun s =>
  {| wallet := wallet s; loading := v; error := error s; data := data s;
     tab := tab s; show := show s; orchData := orchData s;
     orchLoading := orchLoading s; orchFilter := orchFilter s;
     orchSort := orchSort s; ensNames := ensNames s;
     protocolData := protocolData s; simStake := simStake s;
     simCustom := simCustom s |}).
Definition setError (v : string) : M unit := modify (fun s =>
  {| wallet := wallet s; loading := loading s; error := v; data := data s;
     tab := tab s; show := show s; orchData := orchData s;
     orchLoading := orchLoading s; orchFilter := orchFilter s;
     orchSort := orchSort s; ensNames := ensNames s;
     protocolData := protocolData s; simStake := simStake s;
     simCustom := simCustom s |}).
Definition setData (v : option Data) : M unit := modify (fun s =>
  {| wallet := wallet s; loading := loading s; error := error s; data := v;
     tab := tab s; show := show s; orchData := orchData s;
     orchLoading := orchLoading s; orchFilter := orchFilter s;
     orchSort := orchSort s; ensNames := ensNames s;
     protocolData := protocolData s; simStake := simStake s;
     simCustom := simCustom s |}).
Definition setTab (v : Tab) : M unit := modify (fun s =>
  {| wallet := wallet s; loading := loading s; error := error s;
     data := data s; tab := v; show := show s; orchData := orchData s;
     orchLoading := orchLoading s; orchFilter := orchFilter s;
     orchSort := orchSort s; ensNames := ensNames s;
     protocolData := protocolData s; simStake := simStake s;
     simCustom := simCustom s |}).
Definition setShow (v : bool) : M unit := modify (fun s =>
  {| wallet := wallet s; loading := loading s; error := error s;
     data := data s; tab := tab s; show := v; orchData := orchData s;
     orchLoading := orchLoading s; orchFilter := orchFilter s;
     orchSort := orchSort s; ensNames := ensNames s;
     protocolData := protocolData s; simStake := simStake s;
     simCustom := simCustom s |}).
(** [setOrchData(f)] with an updater function; [setOrchData(v)] is the
    constant updater. *)
Definition updateOrchData (f : option (list Orch) -> option (list Orch))
  : M unit := modify (fun s =>
  {| wallet := wallet s; loading := loading s; error := error s;
     data := data s; tab := tab s; show := show s;
     orchData := f (orchData s);
     orchLoading := orchLoading s; orchFilter := orchFilter s;
     orchSort := orchSort s; ensNames := ensNames s;
     protocolData := protocolData s; simStake := simStake s;
     simCustom := simCustom s |}).
Definition setOrchData (v : option (list Orch)) : M unit :=
  updateOrchData (fun _ => v).
Definition setOrchLoading (v : bool) : M unit := modify (fun s =>
  {| wallet := wallet s; loading := loading s; error := error s;
     data := data s; tab := tab s; show := show s; orchData := orchData s;
     orchLoading := v; orchFilter := orchFilter s;
     orchSort := orchSort s; ensNames := ensNames s;
     protocolData := protocolData s; simStake := simStake s;
     simCustom := simCustom s |}).
Definition setEnsNames (v : list (string * string)) : M unit :=
  modify (fun s =>
  {| wallet := wallet s; loading := loading s; error := error s;
     data := data s; tab := tab s; show := show s; orchData := orchData s;
     orchLoading := orchLoading s; orchFilter := orchFilter s;
     orchSort := orchSort s; ensNames := v;
     protocolData := protocolData s; simStake := simStake s;
     simCustom := simCustom s |}).
Definition setProtocolData (v : option ProtocolData) : M unit :=
  modify (fun s =>
  {| wallet := wallet s; loading := loading s; error := error s;
     data := data s; tab := tab s; show := show s; orchData := orchData s;
     orchLoading := orchLoading s; orchFilter := orchFilter s;
     orchSort := orchSort s; ensNames := ensNames s;
     protocolData := v; simStake := simStake s;
     simCustom := simCustom s |}).
Definition setSimStake (v : N) : M unit := modify (fun s =>
  {| wallet := wallet s; loading := loading s; error := error s;
     data := data s; tab := tab s; show := show s; orchData := orchData s;
     orchLoading := orchLoading s; orchFilter := orchFilter s;
     orchSort := orchSort s; ensNames := ensNames s;
     protocolData := protocolData s; simStake := v;
     simCustom := simCustom s |}).
Definition setSimCustom (v : bool) : M unit := modify (fun s =>
  {| wallet := wallet s; loading := loading s; error := error s;
     data := data s; tab := tab s; show := show s; orchData := orchData s;
     orchLoading := orchLoading s; orchFilter := orchFilter s;
     orchSort := orchSort s; ensNames := ensNames s;
     protocolData := protocolData s; simStake := simStake s;
     simCustom := v |}).

(** [url.searchParams.set("address", addr)] and [replaceState]. *)
Definition setAddressParam (addr : string) : M unit :=
  fun w =>
    (Return tt,
     {| state := state w; requests := requests w;
        addressParam := Some addr |}).

(** ** Requests *)

(** A promise that has been started: when it settles, and how. *)
Definition Promise (A : Type) : Type := nat * Result A.

Definition settle {A} (o : Outcome A) : Result A :=
  match o with
  | Rejected message => Throw message
  | Body (Some (message :: _)) _ => Throw message
  | Body (Some []) _ => Throw msgTypeError
  | Body None d => Return d
  end.

(** [gqlFetch(query)]: the request goes out at once; the promise settles
    with [json.data], or rejects. *)
Definition gqlFetch {A} (query : Query) (r : Response A) : M (Promise A) :=
  fun w =>
    (Return (arrival r, settle (outcome r)),
     {| state := state w; requests := requests w ++ [query];
        addressParam := addressParam w |}).

Definition await {A} (p : Promise A) : M A := fun w => (snd p, w).

(** [Promise.all] on two promises: the pair of the values, or the
    rejection that arrives first. *)
Definition both {A B} (p : Promise A) (q : Promise B) : Promise (A * B) :=
  match p, q with
  | (t1, Return a), (t2, Return b) => (Nat.max t1 t2, Return (a, b))
  | (t1, Throw m), (_, Return _) => (t1, Throw m)
  | (_, Return _), (t2, Throw m) => (t2, Throw m)
  | (t1, Throw m1), (t2, Throw m2) =>
      if (t1 <=? t2)%nat then (t1, Throw m1) else (t2, Throw m2)
  end.

Definition Promise_all3 {A B C} (p : Promise A) (q : Promise B)
    (r : Promise C) : Promise (A * (B * C)) :=
  both p (both q r).

(** [resolveENS(name)] *)
Definition resolveENS (net : Network) (name : string) : M string :=
  let lower := toLowerCase name in
  p <- gqlFetch (Q_domains lower) (fetch_domains net lower) ;;
  domains <- await p ;;
  match domains with
  | {| dm_resolvedAddress := Some addr |} :: _ =>
      if String.eqb addr "" then throw (msgUnresolved name) else ret addr
  | _ => throw (msgUnresolved name)
  end.

(** ** [loadDelegator] *)

Definition loadDelegator (net : Network) (address : string) : M unit :=
  let input := trim address in
  if String.eqb input "" then ret tt
  else
    setLoading true ;;
    setError "" ;;
    setData None ;;
    setOrchData None ;;
    tryCatchFinally
      (addr <- (if endsWith input ".eth" then resolveENS net input
                else
                  let addr := toLowerCase input in
                  if negb (isAddress addr) then throw msgInvalidInput
                  else ret addr) ;;
       p1 <- gqlFetch (Q_delegator addr) (fetch_delegator net addr) ;;
       p2 <- gqlFetch (Q_earnings addr) (fetch_earnings net addr) ;;
       p3 <- gqlFetch (Q_events addr) (fetch_events net addr) ;;
       r <- await (Promise_all3 p1 p2 p3) ;;
       let '(delData, (earnData, evtData)) := r in
       match delData with
       | None => throw msgNoDelegator
       | Some del =>
           setData (Some (mkData addr del earnData evtData)) ;;
           setWallet addr ;;
           setTab T_dash ;;
           setShow false ;;
           setSimStake (Number_ (rd_bondedAmount del)) ;;
           setSimCustom false ;;
           setAddressParam addr ;;
           (* the 50 ms timer *)
           setShow true
       end)
      (fun message => setError message)
      (setLoading false).

(** ** [loadOrchestrators] *)

(** A JavaScript object used as a map from strings to strings. *)
Fixpoint lookup (k : string) (names : list (string * string))
  : option string :=
  match names with
  | [] => None
  | (k', v) :: rest => if String.eqb k k' then Some v else lookup k rest
  end.

Fixpoint assign (k v : string) (names : list (string * string))
  : list (string * string) :=
  match names with
  | [] => [(k, v)]
  | (k', v') :: rest =>
      if String.eqb k k' then (k, v) :: rest
      else (k', v') :: assign k v rest
  end.

(** The [forEach] of [batchResolveENS]: the shortest name of each
    address. *)
Definition collectNames (domains : list Domain) : list (string * string) :=
  fold_left
    (fun names d =>
       match dm_name d, dm_resolvedAddress d with
       | Some name, Some id =>
           if String.eqb name "" || String.eqb id "" then names
           else
             let addr := toLowerCase id in
             match lookup addr names with
             | None => assign addr name names
             | Some old =>
                 if (jsLength name <? jsLength old)%nat
                 then assign addr name names else names
             end
       | _, _ => names
       end)
    domains [].

(** [batchResolveENS(addresses)]: the request goes out; the names it will
    resolve to, none when the request fails. *)
Definition batchResolveENS (net : Network) (addresses : list string)
  : M (list (string * string)) :=
  let addrList := map toLowerCase addresses in
  p <- gqlFetch (Q_domains_in addrList) (fetch_domains_in net addrList) ;;
  match snd p with
  | Return domains => ret (collectNames domains)
  | Throw _ => ret []
  end.

Definition mkOrch (mintable totalActive : N) (currentRoundId : string)
    (t : RawTranscoder) : Orch :=
  let stake := Number_ (rt_totalStake t) in
  let rewardCut := Number_ (rt_rewardCut t) in
  let feeShare := Number_ (rt_feeShare t) in
  let eth30d := Number_ (rt_thirtyDayVolumeETH t) in
  let eth90d := Number_ (rt_ninetyDayVolumeETH t) in
  let baseYield :=
    if gt totalActive (lit 0) then mintable / totalActive else lit 0 in
  let delegatorYield := baseYield * (lit 1 - rewardCut / lit 1000000) in
  let rewardAPY := delegatorYield * lit 365 * lit 100 in
  let delegatorFees30d := eth30d * (feeShare / lit 1000000) in
  let ethYieldPerLPT :=
    if gt stake (lit 0) then (delegatorFees30d / stake) * lit 12
    else lit 0 in
  {| o_id := rt_id t;
     o_rewardCut := rewardCut;
     o_feeShare := feeShare;
     o_stake := stake;
     o_eth30d := eth30d;
     o_eth90d := eth90d;
     o_totalETH := Number_ (rt_totalVolumeETH t);
     o_rewardAPY := rewardAPY;
     o_ethYieldPerLPT := ethYieldPerLPT;
     o_delegatorFees30d := delegatorFees30d;
     o_isWorking := gt eth30d (lit 0);
     o_lastRewardRound := rt_lastRewardRound t;
     o_callingReward :=
       match rt_lastRewardRound t with
       | Some id => String.eqb id currentRoundId
       | None => false
       end;
     o_sparkline := None |}.

(** [{ ...o, sparkline: byOrch[o.id] || null }] *)
Definition withSparkline (days : list RawDay) (o : Orch) : Orch :=
  let points :=
    map (fun d => (Number_ (day_date d), Number_ (day_volumeETH d)))
        (filter (fun d => String.eqb (day_transcoder d) (o_id o)) days) in
  {| o_id := o_id o; o_rewardCut := o_rewardCut o;
     o_feeShare := o_feeShare o; o_stake := o_stake o;
     o_eth30d := o_eth30d o; o_eth90d := o_eth90d o;
     o_totalETH := o_totalETH o; o_rewardAPY := o_rewardAPY o;
     o_ethYieldPerLPT := o_ethYieldPerLPT o;
     o_delegatorFees30d := o_delegatorFees30d o;
     o_isWorking := o_isWorking o;
     o_lastRewardRound := o_lastRewardRound o;
     o_callingReward := o_callingReward o;
     o_sparkline := match points with [] => None | _ => Some points end |}.

(** The two continuations that run in the background once the loader has
    returned: the ENS names, and the sparklines when the request for them
    went out and succeeded. *)
Definition background
    (started : option (list (string * string)
                       * option (Promise (list RawDay)))) : M unit :=
  match started with
  | None => ret tt
  | Some (names, sparkData) =>
      setEnsNames names ;;
      match sparkData with
      | Some (_, Return days) =>
          updateOrchData (fun prev =>
            match prev with
            | Some orchs => Some (map (withSparkline days) orchs)
            | None => None
            end)
      | _ => ret tt
      end
  end.

Definition loadOrchestrators (net : Network) : M unit :=
  s <- getState ;;
  if isSome (orchData s) then ret tt
  else
    setOrchLoading true ;;
    started <-
      tryCatchFinally
        (p1 <- gqlFetch Q_transcoders (fetch_transcoders net) ;;
         p2 <- gqlFetch Q_protocol (fetch_protocol net) ;;
         r <- await (both p1 p2) ;;
         let '(tData, protocol) := r in
         let mintable := Number_ (rp_mintableTokens protocol) in
         let totalActive := Number_ (rp_totalActiveStake protocol) in
         let currentRoundId := rp_currentRound_id protocol in
         setProtocolData (Some
           {| p_inflation := Number_ (rp_inflation protocol);
              p_totalActiveStake := totalActive;
              p_totalSupply := Number_ (rp_totalSupply protocol);
              p_participationRate :=
                Number_ (rp_participationRate protocol);
              p_currentRound := currentRoundId;
              p_lptPriceEth := Number_ (rp_lptPriceEth protocol) |}) ;;
         let orchs := map (mkOrch mintable totalActive currentRoundId)
                          tData in
         setOrchData (Some orchs) ;;
         names <- batchResolveENS net (map o_id orchs) ;;
         let workingIds := map o_id (filter o_isWorking orchs) in
         match workingIds with
         | [] => ret (Some (names, None))
         | _ :: _ =>
             let thirtyDaysAgo := (now net / 1000 - 30 * 86400)%Z in
             let dayStart := (thirtyDaysAgo / 86400)%Z in
             p <- gqlFetch (Q_transcoderDays workingIds dayStart)
                           (fetch_transcoderDays net workingIds dayStart) ;;
             ret (Some (names, Some p))
         end)
        (fun _ => ret None)
        (setOrchLoading false) ;;
    background started.

(** The effect on [tab] and [data]. *)
Definition compareEffect (net : Network) : M unit :=
  s <- getState ;;
  if tab_eqb (tab s) T_compare && isSome (data s)
     && negb (isSome (orchData s)) && negb (orchLoading s)
  then loadOrchestrators net
  else ret tt.

(** A click on the Compare chip, and the effect that follows. *)
Definition openCompare (net : Network) : M unit :=
  setTab T_compare ;; compareEffect net.

(** ** Derived data *)

(** [x || 0] *)
Definition orZero (x : N) : N :=
  match exact x with
  | Finite q => if Qc_eq_bool q 0 then lit 0 else x
  | NotANumber => lit 0
  | _ => x
  end.

Definition claims (s : State) : list Claim :=
  match data s with Some d => d_claims d | None => [] end.
Definition earned (s : State) : N :=
  match data s with Some d => orZero (d_earned d) | None => lit 0 end.
Definition totalETH (s : State) : N :=
  match data s with Some d => orZero (d_totalETH d) | None => lit 0 end.
Definition totalRounds (s : State) : N :=
  match data s with Some d => orZero (d_totalRounds d) | None => lit 0 end.
Definition bondedAmount (s : State) : N :=
  match data s with
  | Some d => orZero (d_bondedAmount d)
  | None => lit 0
  end.
Definition principal (s : State) : N := bondedAmount s - earned s.
Definition roi (s : State) : N :=
  if gt (bondedAmount s) (lit 0)
  then (earned s / Math_max (principal s) (lit 1)) * lit 100
  else lit 0.

(** A point of the growth charts; [cp_ts] is the time stamp that [fmtM]
    prints as the [date] label. *)
Record CumPoint := {
  cp_ts : N;
  cp_lpt : N;
  cp_eth : N;
  cp_claimLPT : N;
  cp_claimETH : N
}.

(** The [map] over the claims with the running totals [cl] and [ce]. *)
Fixpoint cumFrom (cl ce : N) (cs : list Claim) : list CumPoint :=
  match cs with
  | [] => []
  | c :: rest =>
      let cl' := cl + c_lpt c in
      let ce' := ce + c_eth c in
      {| cp_ts := c_ts c;
         cp_lpt := toFixedNumber cl' 2;
         cp_eth := toFixedNumber ce' 5;
         cp_claimLPT := c_lpt c;
         cp_claimETH := c_eth c |} :: cumFrom cl' ce' rest
  end.

Definition cumData (s : State) : list CumPoint :=
  cumFrom (lit 0) (lit 0) (claims s).

Definition effectiveStake (s : State) : N :=
  if simCustom s then simStake s else bondedAmount s.

Definition column (col : Column) (o : Orch) : N :=
  match col with
  | Col_rewardAPY => o_rewardAPY o
  | Col_eth30d => o_eth30d o
  | Col_ethYieldPerLPT => o_ethYieldPerLPT o
  | Col_rewardCut => o_rewardCut o
  | Col_feeShare => o_feeShare o
  | Col_stake => o_stake o
  end.

(** [(a[col] - b[col]) * mult] is positive. *)
Definition orchAfter (by_ : Column * Direction) (a b : Orch) : bool :=
  let mult := match snd by_ with Desc => lit (-1) | Asc => lit 1 end in
  gt ((column (fst by_) a - column (fst by_) b) * mult) (lit 0).

(** [orchFilter === "all" || o.isWorking] *)
Definition keeps (f : OrchFilter) (o : Orch) : bool :=
  match f with
  | F_all => true
  | F_working => o_isWorking o
  end.

Definition filteredOrchs (s : State) : list Orch :=
  sort (orchAfter (orchSort s))
       (filter (keeps (orchFilter s)) (orEmpty (orchData s))).

(** ** [exportCSV] *)

Definition headers : list string :=
  ["Orchestrator"; "ENS Name"; "Reward APY %"; "30d ETH Fees";
   "ETH/LPT/yr"; "Reward Cut %"; "Fee Share %"; "Total Stake";
   "Reward Calling"; "Est LPT/yr"; "Est ETH/yr"]%string.

Definition csvRow (names : list (string * string)) (stake : N) (o : Orch)
  : list string :=
  [ o_id o;
    match lookup (o_id o) names with
    | Some name => name
    | None => ""
    end;
    toFixed (o_rewardAPY o) 2;
    toFixed (o_eth30d o) 4;
    toFixed (o_ethYieldPerLPT o) 6;
    toFixed (o_rewardCut o / lit 10000) 2;
    toFixed (o_feeShare o / lit 10000) 2;
    toFixed (o_stake o) 0;
    if o_callingReward o then "Yes" else "No";
    toFixed (stake * o_rewardAPY o / lit 100) 2;
    toFixed (stake * o_ethYieldPerLPT o) 6 ]%string.

Definition csvRows (orchs : list Orch) (names : list (string * string))
    (stake : N) : list (list string) :=
  map (csvRow names stake) orchs.

Definition newline : string := String (ascii_of_nat 10) "".

(** The text that [exportCSV] puts in the downloaded file. *)
Definition exportCSV (orchs : list Orch) (names : list (string * string))
    (stake : N) : string :=
  join newline (map (join ",") (headers :: csvRows orchs names stake)).

(** The click on the export button. *)
Definition exportClick (s : State) : string :=
  exportCSV (filteredOrchs s) (ensNames s) (effectiveStake s).

Definition run {A} (m : M A) (w : World) : World := snd (m w).
End Component.


(* ================================================================== *)
(** * The rest of the component *)

Definition column_eqb (a b : Column) : bool :=
  match a, b with
  | Col_rewardAPY, Col_rewardAPY | Col_eth30d, Col_eth30d
  | Col_ethYieldPerLPT, Col_ethYieldPerLPT | Col_rewardCut, Col_rewardCut
  | Col_feeShare, Col_feeShare | Col_stake, Col_stake => true
  | _, _ => false
  end.

(** [array.findIndex(p)] *)
Fixpoint findIndex {A} (p : A -> bool) (l : list A) : Z :=
  match l with
  | [] => -1
  | x :: rest =>
      if p x then 0
      else
        let i := findIndex p rest in
        if i <? 0 then -1 else i + 1
  end.

Section Views.
Context {N : Type} `{JSNumber N}.
Local Open Scope js_scope.

Notation "x <- m ;; k" := (bind m (fun x => k))
  (at level 61, m at next level, right associativity).
Notation "m ;; k" := (bind m (fun _ => k))
  (at level 61, right associativity).

(** ** The panels of the page *)

(** [{error && ...}], [{loading && ...}], [{data && !loading && ...}] and
    [{!data && !loading && !error && ...}] *)
Definition showsError (s : State (N:=N)) : bool := negb (String.eqb (error s) "").
Definition showsLoading (s : State (N:=N)) : bool := loading s.
Definition showsDashboard (s : State (N:=N)) : bool :=
  isSome (data s) && negb (loading s).
Definition showsWelcome (s : State (N:=N)) : bool :=
  negb (isSome (data s)) && negb (loading s) && negb (showsError s).

(** ** Dashboard tab *)

(** [totalRounds > 0 ? (earned / totalRounds).toFixed(2) : "—"] *)
Definition avgPerRound (s : State (N:=N)) : string :=
  if gt (totalRounds s) (lit 0)
  then toFixed (earned s / totalRounds s) 2
  else emDash.

(** [totalRounds > 0 ? (totalETH / totalRounds).toFixed(6) : "—"] *)
Definition avgETHPerRound (s : State (N:=N)) : string :=
  if gt (totalRounds s) (lit 0)
  then toFixed (totalETH s / totalRounds s) 6
  else emDash.

(** ** Compare tab *)

(** [data?.delegate?.id?.toLowerCase()] *)
Definition currentOrchId (s : State (N:=N)) : option string :=
  match data s with
  | Some d =>
      match d_delegate d with
      | Some delegate => Some (toLowerCase (dg_id delegate))
      | None => None
      end
  | None => None
  end.

(** [o.id === currentOrchId] *)
Definition isCurrent (s : State (N:=N)) (o : Orch (N:=N)) : bool :=
  match currentOrchId s with
  | Some id => String.eqb (o_id o) id
  | None => false
  end.

(** [filteredOrchs.findIndex((o) => o.id === currentOrchId) + 1] *)
Definition currentOrchRank (s : State (N:=N)) : Z :=
  (findIndex (isCurrent s) (filteredOrchs s) + 1)%Z.

Definition workingCount (s : State (N:=N)) : nat :=
  List.length (filter o_isWorking (orEmpty (orchData s))).

(** [setOrchSort(f)] with an updater function. *)
Definition updateOrchSort
    (f : Column * Direction -> Column * Direction) : M (N:=N) unit :=
  modify (fun s =>
  {| wallet := wallet s; loading := loading s; error := error s;
     data := data s; tab := tab s; show := show s; orchData := orchData s;
     orchLoading := orchLoading s; orchFilter := orchFilter s;
     orchSort := f (orchSort s); ensNames := ensNames s;
     protocolData := protocolData s; simStake := simStake s;
     simCustom := simCustom s |}).

(** The updater of a click on a sortable header:
    [{ col: h.col, dir: s.col === h.col && s.dir === "desc" ? "asc" : "desc" }] *)
Definition toggled (col : Column) (s : Column * Direction)
  : Column * Direction :=
  (col,
   match snd s with
   | Desc => if column_eqb (fst s) col then Asc else Desc
   | Asc => Desc
   end).

Definition clickHeader (col : Column) : M (N:=N) unit := updateOrchSort (toggled col).

(** ** The stake simulator *)

(** [onChange]: [setSimStake(Number(e.target.value) || 0); setSimCustom(true)];
    the text of the field is a decimal, or something [Number] reads as 0 or
    as NaN. *)
Definition simChange (value : option Decimal) : M (N:=N) unit :=
  setSimStake
    (match value with
     | Some d => orZero (Number_ d)
     | None => lit 0
     end) ;;
  setSimCustom true.

(** [onFocus] *)
Definition simFocus : M (N:=N) unit :=
  s <- getState ;;
  if simCustom s then ret tt
  else setSimStake (bondedAmount s) ;; setSimCustom true.

(** The Reset button. *)
Definition simReset : M (N:=N) unit :=
  s <- getState ;;
  setSimCustom false ;; setSimStake (bondedAmount s).
(** ** The page *)

(** The component together with the text of the input field and the
    [wallet] parameter of the URL; the [address] parameter is in the
    world. *)
Record Page := {
  world : World (N:=N);
  inputVal : string;
  walletParam : option string
}.

(** [params.get("address") || params.get("wallet")] *)
Definition addressOrWallet (p : Page) : option string :=
  match addressParam (world p) with
  | Some a => if String.eqb a "" then walletParam p else Some a
  | None => walletParam p
  end.

(** The effect on mount:
    [if (addr) { setInputVal(addr); loadDelegator(addr); }] *)
Definition mount (net : Network) (p : Page) : Page :=
  match addressOrWallet p with
  | Some addr =>
      if String.eqb addr "" then p
      else {| world := run (loadDelegator net addr) (world p);
              inputVal := addr;
              walletParam := walletParam p |}
  | None => p
  end.

(** A page that has just been opened at a URL. *)
Definition opened (address wallet : option string) : Page :=
  {| world := {| state := initialState; requests := [];
                 addressParam := address |};
     inputVal := "";
     walletParam := wallet |}.

End Views.

(** ** [AnimNum], in exact arithmetic *)

Definition Qcmin (a b : Qc) : Qc := if Qcltb b a then b else a.

(** The duration of the animation, in milliseconds. *)
Definition dur : Qc := Q2Qc 1200.

(** One [tick(now)] of the animation that started at [t0] from [start]
    towards [target]: the value displayed, and whether another frame is
    requested. *)
Definition tick (start target t0 now : Qc) : Qc * bool :=
  let p := Qcmin ((now - t0) / dur) 1 in
  let ease := (1 - (1 - p) ^ 3)%Qc in
  ((start + (target - start) * ease)%Qc, Qcltb p 1).

(* ================================================================== *)
(** * The specification's cumulative series *)

(** The running totals of a series of amounts, as the specification words
    the cumulative series; it is compared with [cumData] below. *)
Fixpoint prefixSums {N} `{JSNumber N} (acc : N) (xs : list N) : list N :=
  match xs with
  | [] => []
  | x :: rest => add acc x :: prefixSums (add acc x) rest
  end.

(* ================================================================== *)
(** * Describing a lookup *)

(** The address that a lookup queries for its input, when it gets as far
    as the three queries. *)
Definition target (net : Network) (address : string) : option string :=
  let input := trim address in
  if String.eqb input "" then None
  else if endsWith input ".eth" then
    match settle (outcome (fetch_domains net (toLowerCase input))) with
    | Return ({| dm_resolvedAddress := Some addr |} :: _) =>
        if String.eqb addr "" then None else Some addr
    | _ => None
    end
  else if isAddress (toLowerCase input) then Some (toLowerCase input)
  else None.

(** The request that resolves an ENS name, if the input is one. *)
Definition resolutionRequests (address : string) : list Query :=
  let input := trim address in
  if endsWith input ".eth" then [Q_domains (toLowerCase input)] else [].

(** The message with which a request fails, if it does. *)
Definition rejection {A} (r : Response A) : option string :=
  match settle (outcome r) with
  | Throw message => Some message
  | Return _ => None
  end.

(** One of the three queries fails, or there is no delegator. *)
Definition barrierFails (net : Network) (addr : string) : Prop :=
  rejection (fetch_delegator net addr) <> None
  \/ rejection (fetch_earnings net addr) <> None
  \/ rejection (fetch_events net addr) <> None
  \/ settle (outcome (fetch_delegator net addr)) = Return None.


(* ================================================================== *)
(** * The specification's arbitrary-precision sums *)

(** The rational that a number stands for, if it is finite. *)
Definition valueQ (v : Value) : option Q :=
  match v with Finite q => Some (this q) | _ => None end.

(** The sum of decimal strings as decimals of arbitrary precision. *)
Definition exactSum (ds : list Decimal) : Q :=
  fold_right
    (fun d acc =>
       (inject_Z (mantissa d) / inject_Z (pow10 (scale d)) + acc)%Q)
    0%Q ds.

(* ================================================================== *)
(** * The specification's yield projections *)

Section Yield.
Context {N : Type} `{JSNumber N}.
Local Open Scope js_scope.

Definition baseYieldPerRound (mintableTokensThisRound totalActiveStake : N)
  : N :=
  if gt totalActiveStake (lit 0)
  then mintableTokensThisRound / totalActiveStake
  else lit 0.

Definition delegatorYieldPerRound (baseYield rewardCut : N) : N :=
  baseYield * (lit 1 - rewardCut / lit 1000000).

Definition annualizedRewardAPY (delegatorYield : N) : N :=
  delegatorYield * lit 365 * lit 100.

Definition ethYieldPerStakeUnitPerYear
    (thirtyDayVolumeETH feeShare totalStake : N) : N :=
  if gt totalStake (lit 0)
  then (thirtyDayVolumeETH * feeShare / lit 1000000 / totalStake) * lit 12
  else lit 0.
End Yield.

(** The orchestrator [o] carries the projections of the specification for
    the transcoder [t] under the protocol snapshot. *)
Definition projected (protocol : RawProtocol) (t : RawTranscoder)
    (o : Orch (N:=Qc)) : Prop :=
  let baseYield :=
    baseYieldPerRound (Number_ (rp_mintableTokens protocol))
                      (Number_ (rp_totalActiveStake protocol)) in
  let delegatorYield :=
    delegatorYieldPerRound baseYield (Number_ (rt_rewardCut t)) in
  o_id o = rt_id t
  /\ o_rewardAPY o = annualizedRewardAPY delegatorYield
  /\ o_ethYieldPerLPT o
     = ethYieldPerStakeUnitPerYear (Number_ (rt_thirtyDayVolumeETH t))
         (Number_ (rt_feeShare t)) (Number_ (rt_totalStake t)).

(* ================================================================== *)
(** * Properties of the cumulative series *)

(** A claim with amounts that are not negative, in exact arithmetic. *)
Definition nonNegative (c : Claim (N:=Qc)) : Prop :=
  (0 <= c_lpt c)%Qc /\ (0 <= c_eth c)%Qc.

(** From 10^21 on [toFixed] no longer rounds. *)
Definition bound21 : Qc := Q2Qc (inject_Z (pow10 21)).

(** ** The order of the numbers of the source *)

(** [u <= v] on values; NaN is in no order with anything. *)
Definition valueLe (u v : Value) : Prop :=
  match u, v with
  | NotANumber, _ => False
  | _, NotANumber => False
  | MinusInfinity, _ => True
  | _, PlusInfinity => True
  | Finite x, Finite y => (x <= y)%Qc
  | _, _ => False
  end.

(** [a <= b] *)
Definition atMost {N} `{JSNumber N} (a b : N) : Prop :=
  valueLe (exact a) (exact b).

(** What the order of the cumulative series asks of the arithmetic: adding
    an amount that is not negative to a total that is not negative does not
    decrease the total, and reading a decimal is monotone.  Both hold of
    exact arithmetic and of doubles, which round to nearest. *)
Class Monotone (N : Type) `{JSNumber N} : Prop := {
  zero_is_zero : exact (lit (N:=N) 0) = Finite 0%Qc;
  add_nondecreasing :
    forall a x : N,
      atMost (lit 0) a -> atMost (lit 0) x -> atMost a (add a x);
  Number_monotone :
    forall (f : nat) (n m : Z),
      (0 <= n <= m)%Z ->
      atMost (Number_ (mkDecimal n f)) (Number_ (mkDecimal m f));
  Number_below :
    forall (d : Decimal) (b : N),
      (0 <= mantissa d)%Z ->
      valueLe (Finite (decimalQ d)) (exact b) -> atMost (Number_ d) b
}.

(** A claim with amounts that are not negative, and a point of the series
    that is at least another one in both dimensions, in the numbers of the
    source. *)
Definition amountsNotNegative {N} `{JSNumber N} (c : Claim (N:=N)) : Prop :=
  atMost (lit 0) (c_lpt c) /\ atMost (lit 0) (c_eth c).

Definition pointNotBelow {N} `{JSNumber N} (p q : CumPoint (N:=N)) : Prop :=
  atMost (cp_lpt p) (cp_lpt q) /\ atMost (cp_eth p) (cp_eth q).

(** ** How doubles round *)

Module Rounding.
Import SpecFloat FloatOps.
Local Open Scope Z_scope.

Definition pow2 (e : Z) : Q := Qpower 2 e.

Definition code (mrs : SpecFloat.shr_record) : Z :=
  2 * SpecFloat.shr_m mrs + (if SpecFloat.shr_r mrs then 1 else 0).

(** The record [mrs] gives the place of [u]: the integer part, whether the
    rest is at least a half, and whether anything is left after that. *)
Definition locates (u : Q) (mrs : SpecFloat.shr_record) : Prop :=
  (inject_Z (code mrs) <= 2 * u)%Q
  /\ (2 * u < inject_Z (code mrs) + 1)%Q
  /\ (SpecFloat.shr_s mrs = false <-> (2 * u == inject_Z (code mrs))%Q).

(** [a] is [u] rounded to an integer, to the nearest and to the even one on
    a tie. *)
Definition rne (u : Q) (a : Z) : Prop :=
  exists mrs,
    locates u mrs /\ 0 <= SpecFloat.shr_m mrs
    /\ a = SpecFloat.round_nearest_even (SpecFloat.shr_m mrs)
             (SpecFloat.loc_of_shr_record mrs).

Definition valueSF (x : spec_float) : Value :=
  match x with
  | S754_zero _ => Finite 0%Qc
  | S754_infinity false => PlusInfinity
  | S754_infinity true => MinusInfinity
  | S754_nan => NotANumber
  | S754_finite s m e =>
      let q := (inject_Z (Zpos m) * Qpower 2 e)%Q in
      Finite (Q2Qc (if s then Qopp q else q))
  end.

(** The end of [binary_round_aux]: the double of mantissa [m] and exponent
    [c], after the mantissa has been rounded. *)
Definition norm (m c : Z) : spec_float :=
  let '(mrs, e) := SpecFloat.shr_fexp prec emax m c SpecFloat.loc_Exact in
  match SpecFloat.shr_m mrs with
  | Z0 => S754_zero false
  | Zpos m' =>
      if e <=? emax - prec then S754_finite false m' e
      else S754_infinity false
  | Zneg _ => S754_nan
  end.

(** [m] is the mantissa of the positive number [v] rounded at the exponent
    [c] that doubles have for numbers of the size of [v]. *)
Definition rounds (v : Q) (c m : Z) : Prop :=
  exists g,
    c = SpecFloat.fexp prec emax g
    /\ (0 < v)%Q /\ (v < pow2 g)%Q
    /\ ((pow2 (g - 1) <= v)%Q \/ g <= -1074)
    /\ rne (v * pow2 (- c)) m.
End Rounding.

(* ================================================================== *)
(** * Describing the rest of the component *)

(** [d] is a domain with the name [name] for the address [addr] in lower
    case: what the loop of [batchResolveENS] takes up. *)
Definition isNameOf (d : Domain) (addr name : string) : Prop :=
  dm_name d = Some name /\ name <> ""
  /\ exists id, dm_resolvedAddress d = Some id /\ id <> ""
                /\ toLowerCase id = addr.

(** A domain whose resolved address, if it has one, is an Ethereum
    address in either case.  On such keys the association list and
    [toLowerCase] are what the object [names] and the method are in
    JavaScript: no key is a property that an object inherits, and no
    character is cased beyond ASCII. *)
Definition resolvesToAddress (d : Domain) : Prop :=
  match dm_resolvedAddress d with
  | Some id => id = "" \/ isAddress (toLowerCase id) = true
  | None => True
  end.

(** What the names hold after the domains [seen]: for every address the
    shortest of its names, by [name.length], and nothing for an address
    without a name. *)
Definition shortestOf (seen : list Domain) (held : list (string * string))
  : Prop :=
  forall addr,
    match lookup addr held with
    | Some name =>
        (exists d, In d seen /\ isNameOf d addr name)
        /\ (forall d other, In d seen -> isNameOf d addr other ->
                            (jsLength name <= jsLength other)%nat)
    | None => forall d other, In d seen -> ~ isNameOf d addr other
    end.

(** The order of the leaderboard: [a] may stand before [b]. *)
Definition inOrder (by_ : Column * Direction) (a b : Orch (N:=Qc)) : Prop :=
  match snd by_ with
  | Desc => (column (fst by_) b <= column (fst by_) a)%Qc
  | Asc => (column (fst by_) a <= column (fst by_) b)%Qc
  end.

(** A count as an exact number. *)
Definition ofNat (n : nat) : Qc := Q2Qc (inject_Z (Z.of_nat n)).

(** Half a unit of the last of [f] decimals. *)
Definition halfUnit (f : nat) : Qc := Q2Qc ((1 # 2) / inject_Z (pow10 f)).

(** A rounded value that is within half a unit of the exact one. *)
Definition within (f : nat) (rounded value : Qc) : Prop :=
  (value - halfUnit f <= rounded)%Qc /\ (rounded <= value + halfUnit f)%Qc.

Definition kind_eqb (a b : EventKind) : bool :=
  match a, b with
  | K_bond, K_bond | K_redelegate, K_redelegate | K_unbond, K_unbond
  | K_rebond, K_rebond | K_withdraw, K_withdraw
  | K_withdrawFees, K_withdrawFees | K_claim, K_claim => true
  | _, _ => false
  end.

(** How often the character [c] occurs in [s]. *)
Fixpoint occurrences (c : ascii) (s : string) : nat :=
  match s with
  | EmptyString => 0
  | String a rest =>
      ((if Ascii.eqb a c then 1 else 0) + occurrences c rest)%nat
  end.

Definition comma : ascii := ","%char.
Definition lineFeed : ascii := ascii_of_nat 10.

(** A field that can stand in a CSV line as it is. *)
Definition plain (s : string) : Prop :=
  occurrences comma s = 0%nat /\ occurrences lineFeed s = 0%nat.

(* ================================================================== *)
(** * Sample data *)

Definition whole (z : Z) : Decimal := mkDecimal z 0.

Definition addrA : string := "0x00000000000000000000000000000000000000aa".
Definition addrB : string := "0x00000000000000000000000000000000000000bb".

Definition fulfilled {A} (a : A) : Response A := mkResponse 1 (Body None a).

Definition delegatorOf (id : string) (bonded : Decimal) : RawDelegator :=
  {| rd_id := id; rd_bondedAmount := bonded; rd_fees := whole 0;
     rd_withdrawnFees := whole 0; rd_startRound := whole 1;
     rd_delegate := None |}.

Definition claimOf (timestamp startRound endRound : Z)
    (rewardTokens fees : Decimal) : RawClaim :=
  {| rc_timestamp := whole timestamp; rc_startRound := whole startRound;
     rc_endRound_id := whole endRound; rc_rewardTokens := rewardTokens;
     rc_fees := fees; rc_delegate := None |}.

Definition noEvents : RawEvents :=
  {| bondEvents := None; unbondEvents := None; rebondEvents := None;
     withdrawStakeEvents := None; withdrawFeesEvents := None |}.

Definition transcoderOf (id : string) (rewardCut feeShare stake eth30d : Decimal)
  : RawTranscoder :=
  {| rt_id := id; rt_rewardCut := rewardCut; rt_feeShare := feeShare;
     rt_totalStake := stake; rt_thirtyDayVolumeETH := eth30d;
     rt_ninetyDayVolumeETH := eth30d; rt_totalVolumeETH := eth30d;
     rt_lastRewardRound := Some "4000" |}.

Definition protocolOf (mintable totalActive : Decimal) : RawProtocol :=
  {| rp_inflation := whole 0; rp_totalActiveStake := totalActive;
     rp_totalSupply := whole 30000000; rp_participationRate := whole 0;
     rp_currentRound_id := "4000"; rp_mintableTokens := mintable;
     rp_lptPriceEth := whole 0 |}.

(** A network in which every request succeeds; every address has the
    bonded amount, claims and events given. *)
Definition networkOf (bonded : Decimal) (claims : list RawClaim)
    (events : RawEvents) (transcoders : list RawTranscoder)
    (protocol : RawProtocol) : Network :=
  {| now := 1700000000000;
     fetch_delegator := fun id => fulfilled (Some (delegatorOf id bonded));
     fetch_earnings := fun _ => fulfilled (Some claims);
     fetch_events := fun _ => fulfilled events;
     fetch_transcoders := fulfilled transcoders;
     fetch_protocol := fulfilled protocol;
     fetch_domains := fun _ => fulfilled [];
     fetch_domains_in := fun _ => fulfilled [];
     fetch_transcoderDays := fun _ _ => fulfilled [] |}.

Definition world0 {N} `{JSNumber N} : World :=
  {| state := initialState; requests := []; addressParam := None |}.

(** Bonded 50, one claim of 80 LPT. *)
Definition net_50_80 : Network :=
  networkOf (whole 50) [claimOf 1000 10 12 (whole 80) (whole 0)] noEvents
            [] (protocolOf (whole 0) (whole 0)).

(** Fully unbonded, one claim of 5 LPT. *)
Definition net_0_5 : Network :=
  networkOf (whole 0) [claimOf 1000 10 12 (whole 5) (whole 0)] noEvents
            [] (protocolOf (whole 0) (whole 0)).

(** The end-to-end scenario: 1000 LPT bonded; a claim of 5 LPT and 0.001
    ETH for round 10, and one of 20 LPT and 0.004 ETH for rounds 11 to 15. *)
Definition net_scenario : Network :=
  networkOf (whole 1000)
            [claimOf 1000 10 10 (whole 5) (mkDecimal 1 3);
             claimOf 2000 11 15 (whole 20) (mkDecimal 4 3)]
            noEvents [] (protocolOf (whole 0) (whole 0)).

(** One claim of 0.001 LPT. *)
Definition net_small_claim : Network :=
  networkOf (whole 1000) [claimOf 1000 10 10 (mkDecimal 1 3) (whole 0)]
            noEvents [] (protocolOf (whole 0) (whole 0)).

(** The projection scenario: 1000 mintable tokens, 100000 LPT of active
    stake, one orchestrator with a reward cut of 100000 / 1000000, a fee
    share of 500000 / 1000000, 20000 LPT staked and 10 ETH of fees in 30
    days. *)
Definition net_yield : Network :=
  networkOf (whole 1000) [] noEvents
            [transcoderOf addrB (whole 100000) (whole 500000) (whole 20000)
                          (whole 10)]
            (protocolOf (whole 1000) (whole 100000)).

(** One claim of 0.015 LPT: a double a little below the decimal. *)
Definition net_015 : Network :=
  networkOf (whole 1000) [claimOf 1000 10 10 (mkDecimal 15 3) (whole 0)]
            noEvents [] (protocolOf (whole 0) (whole 0)).

(** Two claims, of 0.1 and of 0.2 LPT. *)
Definition net_tenths : Network :=
  networkOf (whole 1000)
            [claimOf 1000 10 10 (mkDecimal 1 1) (whole 0);
             claimOf 2000 11 11 (mkDecimal 2 1) (whole 0)]
            noEvents [] (protocolOf (whole 0) (whole 0)).

(** The scenario with the claims query failing. *)
Definition net_earnings_down : Network :=
  {| now := now net_scenario;
     fetch_delegator := fetch_delegator net_scenario;
     fetch_earnings := fun _ => mkResponse 0 (Rejected "Failed to fetch");
     fetch_events := fetch_events net_scenario;
     fetch_transcoders := fetch_transcoders net_scenario;
     fetch_protocol := fetch_protocol net_scenario;
     fetch_domains := fetch_domains net_scenario;
     fetch_domains_in := fetch_domains_in net_scenario;
     fetch_transcoderDays := fetch_transcoderDays net_scenario |}.

(** A session: look up [addrA], open the comparison, look up [addrB], open
    the comparison again. *)
Definition session1 : World (N:=Qc) :=
  run (loadDelegator net_yield addrA) world0.
Definition session2 : World (N:=Qc) := run (openCompare net_yield) session1.

Definition addrC : string := "0x00000000000000000000000000000000000000cc".

(** A name of seven times U+00E9 and [.eth]: 11 code units in 18 bytes. *)
Definition accented : string :=
  string_of_list_ascii
    (chars [195; 169; 195; 169; 195; 169; 195; 169; 195; 169; 195; 169;
            195; 169]%nat ++ list_ascii_of_string ".eth").

(** A delegator bonded to [addrB]; two working orchestrators, [addrB] and
    [addrC], the latter with the lower reward cut. *)
Definition net_delegated : Network :=
  {| now := now net_yield;
     fetch_delegator := fun id =>
       fulfilled (Some
         {| rd_id := id; rd_bondedAmount := whole 1000; rd_fees := whole 0;
            rd_withdrawnFees := whole 0; rd_startRound := whole 1;
            rd_delegate := Some
              {| dg_id := addrB; dg_totalStake := whole 20000;
                 dg_rewardCut := whole 100000; dg_feeShare := whole 500000;
                 dg_thirtyDayVolumeETH := whole 0 |} |});
     fetch_earnings := fetch_earnings net_scenario;
     fetch_events := fetch_events net_yield;
     fetch_transcoders :=
       fulfilled
         [transcoderOf addrB (whole 100000) (whole 500000) (whole 20000)
                       (whole 5);
          transcoderOf addrC (whole 50000) (whole 500000) (whole 30000)
                       (whole 10)];
     fetch_protocol := fetch_protocol net_yield;
     fetch_domains := fetch_domains net_yield;
     fetch_domains_in := fetch_domains_in net_yield;
     fetch_transcoderDays := fetch_transcoderDays net_yield |}.

Definition delegated1 : World (N:=Qc) :=
  run (loadDelegator net_delegated addrA) world0.
Definition delegated2 : World (N:=Qc) :=
  run (openCompare net_delegated) delegated1.

(** The same with the protocol query failing. *)
Definition net_protocol_down : Network :=
  {| now := now net_delegated;
     fetch_delegator := fetch_delegator net_delegated;
     fetch_earnings := fetch_earnings net_delegated;
     fetch_events := fetch_events net_delegated;
     fetch_transcoders := fetch_transcoders net_delegated;
     fetch_protocol := mkResponse 0 (Rejected "Failed to fetch");
     fetch_domains := fetch_domains net_delegated;
     fetch_domains_in := fetch_domains_in net_delegated;
     fetch_transcoderDays := fetch_transcoderDays net_delegated |}.

(* ================================================================== *)
(** * Exact arithmetic *)

Local Open Scope Qc_scope.

Lemma Qcltb_true (a b : Qc) : Qcltb a b = true <-> a < b.
Proof.
  unfold Qcltb. rewrite Qclt_alt. destruct (a ?= b); split; congruence.
Qed.

Lemma Qcltb_false (a b : Qc) : Qcltb a b = false <-> b <= a.
Proof.
  split; intros Hf.
  - apply Qcnot_lt_le. intros Hlt. apply Qcltb_true in Hlt. congruence.
  - destruct (Qcltb a b) eqn:E; [|reflexivity].
    apply Qcltb_true in E. exfalso. exact (Qcle_not_lt _ _ Hf E).
Qed.

Lemma Qcmax_lower_r (a b : Qc) : b <= Qcmax a b.
Proof.
  unfold Qcmax. destruct (Qcltb a b) eqn:E.
  - apply Qcle_refl.
  - now apply Qcltb_false.
Qed.

Lemma lit_exact (z : Z) : lit (N:=Qc) z = Q2Qc (inject_Z z).
Proof.
  unfold lit. cbn. unfold decimalQ. cbn. apply Q2Qc_eq_iff.
  unfold pow10. cbn. field.
Qed.

Lemma lit_0 : lit (N:=Qc) 0 = 0.
Proof. apply Qc_is_canon. reflexivity. Qed.

Lemma lit_1 : lit (N:=Qc) 1 = 1.
Proof. apply Qc_is_canon. reflexivity. Qed.

(** On exact numbers [x || 0] is [x]. *)
Lemma orZero_exact (q : Qc) : orZero q = q.
Proof.
  unfold orZero. cbn. destruct (Qc_eq_bool q 0) eqn:E; [|reflexivity].
  apply Qc_eq_bool_correct in E. subst. apply Qc_is_canon. reflexivity.
Qed.

(* ================================================================== *)
(** * Rounds covered by a claim *)

(** C6. For every claim record [rounds] is
    [max (endRound - startRound + 1) 1], and it is at least 1, whatever the
    order of the two rounds; a claim with [startRound = endRound = 100]
    covers one round, in exact arithmetic and in doubles. *)
Theorem roundsCovered_at_least_one :
  (forall c : RawClaim,
      c_rounds (mkClaim (N:=Qc) c)
      = Math_max (Number_ (rc_endRound_id c) - Number_ (rc_startRound c)
                  + lit 1)%js (lit 1)
      /\ 1 <= c_rounds (mkClaim (N:=Qc) c))
  /\ (forall timestamp rewardTokens fees,
         c_rounds (mkClaim (N:=Qc)
                     (claimOf timestamp 100 100 rewardTokens fees)) = 1)
  /\ (forall timestamp rewardTokens fees,
         c_rounds (mkClaim (N:=PrimFloat.float)
                     (claimOf timestamp 100 100 rewardTokens fees))
         = lit 1).
Proof.
  split; [|split].
  - intros c. split; [reflexivity|].
    cbn -[lit]. rewrite lit_1. apply Qcmax_lower_r.
  - intros. apply Qc_is_canon. reflexivity.
  - intros. vm_compute. reflexivity.
Qed.

(* ================================================================== *)
(** * Return on investment *)

(** C1, as the code has it. The ROI is
    [earned / max (principal, 1) * 100] with
    [principal = bondedAmount - earned] when the bonded amount is positive,
    and 0 otherwise (also with no data); the denominator is at least 1; for
    a bonded amount of 50 and 80 LPT earned the principal is -30, the
    denominator is clamped to 1 and the ROI is 8000, in exact arithmetic
    and in doubles. *)
Theorem roi_clamped_when_bonded :
  (forall s : State (N:=Qc),
      roi s =
      match data s with
      | Some d =>
          if gt (d_bondedAmount d) (lit 0)
          then (d_earned d
                / Math_max (d_bondedAmount d - d_earned d) (lit 1)
                * lit 100)%js
          else lit 0
      | None => lit 0
      end)
  /\ (forall s : State (N:=Qc), 1 <= Math_max (principal s) (lit 1))
  /\ (let s := state (run (N:=Qc) (loadDelegator net_50_80 addrA) world0) in
      option_map (fun d => (d_bondedAmount d, d_earned d)) (data s)
      = Some (lit 50, lit 80)
      /\ principal s = lit (-30) /\ roi s = lit 8000)
  /\ roi (state (run (N:=PrimFloat.float)
                   (loadDelegator net_50_80 addrA) world0))
     = lit 8000.
Proof.
  split; [|split; [|split]].
  - intros s. unfold roi, principal, bondedAmount, earned.
    destruct (data s) as [d|].
    + now rewrite !orZero_exact.
    + reflexivity.
  - intros s. rewrite lit_1. apply Qcmax_lower_r.
  - cbv zeta. repeat split; apply Qc_is_canon || f_equal; vm_compute; reflexivity.
  - vm_compute. reflexivity.
Qed.

(** C1, as stated, fails for a delegator who has unbonded everything: with
    nothing bonded and 5 LPT earned the formula gives 500, the dashboard
    shows 0. *)
Lemma roi_not_the_formula_when_unbonded :
  let s := state (run (N:=Qc) (loadDelegator net_0_5 addrA) world0) in
  option_map (fun d => (d_bondedAmount d, d_earned d)) (data s)
  = Some (lit 0, lit 5)
  /\ roi s = lit 0
  /\ (earned s / Math_max (principal s) (lit 1) * lit 100)%js = lit 500
  /\ roi s <> (earned s / Math_max (principal s) (lit 1) * lit 100)%js.
Proof.
  cbv zeta. split; [|split; [|split]].
  - vm_compute. reflexivity.
  - apply Qc_is_canon. vm_compute. reflexivity.
  - apply Qc_is_canon. vm_compute. reflexivity.
  - intros E. apply (f_equal (fun q : Qc => Qnum (this q))) in E.
    vm_compute in E. discriminate.
Qed.


(* ================================================================== *)
(** * The stable sort *)

Section SortFacts.
Context {A : Type} (after : A -> A -> bool).

Lemma insert_perm (x : A) (l : list A) :
  Permutation (insert after x l) (x :: l).
Proof.
  induction l as [|y l IH]; cbn.
  - reflexivity.
  - destruct (after x y).
    + rewrite IH. apply perm_swap.
    + reflexivity.
Qed.

Lemma sort_perm (l : list A) : Permutation (sort after l) l.
Proof.
  induction l as [|x l IH]; cbn.
  - constructor.
  - rewrite insert_perm. now constructor.
Qed.

(** Elements none of which goes after another keep their order. *)
Lemma filter_insert (p : A -> bool) (x : A) (l : list A) :
  (forall y, p x = true -> p y = true -> after x y = false) ->
  filter p (insert after x l) = filter p (x :: l).
Proof.
  intros Hp. induction l as [|y l IH]; cbn.
  - reflexivity.
  - destruct (after x y) eqn:Exy; cbn.
    + rewrite IH. cbn.
      destruct (p x) eqn:Epx, (p y) eqn:Epy; try reflexivity.
      rewrite (Hp y eq_refl Epy) in Exy. discriminate.
    + reflexivity.
Qed.

Lemma sort_stable (p : A -> bool) (l : list A) :
  (forall x y, p x = true -> p y = true -> after x y = false) ->
  filter p (sort after l) = filter p l.
Proof.
  intros Hp. induction l as [|x l IH].
  - reflexivity.
  - change (sort after (x :: l)) with (insert after x (sort after l)).
    rewrite filter_insert by (intros y; apply Hp).
    cbn [filter]. now rewrite IH.
Qed.

Context (le : A -> A -> Prop).
Hypothesis le_trans : forall x y z, le x y -> le y z -> le x z.
Hypothesis not_after_le : forall x y, after x y = false -> le x y.
Hypothesis after_le : forall x y, after x y = true -> le y x.

Lemma insert_sorted (x : A) (l : list A) :
  StronglySorted le l -> StronglySorted le (insert after x l).
Proof.
  induction 1 as [|y l Hs IH Hall]; cbn.
  - repeat constructor.
  - destruct (after x y) eqn:Exy.
    + constructor; [exact IH|].
      apply (Permutation_Forall (Permutation_sym (insert_perm x l))).
      constructor; [now apply after_le | exact Hall].
    + constructor; [now constructor|].
      constructor; [now apply not_after_le|].
      eapply Forall_impl; [|exact Hall].
      intros z Hz. eapply le_trans; [|exact Hz]. now apply not_after_le.
Qed.

Lemma sort_sorted (l : list A) : StronglySorted le (sort after l).
Proof.
  induction l as [|x l IH]; cbn.
  - constructor.
  - now apply insert_sorted.
Qed.
End SortFacts.

Lemma laterThan_exact (a b : Event (N:=Qc)) :
  laterThan a b = true <-> e_ts b < e_ts a.
Proof.
  unfold laterThan. cbn -[lit]. rewrite lit_0, Qcltb_true.
  symmetry. apply Qclt_minus_iff.
Qed.

Lemma Qc_eq_bool_true (a b : Qc) : Qc_eq_bool a b = true <-> a = b.
Proof.
  split; [apply Qc_eq_bool_correct|].
  intros ->. unfold Qc_eq_bool. destruct (Qc_eq_dec b b); congruence.
Qed.

(** C4. For every event collections and claims collection, the merged
    timeline of the lookup is sorted ascending by time stamp (each entry is
    at most its successor); it is a rearrangement of the appended stake and
    claim entries, so equal time stamps stay separate entries; and the
    entries of any one time stamp come out in append order, the stake
    entries first and the claim entries after them. *)
Theorem timeline_sorted_and_stable :
  forall (addr : string) (del : RawDelegator)
         (earnData : option (list RawClaim)) (evtData : RawEvents),
    let events := d_events (mkData (N:=Qc) addr del earnData evtData) in
    let appended :=
      (stakeEntries evtData ++ map claimEntry (mkClaims earnData))%list in
    Sorted (fun a b => e_ts a <= e_ts b) events
    /\ Permutation events appended
    /\ (forall t : Qc,
           filter (fun e => Qc_eq_bool (e_ts e) t) events
           = (filter (fun e => Qc_eq_bool (e_ts e) t) (stakeEntries evtData)
              ++ filter (fun e => Qc_eq_bool (e_ts e) t)
                        (map claimEntry (mkClaims earnData)))%list).
Proof.
  intros addr del earnData evtData. cbn -[timeline stakeEntries mkClaims].
  unfold timeline. split; [|split].
  - apply StronglySorted_Sorted.
    apply (sort_sorted laterThan (fun a b => e_ts a <= e_ts b)).
    + intros x y z. apply Qcle_trans.
    + intros x y Hf. apply Qcnot_lt_le. intros Hlt.
      apply laterThan_exact in Hlt. congruence.
    + intros x y Ht. apply Qclt_le_weak. now apply laterThan_exact.
  - apply sort_perm.
  - intros t. rewrite sort_stable.
    + apply filter_app.
    + intros x y Hx Hy. apply Qc_eq_bool_true in Hx, Hy.
      destruct (laterThan x y) eqn:E; [|reflexivity].
      apply laterThan_exact in E. rewrite Hx, Hy in E.
      exfalso. revert E. apply Qcle_not_lt, Qcle_refl.
Qed.


(* ================================================================== *)
(** * The cumulative series *)

(** The series is the rounded running totals, whatever the numbers are. *)
Lemma cumFrom_prefixSums {N} `{JSNumber N} (cs : list Claim) :
  forall cl ce : N,
    map cp_lpt (cumFrom cl ce cs)
    = map (fun t => toFixedNumber t 2) (prefixSums cl (map c_lpt cs))
    /\ map cp_eth (cumFrom cl ce cs)
       = map (fun t => toFixedNumber t 5) (prefixSums ce (map c_eth cs))
    /\ List.length (cumFrom cl ce cs) = List.length cs.
Proof.
  induction cs as [|c cs IH]; intros cl ce; cbn.
  - auto.
  - destruct (IH (add cl (c_lpt c)) (add ce (c_eth c))) as (-> & -> & ->).
    auto.
Qed.

Lemma pow10_pos (f : nat) : (0 < pow10 f)%Z.
Proof. unfold pow10. apply Z.pow_pos_nonneg; lia. Qed.

Lemma this_decimalQ (n : Z) (f : nat) :
  (this (decimalQ (mkDecimal n f)) == inject_Z n / inject_Z (pow10 f))%Q.
Proof. unfold decimalQ. cbn [this Q2Qc mantissa scale]. apply Qred_correct. Qed.

Lemma decimalQ_mono (n m : Z) (f : nat) :
  (n <= m)%Z -> decimalQ (mkDecimal n f) <= decimalQ (mkDecimal m f).
Proof.
  intros Hnm. unfold Qcle. rewrite !this_decimalQ.
  apply Qmult_le_compat_r.
  - now rewrite <- Zle_Qle.
  - apply Qinv_le_0_compat. change 0%Q with (inject_Z 0).
    rewrite <- Zle_Qle. pose proof (pow10_pos f). lia.
Qed.

Lemma nearest_mono (f : nat) (x y : Qc) :
  x <= y -> (nearest f x <= nearest f y)%Z.
Proof.
  intros Hxy. unfold nearest. apply Qfloor_resp_le.
  apply Qplus_le_compat; [|apply Qle_refl].
  apply Qmult_le_compat_r; [exact Hxy|].
  change 0%Q with (inject_Z 0). rewrite <- Zle_Qle.
  pose proof (pow10_pos f). lia.
Qed.

Lemma Qfloor_half (z : Z) : Qfloor (inject_Z z + (1 # 2)) = z.
Proof.
  unfold Qfloor, Qplus, inject_Z. cbn.
  Z.to_euclidean_division_equations. lia.
Qed.

Lemma nearest_bound21 (f : nat) :
  nearest f bound21 = (pow10 21 * pow10 f)%Z.
Proof.
  unfold nearest, bound21. cbn [this Q2Qc].
  etransitivity; [|apply (Qfloor_half (pow10 21 * pow10 f))].
  apply Qfloor_comp. rewrite Qred_correct, inject_Z_mult. reflexivity.
Qed.

Lemma decimalQ_bound21 (f : nat) :
  decimalQ (mkDecimal (pow10 21 * pow10 f) f) = bound21.
Proof.
  apply Qc_is_canon. rewrite this_decimalQ. unfold bound21.
  cbn [this Q2Qc]. rewrite Qred_correct, inject_Z_mult.
  field. change 0%Q with (inject_Z 0). rewrite inject_Z_injective.
  pose proof (pow10_pos f). lia.
Qed.

Lemma Qcabs_nonneg (x : Qc) : 0 <= x -> Qcltb x 0 = false /\ Qcabs x = x.
Proof.
  intros Hx. assert (E : Qcltb x 0 = false) by now apply Qcltb_false.
  unfold Qcabs. now rewrite E.
Qed.

Lemma Qcplus_nonneg (a b : Qc) : 0 <= a -> 0 <= b -> 0 <= a + b /\ a <= a + b.
Proof.
  intros Ha Hb. split.
  - rewrite <- (Qcplus_0_l 0). now apply Qcplus_le_compat.
  - rewrite <- (Qcplus_0_r a) at 1. apply Qcplus_le_compat; [apply Qcle_refl|exact Hb].
Qed.

(** ** The order of the series, in the numbers of the source *)

Lemma valueLe_trans (u v w : Value) :
  valueLe u v -> valueLe v w -> valueLe u w.
Proof.
  destruct u, v, w; cbn; auto; try contradiction.
  apply Qcle_trans.
Qed.

Lemma valueLe_refl (u : Value) : u <> NotANumber -> valueLe u u.
Proof. destruct u; cbn; auto. intros _. apply Qcle_refl. Qed.

Section Order.
Context {N : Type} `{JSNumber N} (laws : Monotone N).

(** Rounding to a fixed number of decimals is monotone on the amounts that
    are not negative. *)
Lemma toFixedNumber_nondecreasing (f : nat) (x y : N) :
  atMost (lit 0) x -> atMost x y ->
  atMost (toFixedNumber x f) (toFixedNumber y f).
Proof.
  unfold atMost. rewrite zero_is_zero. intros Hx Hxy.
  unfold toFixedNumber.
  destruct (exact x) as [qx| | |] eqn:Ex; cbn in Hx; try contradiction.
  - destruct (Qcabs_nonneg qx Hx) as [-> ->]. fold bound21.
    assert (Hbelow : Qcltb qx bound21 = true ->
                     forall b : N, valueLe (Finite bound21) (exact b) ->
                     valueLe (exact (Number_ (mkDecimal (nearest f qx) f)))
                             (exact b)).
    { intros Elt b Hb. apply Number_below.
      - cbn [mantissa]. unfold nearest. apply Qcltb_true in Elt.
        change 0%Z with (Qfloor 0). apply Qfloor_resp_le.
        assert (H0 : (0 <= this qx * inject_Z (pow10 f))%Q).
        { apply Qmult_le_0_compat; [exact Hx|].
          change 0%Q with (inject_Z 0). rewrite <- Zle_Qle.
          pose proof (pow10_pos f). lia. }
        lra.
      - eapply valueLe_trans; [|exact Hb]. cbn.
        rewrite <- (decimalQ_bound21 f), <- nearest_bound21.
        apply decimalQ_mono, nearest_mono, Qclt_le_weak.
        now apply Qcltb_true. }
    destruct (exact y) as [qy| | |] eqn:Ey; cbn in Hxy; try contradiction.
    + assert (Hy : 0 <= qy) by (eapply Qcle_trans; eassumption).
      destruct (Qcabs_nonneg qy Hy) as [-> ->].
      destruct (Qcltb qx bound21) eqn:Elx, (Qcltb qy bound21) eqn:Ely.
      * apply Number_monotone. split; [|apply nearest_mono, Hxy].
        unfold nearest. change 0%Z with (Qfloor 0). apply Qfloor_resp_le.
        assert (H0 : (0 <= this qx * inject_Z (pow10 f))%Q).
        { apply Qmult_le_0_compat; [exact Hx|].
          change 0%Q with (inject_Z 0). rewrite <- Zle_Qle.
          pose proof (pow10_pos f). lia. }
        lra.
      * apply (Hbelow eq_refl). rewrite Ey. cbn. now apply Qcltb_false.
      * apply Qcltb_false in Elx. apply Qcltb_true in Ely. exfalso.
        apply (Qcle_not_lt _ _ Hxy). eapply Qclt_le_trans; eassumption.
      * rewrite Ex, Ey. exact Hxy.
    + destruct (Qcltb qx bound21) eqn:Elx.
      * apply (Hbelow eq_refl). rewrite Ey. exact I.
      * rewrite Ex, Ey. exact I.
  - destruct (exact y) eqn:Ey; cbn in Hxy; try contradiction.
    rewrite Ex, Ey. exact I.
Qed.

Lemma cumFrom_nondecreasing (cs : list (Claim (N:=N))) :
  forall cl ce : N,
    atMost (lit 0) cl -> atMost (lit 0) ce ->
    Forall amountsNotNegative cs ->
    Sorted pointNotBelow (cumFrom cl ce cs)
    /\ (forall ts a b,
           HdRel pointNotBelow
             {| cp_ts := ts; cp_lpt := toFixedNumber cl 2;
                cp_eth := toFixedNumber ce 5;
                cp_claimLPT := a; cp_claimETH := b |}
             (cumFrom cl ce cs)).
Proof.
  induction cs as [|c cs IH]; intros cl ce Hcl Hce Hcs; cbn [cumFrom].
  - split; constructor.
  - inversion Hcs as [|? ? [Hl He] Hrest]; subst.
    pose proof (add_nondecreasing cl (c_lpt c) Hcl Hl) as Hl1.
    pose proof (add_nondecreasing ce (c_eth c) Hce He) as He1.
    assert (Hl0 : atMost (lit 0) (add cl (c_lpt c)))
      by exact (valueLe_trans _ _ _ Hcl Hl1).
    assert (He0 : atMost (lit 0) (add ce (c_eth c)))
      by exact (valueLe_trans _ _ _ Hce He1).
    destruct (IH _ _ Hl0 He0 Hrest) as [IHs IHh].
    split.
    + constructor; [exact IHs | apply IHh].
    + intros ts a b. constructor. split; cbn [cp_lpt cp_eth];
        now apply toFixedNumber_nondecreasing.
Qed.
End Order.

(** Exact arithmetic keeps the order. *)
Lemma ExactMonotone : Monotone Qc.
Proof.
  split.
  - cbn [exact ExactNumber]. now rewrite lit_0.
  - intros a x. unfold atMost. cbn [exact ExactNumber valueLe add].
    rewrite lit_0. intros Ha Hx. now apply Qcplus_nonneg.
  - intros f n m [_ Hnm]. unfold atMost. cbn [exact ExactNumber valueLe Number_].
    now apply decimalQ_mono.
  - intros d b _ Hb. exact Hb.
Qed.

(** ** Doubles keep the order *)

Module DoubleOrder.
Import SpecFloat FloatOps FloatAxioms Rounding.
Local Open Scope Z_scope.

(** *** Powers of two *)
Lemma pow2_pos (e : Z) : (0 < pow2 e)%Q.
Proof. apply Qpower_0_lt. reflexivity. Qed.

Lemma pow2_add (a b : Z) : (pow2 (a + b) == pow2 a * pow2 b)%Q.
Proof. apply Qpower_plus. discriminate. Qed.

Lemma pow2_le (a b : Z) : a <= b -> (pow2 a <= pow2 b)%Q.
Proof. intros H. apply Qpower_le_compat_l; [exact H | discriminate]. Qed.

Lemma pow2_lt (a b : Z) : a < b -> (pow2 a < pow2 b)%Q.
Proof. intros H. apply Qpower_lt_compat_l; [exact H | reflexivity]. Qed.

Lemma pow2_lt_inv (a b : Z) : (pow2 a < pow2 b)%Q -> a < b.
Proof. intros H. apply (Qpower_lt_compat_l_inv 2); [exact H | reflexivity]. Qed.

Lemma pow2_Z (k : Z) : 0 <= k -> (inject_Z (2 ^ k) == pow2 k)%Q.
Proof. intros H. now apply Zpower_Qpower. Qed.

Lemma pow2_succ (a : Z) : (pow2 (a + 1) == 2 * pow2 a)%Q.
Proof. rewrite pow2_add. change (pow2 1) with 2%Q. ring. Qed.

Lemma pow2_pred (a : Z) : (pow2 (a - 1) == pow2 a / 2)%Q.
Proof.
  replace a with ((a - 1) + 1) at 2 by lia. rewrite pow2_succ. field.
Qed.

Lemma pow2_cancel (a : Z) : (pow2 a * pow2 (- a) == 1)%Q.
Proof. rewrite <- pow2_add. replace (a + - a) with 0 by lia. reflexivity. Qed.

(** *** Digits *)
Lemma digits2_pos_bounds (p : positive) :
  2 ^ (Z.pos (SpecFloat.digits2_pos p) - 1) <= Z.pos p
  < 2 ^ Z.pos (SpecFloat.digits2_pos p).
Proof.
  induction p as [p IH|p IH|]; cbn [SpecFloat.digits2_pos].
  - rewrite Pos2Z.inj_succ.
    replace (Z.succ (Z.pos (SpecFloat.digits2_pos p)) - 1)
      with (Z.succ (Z.pos (SpecFloat.digits2_pos p) - 1)) by lia.
    rewrite !Z.pow_succ_r by lia.
    set (a := 2 ^ (Z.pos (SpecFloat.digits2_pos p) - 1)) in *.
    set (b := 2 ^ Z.pos (SpecFloat.digits2_pos p)) in *.
    clearbody a b. rewrite ?(Pos2Z.inj_xI p), ?(Pos2Z.inj_xO p). lia.
  - rewrite Pos2Z.inj_succ.
    replace (Z.succ (Z.pos (SpecFloat.digits2_pos p)) - 1)
      with (Z.succ (Z.pos (SpecFloat.digits2_pos p) - 1)) by lia.
    rewrite !Z.pow_succ_r by lia.
    set (a := 2 ^ (Z.pos (SpecFloat.digits2_pos p) - 1)) in *.
    set (b := 2 ^ Z.pos (SpecFloat.digits2_pos p)) in *.
    clearbody a b. rewrite ?(Pos2Z.inj_xI p), ?(Pos2Z.inj_xO p). lia.
  - cbn. lia.
Qed.

Lemma Zdigits2_bounds (m : Z) :
  0 <= m ->
  0 <= SpecFloat.Zdigits2 m
  /\ m < 2 ^ SpecFloat.Zdigits2 m
  /\ (0 < m -> 2 ^ (SpecFloat.Zdigits2 m - 1) <= m).
Proof.
  intros Hm. destruct m as [|p|p]; cbn [SpecFloat.Zdigits2]; try lia.
  pose proof (digits2_pos_bounds p). lia.
Qed.

(** *** Places *)
Lemma locates_comp (u u' : Q) mrs : (u == u')%Q -> locates u mrs -> locates u' mrs.
Proof.
  unfold locates. intros E (H1 & H2 & H3). rewrite <- E. auto.
Qed.

Lemma shr_1_code (mrs : SpecFloat.shr_record) :
  0 <= SpecFloat.shr_m mrs ->
  code (SpecFloat.shr_1 mrs) = SpecFloat.shr_m mrs
  /\ 0 <= SpecFloat.shr_m (SpecFloat.shr_1 mrs)
  /\ SpecFloat.shr_s (SpecFloat.shr_1 mrs)
     = SpecFloat.shr_r mrs || SpecFloat.shr_s mrs.
Proof.
  destruct mrs as [m r s]. unfold code. cbn [SpecFloat.shr_m SpecFloat.shr_r SpecFloat.shr_s].
  intros Hm.
  destruct m as [|[p|p|]|p]; try lia;
    cbn [SpecFloat.shr_1 SpecFloat.shr_m SpecFloat.shr_r SpecFloat.shr_s];
    rewrite ?(Pos2Z.inj_xI p), ?(Pos2Z.inj_xO p); repeat split; lia.
Qed.

Lemma shr_1_locates (u : Q) (mrs : SpecFloat.shr_record) :
  locates u mrs -> 0 <= SpecFloat.shr_m mrs ->
  locates (u / 2) (SpecFloat.shr_1 mrs)
  /\ 0 <= SpecFloat.shr_m (SpecFloat.shr_1 mrs).
Proof.
  intros (H1 & H2 & H3) Hm.
  destruct (shr_1_code mrs Hm) as (Ec & Hm' & Es).
  split; [|exact Hm']. unfold locates. rewrite Ec, Es.
  assert (E : (2 * (u / 2) == u)%Q) by field. rewrite E.
  unfold code in *. destruct mrs as [m r s].
  cbn [SpecFloat.shr_m SpecFloat.shr_r SpecFloat.shr_s] in *.
  rewrite inject_Z_plus, inject_Z_mult in *.
  change (inject_Z 2) with 2%Q in *.
  set (x := inject_Z m) in *. clearbody x.
  destruct r, s; cbn [orb];
    [change (inject_Z 1) with 1%Q in * ..
    |change (inject_Z 0) with 0%Q in *
    |change (inject_Z 0) with 0%Q in * ].
  1-3: (split; [lra|]); (split; [lra|]);
       (split; [discriminate|]); intros Hu; exfalso.
  - destruct H3 as [_ H3]. lra.
  - destruct H3 as [H3 _]. specialize (H3 eq_refl). lra.
  - lra.
  - split; [lra|]. split; [lra|]. split; [intros _|reflexivity].
    destruct H3 as [H3 _]. specialize (H3 eq_refl). lra.
Qed.

Lemma iter_pos_invariant {A} (f : A -> A) (I : Z -> A -> Prop) :
  (forall k x, 0 <= k -> I k x -> I (k + 1) (f x)) ->
  forall p k x, 0 <= k -> I k x -> I (k + Z.pos p) (SpecFloat.iter_pos f p x).
Proof.
  intros Hstep. induction p as [p IH|p IH|]; intros k x Hk Hx;
    cbn [SpecFloat.iter_pos].
  - replace (k + Z.pos p~1) with (((k + 1) + Z.pos p) + Z.pos p)
      by (rewrite (Pos2Z.inj_xI p); lia).
    apply IH; [lia|]. apply IH; [lia|]. now apply Hstep.
  - replace (k + Z.pos p~0) with ((k + Z.pos p) + Z.pos p)
      by (rewrite (Pos2Z.inj_xO p); lia).
    apply IH; [lia|]. now apply IH.
  - now apply Hstep.
Qed.

Lemma shr_locates (u : Q) (mrs : SpecFloat.shr_record) (e n : Z) :
  locates u mrs -> 0 <= SpecFloat.shr_m mrs -> 0 <= n ->
  locates (u * pow2 (- n)) (fst (SpecFloat.shr mrs e n))
  /\ 0 <= SpecFloat.shr_m (fst (SpecFloat.shr mrs e n))
  /\ snd (SpecFloat.shr mrs e n) = e + n.
Proof.
  intros Hu Hm Hn. destruct n as [|p|p]; try lia; cbn [SpecFloat.shr fst snd].
  - split; [|split; [exact Hm | lia]].
    apply (locates_comp u); [|exact Hu]. change (pow2 (- 0)) with 1%Q. ring.
  - pose proof (iter_pos_invariant SpecFloat.shr_1
                  (fun k x => locates (u * pow2 (- k)) x
                              /\ 0 <= SpecFloat.shr_m x)) as Hinv.
    cbv beta in Hinv.
    assert (Hstep : forall k x, 0 <= k ->
              locates (u * pow2 (- k)) x /\ 0 <= SpecFloat.shr_m x ->
              locates (u * pow2 (- (k + 1))) (SpecFloat.shr_1 x)
              /\ 0 <= SpecFloat.shr_m (SpecFloat.shr_1 x)).
    { intros k x Hk [Hx Hxm].
      destruct (shr_1_locates _ _ Hx Hxm) as [Hx' Hxm'].
      split; [|exact Hxm'].
      apply (locates_comp (u * pow2 (- k) / 2)); [|exact Hx'].
      replace (- (k + 1)) with (- k - 1) by lia. rewrite pow2_pred. field. }
    specialize (Hinv Hstep p 0 mrs (Z.le_refl 0)).
    destruct Hinv as [H1 H2].
    { split; [|exact Hm]. apply (locates_comp u); [|exact Hu].
      change (pow2 (- 0)) with 1%Q. ring. }
    split; [exact H1|]. split; [exact H2|reflexivity].
Qed.

(** *** Rounding to an integer *)
Lemma rne_exact (k : Z) : 0 <= k -> rne (inject_Z k) k.
Proof.
  intros Hk. exists (SpecFloat.Build_shr_record k false false).
  unfold locates, code.
  cbn [SpecFloat.shr_m SpecFloat.shr_r SpecFloat.shr_s
       SpecFloat.loc_of_shr_record SpecFloat.round_nearest_even].
  rewrite Z.add_0_r, inject_Z_mult.
  change (inject_Z 2) with 2%Q.
  repeat split; auto; try lra; try reflexivity.
Qed.

Lemma rne_bounds (u : Q) (a : Z) :
  rne u a ->
  0 <= a /\ (inject_Z a <= u + 1)%Q /\ (u < inject_Z a + 1)%Q.
Proof.
  intros ([m r s] & (H1 & H2 & _) & Hm & ->). unfold code in *.
  cbn [SpecFloat.shr_m SpecFloat.shr_r SpecFloat.shr_s] in *.
  rewrite inject_Z_plus, inject_Z_mult in *.
  change (inject_Z 2) with 2%Q in *.
  destruct r, s; cbn [SpecFloat.loc_of_shr_record SpecFloat.round_nearest_even];
    try destruct (Z.even m);
    rewrite ?inject_Z_plus;
    change (inject_Z 1) with 1%Q in *; change (inject_Z 0) with 0%Q in *;
    (split; [lia|]); split; lra.
Qed.

Lemma rne_mono (u u' : Q) (a b : Z) :
  (u <= u')%Q -> rne u a -> rne u' b -> a <= b.
Proof.
  intros Hu ([m r s] & (H1 & H2 & H3) & Hm & ->)
            ([m' r' s'] & (H1' & H2' & H3') & Hm' & ->).
  unfold code in *.
  cbn [SpecFloat.shr_m SpecFloat.shr_r SpecFloat.shr_s] in *.
  assert (Hc : 2 * m + (if r then 1 else 0) < 2 * m' + (if r' then 1 else 0) + 1).
  { rewrite Zlt_Qlt. rewrite (inject_Z_plus _ 1). change (inject_Z 1) with 1%Q.
    lra. }
  destruct r, r'; try (
    destruct s, s';
    cbn [SpecFloat.loc_of_shr_record SpecFloat.round_nearest_even];
    try destruct (Z.even m); try destruct (Z.even m'); lia).
  (* both at least a half above *)
  assert (Hmm : m <= m') by lia.
  destruct (Z.eq_dec m m') as [<-|Hne].
  2:{ destruct s, s';
      cbn [SpecFloat.loc_of_shr_record SpecFloat.round_nearest_even];
      try destruct (Z.even m); try destruct (Z.even m'); lia. }
  destruct s, s';
    cbn [SpecFloat.loc_of_shr_record SpecFloat.round_nearest_even];
    try destruct (Z.even m); try lia.
  (* the first one is off the tie, the second one on it *)
  exfalso. destruct H3' as [H3' _]. specialize (H3' eq_refl).
  destruct H3 as [_ H3].
  assert (E : (2 * u == inject_Z (2 * m + 1))%Q) by lra.
  specialize (H3 E). discriminate.
Qed.

(** *** Lemmas *)
Lemma Double_value (f : PrimFloat.float) : Double.value f = valueSF (Prim2SF f).
Proof. reflexivity. Qed.

Lemma fexp_eq (g : Z) : SpecFloat.fexp prec emax g = Z.max (g - 53) (-1074).
Proof. reflexivity. Qed.

Lemma rne_comp (u u' : Q) (a : Z) : (u == u')%Q -> rne u a -> rne u' a.
Proof.
  intros E (mrs & H1 & H2 & H3). exists mrs. split; [|auto].
  now apply (locates_comp u).
Qed.

Lemma bra_norm (m e : Z) (l : SpecFloat.location) :
  SpecFloat.binary_round_aux prec emax false m e l
  = norm (SpecFloat.round_nearest_even
            (SpecFloat.shr_m (fst (SpecFloat.shr_fexp prec emax m e l)))
            (SpecFloat.loc_of_shr_record
               (fst (SpecFloat.shr_fexp prec emax m e l))))
         (snd (SpecFloat.shr_fexp prec emax m e l)).
Proof.
  unfold SpecFloat.binary_round_aux, norm.
  destruct (SpecFloat.shr_fexp prec emax m e l) as [mrs' e'].
  reflexivity.
Qed.

Lemma shr_no_shift (mrs : SpecFloat.shr_record) (e n : Z) :
  n <= 0 -> SpecFloat.shr mrs e n = (mrs, e).
Proof. intros Hn. destruct n; try reflexivity. lia. Qed.

Lemma norm_zero (c : Z) : -1074 <= c -> norm 0 c = S754_zero false.
Proof.
  intros Hc. unfold norm, SpecFloat.shr_fexp.
  cbn [SpecFloat.Zdigits2 SpecFloat.shr_record_of_loc].
  rewrite shr_no_shift by (rewrite fexp_eq; lia). reflexivity.
Qed.

Lemma norm_small (m c : Z) :
  0 < m < 2 ^ 53 -> -1074 <= c ->
  norm m c = if c <=? 971 then S754_finite false (Z.to_pos m) c
             else S754_infinity false.
Proof.
  intros Hm Hc. unfold norm, SpecFloat.shr_fexp.
  destruct (Zdigits2_bounds m) as (Hd0 & Hd1 & Hd2); [lia|].
  specialize (Hd2 (proj1 Hm)).
  assert (Hd : SpecFloat.Zdigits2 m <= 53).
  { destruct (Z_le_gt_dec (SpecFloat.Zdigits2 m) 53) as [|Hgt]; [assumption|].
    exfalso.
    assert (2 ^ 53 <= 2 ^ (SpecFloat.Zdigits2 m - 1))
      by (apply Z.pow_le_mono_r; lia).
    lia. }
  rewrite shr_no_shift by (rewrite fexp_eq; lia).
  cbn [SpecFloat.shr_record_of_loc SpecFloat.shr_m].
  destruct m as [|p|p]; try lia. reflexivity.
Qed.

Lemma norm_top (c : Z) :
  -1074 <= c ->
  norm (2 ^ 53) c = if c + 1 <=? 971
                    then S754_finite false (Z.to_pos (2 ^ 52)) (c + 1)
                    else S754_infinity false.
Proof.
  intros Hc. unfold norm, SpecFloat.shr_fexp.
  change (SpecFloat.Zdigits2 (2 ^ 53)) with 54.
  replace (SpecFloat.fexp prec emax (54 + c) - c) with 1
    by (rewrite fexp_eq; lia).
  reflexivity.
Qed.

Lemma Q2Qc_comp (p q : Q) : (p == q)%Q -> Q2Qc p = Q2Qc q.
Proof. intros E. apply Qc_is_canon. cbn [this Q2Qc]. now rewrite !Qred_correct. Qed.

Lemma Q2Qc_le (p q : Q) : (p <= q)%Q -> (Q2Qc p <= Q2Qc q)%Qc.
Proof. intros E. unfold Qcle. cbn [this Q2Qc]. now rewrite !Qred_correct. Qed.

Lemma norm_cases (m c : Z) :
  0 <= m <= 2 ^ 53 -> -1074 <= c ->
  (m = 0 /\ norm m c = S754_zero false)
  \/ (0 < m /\ c + (if m =? 2 ^ 53 then 1 else 0) <= 971
      /\ valueSF (norm m c) = Finite (Q2Qc (inject_Z m * pow2 c)))
  \/ (0 < m /\ 971 < c + (if m =? 2 ^ 53 then 1 else 0)
      /\ norm m c = S754_infinity false).
Proof.
  intros Hm Hc. destruct (Z.eq_dec m 0) as [->|H0].
  { left. split; [reflexivity | now apply norm_zero]. }
  right. destruct (Z.eqb_spec m (2 ^ 53)) as [->|Htop].
  - rewrite norm_top by exact Hc.
    destruct (Z.leb_spec (c + 1) 971) as [Hle|Hgt]; [left | right];
      (split; [reflexivity|]); (split; [lia|]); [|reflexivity].
    cbn [valueSF]. f_equal. apply Q2Qc_comp.
    change (Qpower 2 (c + 1)) with (pow2 (c + 1)). rewrite pow2_succ.
    change (inject_Z (Z.pos (Z.to_pos (2 ^ 52)))) with (4503599627370496 # 1)%Q.
    change (inject_Z (2 ^ 53)) with (9007199254740992 # 1)%Q.
    ring.
  - rewrite norm_small by lia. rewrite Z.add_0_r.
    destruct (Z.leb_spec c 971) as [Hle|Hgt]; [left | right];
      (split; [lia|]); (split; [lia|]); [|reflexivity].
    cbn [valueSF]. rewrite Z2Pos.id by lia. reflexivity.
Qed.

Lemma rounds_bounds (v : Q) (c m : Z) :
  rounds v c m ->
  0 <= m <= 2 ^ 53 /\ -1074 <= c /\ (-1074 < c -> 2 ^ 52 <= m)
  /\ (0 < m -> (0 < inject_Z m * pow2 c)%Q).
Proof.
  intros (g & Hc & Hv0 & Hv1 & Hv2 & Hr). rewrite fexp_eq in Hc.
  destruct (rne_bounds _ _ Hr) as (Hm0 & Hup & Hlow).
  assert (Hu : (v * pow2 (- c) < pow2 (g - c))%Q).
  { replace (g - c) with (g + - c) by lia. rewrite pow2_add.
    apply Qmult_lt_compat_r; [apply pow2_pos | exact Hv1]. }
  split; [split; [exact Hm0|] | split; [lia | split]].
  - assert (Hp : (pow2 (g - c) <= pow2 53)%Q) by (apply pow2_le; lia).
    assert (Hlt : (inject_Z m < inject_Z (2 ^ 53 + 1))%Q).
    { rewrite inject_Z_plus, pow2_Z by lia. change (inject_Z 1) with 1%Q. lra. }
    rewrite <- Zlt_Qlt in Hlt. lia.
  - intros Hbig. destruct Hv2 as [Hv2|Hv2]; [|lia].
    assert (Hu2 : (pow2 52 <= v * pow2 (- c))%Q).
    { replace 52 with ((g - 1) + - c) by lia. rewrite pow2_add.
      apply Qmult_le_compat_r; [exact Hv2 | apply Qlt_le_weak, pow2_pos]. }
    assert (Hlt : (inject_Z (2 ^ 52) < inject_Z (m + 1))%Q).
    { rewrite inject_Z_plus, pow2_Z by lia. change (inject_Z 1) with 1%Q. lra. }
    rewrite <- Zlt_Qlt in Hlt. lia.
  - intros Hpos. apply Qmult_lt_0_compat; [|apply pow2_pos].
    change 0%Q with (inject_Z 0). now rewrite <- Zlt_Qlt.
Qed.

(** Rounding keeps the order. *)
Lemma rounds_mono (v v' : Q) (c m c' m' : Z) :
  rounds v c m -> rounds v' c' m' -> (v <= v')%Q ->
  valueLe (valueSF (norm m c)) (valueSF (norm m' c')).
Proof.
  intros Hr Hr' Hv.
  destruct (rounds_bounds _ _ _ Hr) as (Hm & Hc & _ & Hpos).
  destruct (rounds_bounds _ _ _ Hr') as (Hm' & Hc' & Hbig' & Hpos').
  destruct Hr as (g & Eg & Hv0 & Hv1 & Hv2 & Hrne).
  destruct Hr' as (g' & Eg' & Hv0' & Hv1' & Hv2' & Hrne').
  rewrite fexp_eq in Eg, Eg'.
  assert (Hcc : c <= c').
  { destruct Hv2 as [Hv2|Hv2]; [|lia].
    assert (Hlt : (pow2 (g - 1) < pow2 g')%Q) by lra.
    apply pow2_lt_inv in Hlt. lia. }
  (* the mantissas and the final exponents are in order *)
  assert (Hord : (inject_Z m * pow2 c <= inject_Z m' * pow2 c')%Q
                 /\ c + (if m =? 2 ^ 53 then 1 else 0)
                    <= c' + (if m' =? 2 ^ 53 then 1 else 0)
                 /\ (0 < m -> 0 < m')).
  { destruct (Z.eq_dec c c') as [<-|Hne].
    - assert (Hmm : m <= m').
      { apply (rne_mono (v * pow2 (- c)) (v' * pow2 (- c))); try assumption.
        apply Qmult_le_compat_r; [exact Hv | apply Qlt_le_weak, pow2_pos]. }
      split; [|split; [|lia]].
      + apply Qmult_le_compat_r; [|apply Qlt_le_weak, pow2_pos].
        now rewrite <- Zle_Qle.
      + destruct (Z.eqb_spec m (2 ^ 53)), (Z.eqb_spec m' (2 ^ 53)); lia.
    - assert (Hbig : 2 ^ 52 <= m') by (apply Hbig'; lia).
      split; [|split; [|lia]].
      + apply Qle_trans with (inject_Z (2 ^ 53) * pow2 c)%Q.
        { apply Qmult_le_compat_r; [|apply Qlt_le_weak, pow2_pos].
          rewrite <- Zle_Qle. lia. }
        apply Qle_trans with (inject_Z (2 ^ 52) * pow2 c')%Q.
        { rewrite !pow2_Z, <- !pow2_add by lia. apply pow2_le. lia. }
        apply Qmult_le_compat_r; [|apply Qlt_le_weak, pow2_pos].
        now rewrite <- Zle_Qle.
      + destruct (Z.eqb_spec m (2 ^ 53)), (Z.eqb_spec m' (2 ^ 53)); lia. }
  destruct Hord as (Hval & Hexp & Hpp).
  destruct (norm_cases m c Hm Hc) as [[-> E]|[(H0 & Hf & E)|(H0 & Hf & E)]];
    destruct (norm_cases m' c' Hm' Hc')
      as [[-> E']|[(H0' & Hf' & E')|(H0' & Hf' & E')]];
    rewrite ?E, ?E'; cbn [valueSF valueLe]; try exact I; try lia.
  - apply Qcle_refl.
  - change 0%Qc with (Q2Qc 0). apply Q2Qc_le. apply Qlt_le_weak. now apply Hpos'.
  - now apply Q2Qc_le.
Qed.

Lemma record_of_loc_code (m : Z) (l : SpecFloat.location) :
  SpecFloat.shr_m (SpecFloat.shr_record_of_loc m l) = m
  /\ 2 * m <= code (SpecFloat.shr_record_of_loc m l) <= 2 * m + 1.
Proof. unfold code. destruct l as [|[]]; cbn; lia. Qed.

Lemma locates_exact (k : Z) :
  locates (inject_Z k) (SpecFloat.shr_record_of_loc k SpecFloat.loc_Exact).
Proof.
  unfold locates, code.
  cbn [SpecFloat.shr_record_of_loc SpecFloat.shr_m SpecFloat.shr_r SpecFloat.shr_s].
  rewrite Z.add_0_r, inject_Z_mult. change (inject_Z 2) with 2%Q.
  repeat split; auto; try lra; try reflexivity.
Qed.

Lemma pow2_scale (v : Q) (e : Z) : (v == v * pow2 (- e) * pow2 e)%Q.
Proof.
  rewrite <- Qmult_assoc, (Qmult_comm (pow2 (- e))), pow2_cancel. ring.
Qed.

(** What [binary_round_aux] returns on a positive number that it is given
    precisely enough. *)
Lemma bra_rounds (v : Q) (m e : Z) (l : SpecFloat.location) :
  (0 < v)%Q -> 0 <= m ->
  locates (v * pow2 (- e)) (SpecFloat.shr_record_of_loc m l) ->
  e <= SpecFloat.fexp prec emax (SpecFloat.Zdigits2 m + e) ->
  exists m2,
    SpecFloat.binary_round_aux prec emax false m e l
    = norm m2 (SpecFloat.fexp prec emax (SpecFloat.Zdigits2 m + e))
    /\ rounds v (SpecFloat.fexp prec emax (SpecFloat.Zdigits2 m + e)) m2.
Proof.
  intros Hv Hm Hloc He. rewrite bra_norm. unfold SpecFloat.shr_fexp.
  set (c := SpecFloat.fexp prec emax (SpecFloat.Zdigits2 m + e)) in *.
  destruct (record_of_loc_code m l) as [Em Hcode].
  destruct (shr_locates _ (SpecFloat.shr_record_of_loc m l) e (c - e) Hloc)
    as (H1 & H2 & H3); [rewrite Em; exact Hm | lia |].
  set (mrs := fst (SpecFloat.shr (SpecFloat.shr_record_of_loc m l) e (c - e))) in *.
  exists (SpecFloat.round_nearest_even (SpecFloat.shr_m mrs)
            (SpecFloat.loc_of_shr_record mrs)).
  split; [f_equal; rewrite H3; lia|].
  exists (SpecFloat.Zdigits2 m + e).
  destruct (Zdigits2_bounds m Hm) as (Hd0 & Hd1 & Hd2).
  destruct Hloc as (L1 & L2 & _).
  set (u := (v * pow2 (- e))%Q) in *.
  assert (Hu1 : (u < inject_Z (2 ^ SpecFloat.Zdigits2 m))%Q).
  { apply Qlt_le_trans with (inject_Z (m + 1)).
    - assert (Hc : (inject_Z (code (SpecFloat.shr_record_of_loc m l))
                    <= inject_Z (2 * m + 1))%Q) by (rewrite <- Zle_Qle; lia).
      rewrite inject_Z_plus, inject_Z_mult in Hc. rewrite inject_Z_plus.
      change (inject_Z 2) with 2%Q in *. change (inject_Z 1) with 1%Q in *. lra.
    - rewrite <- Zle_Qle. lia. }
  assert (Hu0 : 0 < m -> (inject_Z (2 ^ (SpecFloat.Zdigits2 m - 1)) <= u)%Q).
  { intros Hpos. apply Qle_trans with (inject_Z m).
    - rewrite <- Zle_Qle. now apply Hd2.
    - assert (Hc : (inject_Z (2 * m)
                    <= inject_Z (code (SpecFloat.shr_record_of_loc m l)))%Q)
        by (rewrite <- Zle_Qle; lia).
      rewrite inject_Z_mult in Hc. change (inject_Z 2) with 2%Q in *. lra. }
  split; [reflexivity|]. split; [exact Hv|].
  split; [|split].
  - rewrite (pow2_scale v e). fold u. rewrite pow2_add.
    apply Qmult_lt_compat_r; [apply pow2_pos|].
    now rewrite <- pow2_Z by lia.
  - destruct (Z.eq_dec m 0) as [->|Hne].
    + right. cbn [SpecFloat.Zdigits2] in *. subst c. rewrite fexp_eq in He. lia.
    + left. rewrite (pow2_scale v e). fold u.
      replace (SpecFloat.Zdigits2 m + e - 1)
        with ((SpecFloat.Zdigits2 m - 1) + e) by lia.
      rewrite pow2_add.
      apply Qmult_le_compat_r; [|apply Qlt_le_weak, pow2_pos].
      assert (Hdpos : 0 < SpecFloat.Zdigits2 m).
      { destruct m; cbn; lia. }
      rewrite <- pow2_Z by lia. apply Hu0. lia.
  - exists mrs. split; [|split; [exact H2 | reflexivity]].
    apply (locates_comp (u * pow2 (- (c - e)))); [|exact H1].
    unfold u. rewrite <- Qmult_assoc, <- pow2_add.
    replace (- e + - (c - e)) with (- c) by lia. reflexivity.
Qed.

Lemma bounded_facts (m : positive) (e : Z) :
  SpecFloat.bounded prec emax m e = true ->
  SpecFloat.fexp prec emax (Z.pos (SpecFloat.digits2_pos m) + e) = e
  /\ -1074 <= e <= 971 /\ Z.pos m < 2 ^ 53.
Proof.
  unfold SpecFloat.bounded, SpecFloat.canonical_mantissa.
  intros H. apply andb_true_iff in H. destruct H as [H1 H2].
  apply Z.eqb_eq in H1. apply Z.leb_le in H2.
  change (emax - prec) with 971 in H2.
  split; [exact H1|]. rewrite fexp_eq in H1. split; [lia|].
  pose proof (digits2_pos_bounds m) as [_ Hd].
  assert (2 ^ Z.pos (SpecFloat.digits2_pos m) <= 2 ^ 53)
    by (apply Z.pow_le_mono_r; lia).
  lia.
Qed.

(** A double that is positive is its own rounding. *)
Lemma valid_rounds (m : positive) (e : Z) :
  SpecFloat.bounded prec emax m e = true ->
  S754_finite false m e = norm (Z.pos m) e
  /\ rounds (inject_Z (Z.pos m) * pow2 e) e (Z.pos m).
Proof.
  intros Hb. destruct (bounded_facts m e Hb) as (Hc & He & Hm).
  split.
  - rewrite norm_small by lia.
    destruct (Z.leb_spec e 971); [reflexivity | lia].
  - exists (Z.pos (SpecFloat.digits2_pos m) + e).
    pose proof (digits2_pos_bounds m) as [Hd0 Hd1].
    split; [now rewrite Hc|]. split; [|split; [|split]].
    + apply Qmult_lt_0_compat; [reflexivity | apply pow2_pos].
    + rewrite pow2_add. apply Qmult_lt_compat_r; [apply pow2_pos|].
      rewrite <- pow2_Z by lia. now rewrite <- Zlt_Qlt.
    + left.
      replace (Z.pos (SpecFloat.digits2_pos m) + e - 1)
        with ((Z.pos (SpecFloat.digits2_pos m) - 1) + e) by lia.
      rewrite pow2_add. apply Qmult_le_compat_r; [|apply Qlt_le_weak, pow2_pos].
      rewrite <- pow2_Z by lia. now rewrite <- Zle_Qle.
    + apply (rne_comp (inject_Z (Z.pos m))); [|apply rne_exact; lia].
      rewrite <- Qmult_assoc, pow2_cancel. ring.
Qed.

(** What the rounding returns is a double. *)
Lemma norm_valid (v : Q) (c m : Z) :
  rounds v c m -> SpecFloat.valid_binary prec emax (norm m c) = true.
Proof.
  intros Hr. destruct (rounds_bounds _ _ _ Hr) as (Hm & Hc & Hbig & _).
  destruct (Z.eq_dec m 0) as [->|H0]; [now rewrite norm_zero|].
  destruct (Z.eq_dec m (2 ^ 53)) as [->|Htop].
  - rewrite norm_top by exact Hc.
    destruct (Z.leb_spec (c + 1) 971) as [Hle|Hgt]; [|reflexivity].
    cbn [SpecFloat.valid_binary]. unfold SpecFloat.bounded, SpecFloat.canonical_mantissa.
    apply andb_true_iff. split; [apply Z.eqb_eq | apply Z.leb_le].
    + change (Z.pos (SpecFloat.digits2_pos (Z.to_pos (2 ^ 52)))) with 53.
      rewrite fexp_eq. lia.
    + change (emax - prec) with 971. exact Hle.
  - rewrite norm_small by lia.
    destruct (Z.leb_spec c 971) as [Hle|Hgt]; [|reflexivity].
    cbn [SpecFloat.valid_binary]. unfold SpecFloat.bounded, SpecFloat.canonical_mantissa.
    apply andb_true_iff. split; [apply Z.eqb_eq | apply Z.leb_le].
    + pose proof (digits2_pos_bounds (Z.to_pos m)) as [Hd0 Hd1].
      rewrite Z2Pos.id in Hd0, Hd1 by lia.
      set (d := Z.pos (SpecFloat.digits2_pos (Z.to_pos m))) in *.
      assert (Hd53 : d <= 53).
      { destruct (Z_le_gt_dec d 53) as [|Hgt]; [assumption|]. exfalso.
        assert (2 ^ 53 <= 2 ^ (d - 1)) by (apply Z.pow_le_mono_r; lia). lia. }
      rewrite fexp_eq.
      destruct (Z.eq_dec c (-1074)) as [->|Hne]; [lia|].
      assert (Hmbig : 2 ^ 52 <= m) by (apply Hbig; lia).
      assert (Hd52 : 52 < d).
      { apply (Z.pow_lt_mono_r_iff 2); lia. }
      lia.
    + change (emax - prec) with 971. exact Hle.
Qed.

(** *** Addition *)
Lemma shl_align_fst (mx : positive) (ex ez : Z) :
  ez <= ex ->
  Z.pos (fst (SpecFloat.shl_align mx ex ez)) = Z.pos mx * 2 ^ (ex - ez).
Proof.
  intros Hz. unfold SpecFloat.shl_align.
  destruct (ez - ex) as [|p|p] eqn:E; cbn [fst]; try lia.
  - replace (ex - ez) with 0 by lia. lia.
  - change (Pos.iter xO mx p) with (shift_pos p mx).
    rewrite shift_pos_correct, Z.pow_pos_fold.
    replace (ex - ez) with (Z.pos p) by lia. lia.
Qed.

Lemma add_finite (ma mx : positive) (ea ex : Z) :
  SpecFloat.bounded prec emax ma ea = true ->
  SpecFloat.bounded prec emax mx ex = true ->
  valueLe (valueSF (S754_finite false ma ea))
          (valueSF (SFadd prec emax (S754_finite false ma ea)
                                    (S754_finite false mx ex))).
Proof.
  intros Ha Hx.
  destruct (valid_rounds ma ea Ha) as [Ea Hra].
  destruct (bounded_facts ma ea Ha) as (Hca & Hea & Hma).
  cbn [SFadd SpecFloat.cond_Zopp].
  set (ez := Z.min ea ex).
  pose proof (shl_align_fst ma ea ez ltac:(lia)) as EA.
  pose proof (shl_align_fst mx ex ez ltac:(lia)) as EX.
  set (A := fst (SpecFloat.shl_align ma ea ez)) in *.
  set (X := fst (SpecFloat.shl_align mx ex ez)) in *.
  cbn [Z.add SpecFloat.binary_normalize]. unfold SpecFloat.binary_round.
  set (s := (A + X)%positive).
  assert (Es : Z.pos s = Z.pos A + Z.pos X) by (unfold s; lia).
  pose proof (digits2_pos_bounds s) as [Hs0 Hs1].
  pose proof (digits2_pos_bounds ma) as [Ha0 Ha1].
  assert (Hdig : Z.pos (SpecFloat.digits2_pos ma) + ea
                 <= Z.pos (SpecFloat.digits2_pos s) + ez).
  { assert (Hpow : 2 ^ (Z.pos (SpecFloat.digits2_pos ma) - 1 + (ea - ez))
                   < 2 ^ Z.pos (SpecFloat.digits2_pos s)).
    { rewrite Z.pow_add_r by lia.
      assert (0 < 2 ^ (ea - ez)) by (apply Z.pow_pos_nonneg; lia).
      nia. }
    apply Z.pow_lt_mono_r_iff in Hpow; lia. }
  assert (Hexp : ez <= SpecFloat.fexp prec emax
                         (Z.pos (SpecFloat.digits2_pos s) + ez)).
  { rewrite fexp_eq in *. lia. }
  assert (Ealign : SpecFloat.shl_align s ez
                     (SpecFloat.fexp prec emax
                        (Z.pos (SpecFloat.digits2_pos s) + ez)) = (s, ez)).
  { unfold SpecFloat.shl_align.
    destruct (SpecFloat.fexp prec emax (Z.pos (SpecFloat.digits2_pos s) + ez)
              - ez) eqn:E; try reflexivity. lia. }
  rewrite Ealign.
  destruct (bra_rounds (inject_Z (Z.pos s) * pow2 ez) (Z.pos s) ez
              SpecFloat.loc_Exact) as (m2 & E2 & Hr2).
  - apply Qmult_lt_0_compat; [reflexivity | apply pow2_pos].
  - lia.
  - apply (locates_comp (inject_Z (Z.pos s))); [|apply locates_exact].
    rewrite <- Qmult_assoc, pow2_cancel. ring.
  - exact Hexp.
  - rewrite E2, Ea. apply (rounds_mono _ _ _ _ _ _ Hra Hr2).
    rewrite Es, inject_Z_plus, EA, inject_Z_mult, pow2_Z by lia.
    assert (Hsplit : (pow2 ea == pow2 (ea - ez) * pow2 ez)%Q).
    { rewrite <- pow2_add. replace (ea - ez + ez) with ea by lia. reflexivity. }
    rewrite Hsplit.
    assert (0 <= inject_Z (Z.pos X) * pow2 ez)%Q.
    { apply Qmult_le_0_compat; [discriminate | apply Qlt_le_weak, pow2_pos]. }
    set (P := pow2 (ea - ez)) in *. set (Q := pow2 ez) in *.
    set (MA := inject_Z (Z.pos ma)) in *. set (MX := inject_Z (Z.pos X)) in *.
    clearbody P Q MA MX. nra.
Qed.

Lemma finite_positive (m : positive) (e : Z) :
  (0 < inject_Z (Z.pos m) * pow2 e)%Q.
Proof. apply Qmult_lt_0_compat; [reflexivity | apply pow2_pos]. Qed.

(** The doubles that are not negative. *)
Lemma notNegative_cases (x : spec_float) :
  valueLe (Finite 0%Qc) (valueSF x) ->
  SpecFloat.valid_binary prec emax x = true ->
  (exists s, x = S754_zero s)
  \/ x = S754_infinity false
  \/ (exists m e, x = S754_finite false m e
                  /\ SpecFloat.bounded prec emax m e = true).
Proof.
  destruct x as [s|[]| |[] m e]; cbn [valueSF valueLe SpecFloat.valid_binary];
    intros Hv Hb; try contradiction; eauto.
  - exfalso. unfold Qcle in Hv. cbn [this Q2Qc] in Hv.
    change (this 0%Qc) with 0%Q in Hv.
    pose proof (finite_positive m e) as Hp. unfold pow2 in Hp.
    set (q := (inject_Z (Z.pos m) * 2 ^ e)%Q) in *. clearbody q.
    assert (Hv' : (0 <= - q)%Q) by (rewrite <- (Qred_correct (- q)); exact Hv).
    lra.
  - right. right. exists m, e. auto.
Qed.

Lemma zero_double : exact (lit (N:=PrimFloat.float) 0) = Finite 0%Qc.
Proof. vm_compute. reflexivity. Qed.

Lemma add_nondecreasing_double (a x : PrimFloat.float) :
  atMost (lit 0) a -> atMost (lit 0) x -> atMost a (add a x).
Proof.
  unfold atMost. rewrite zero_double.
  cbn [exact add DoubleNumber]. rewrite !Double_value, add_spec.
  unfold SF64add.
  intros Ha Hx.
  destruct (notNegative_cases _ Ha (Prim2SF_valid a))
    as [[sa Ea]|[Ea|(ma & ea & Ea & Hba)]];
    destruct (notNegative_cases _ Hx (Prim2SF_valid x))
      as [[sx Ex]|[Ex|(mx & ex & Ex & Hbx)]];
    rewrite Ea, Ex in *.
  - destruct sa, sx; cbn; apply Qcle_refl.
  - destruct sa; exact I.
  - exact Hx.
  - exact I.
  - exact I.
  - exact I.
  - cbn [SFadd]. apply valueLe_refl. discriminate.
  - exact I.
  - now apply add_finite.
Qed.

(** *** Division *)
Lemma new_location_locates (q r d : Z) :
  0 < d -> 0 <= r < d ->
  locates (inject_Z q + inject_Z r / inject_Z d)
          (SpecFloat.shr_record_of_loc q (SpecFloat.new_location d r)).
Proof.
  intros Hd Hr.
  assert (HD : (0 < inject_Z d)%Q)
    by (change 0%Q with (inject_Z 0); now rewrite <- Zlt_Qlt).
  set (t := (inject_Z r / inject_Z d)%Q).
  assert (Ht : (t * inject_Z d == inject_Z r)%Q).
  { unfold t. field. intros E. rewrite E in HD. now apply Qlt_irrefl in HD. }
  assert (Hcmp : forall k : Z,
             (k * d <= 2 * r -> (inject_Z k <= 2 * t)%Q)
             /\ (2 * r < k * d -> (2 * t < inject_Z k)%Q)).
  { clearbody t. intros k. split; intros Hk.
    - apply Qmult_le_r with (inject_Z d); [exact HD|].
      rewrite <- Qmult_assoc, Ht. change 2%Q with (inject_Z 2).
      rewrite <- !inject_Z_mult, <- Zle_Qle. lia.
    - apply Qmult_lt_r with (inject_Z d); [exact HD|].
      rewrite <- Qmult_assoc, Ht. change 2%Q with (inject_Z 2).
      rewrite <- !inject_Z_mult, <- Zlt_Qlt. lia. }
  assert (Hzero : r = 0 -> (t == 0)%Q).
  { intros ->. unfold t. change (inject_Z 0) with 0%Q. field.
    intros E. rewrite E in HD. now apply Qlt_irrefl in HD. }
  assert (Hhalf : 2 * r = d -> (2 * t == 1)%Q).
  { clearbody t. intros E. destruct (Hcmp 1) as [H1 _]. destruct (Hcmp 1) as [_ H2].
    apply Qle_antisym.
    - apply Qnot_lt_le. intros Hlt.
      assert (Hx : (2 * t * inject_Z d == inject_Z d)%Q).
      { rewrite <- Qmult_assoc, Ht. change 2%Q with (inject_Z 2).
        rewrite <- inject_Z_mult, E. reflexivity. }
      assert (Hy : (1 * inject_Z d < 2 * t * inject_Z d)%Q)
        by (apply Qmult_lt_r; assumption).
      lra.
    - change 1%Q with (inject_Z 1). apply H1. lia. }
  assert (Hbits : forall (hi st : bool),
             (hi = true <-> d <= 2 * r) ->
             (st = false <-> r = 0 \/ 2 * r = d) ->
             locates (inject_Z q + t)
                     (SpecFloat.Build_shr_record q hi st)).
  { clearbody t. intros hi st Hhi Hst. unfold locates, code.
    cbn [SpecFloat.shr_m SpecFloat.shr_r SpecFloat.shr_s].
    rewrite inject_Z_plus, inject_Z_mult. change (inject_Z 2) with 2%Q.
    destruct (Hcmp 0) as [H0a _]. destruct (Hcmp 1) as [H1a H1b].
    destruct (Hcmp 2) as [_ H2b].
    change (inject_Z 0) with 0%Q in *. change (inject_Z 1) with 1%Q in *.
    change (inject_Z 2) with 2%Q in *.
    specialize (H0a ltac:(lia)). specialize (H2b ltac:(lia)).
    destruct hi.
    - assert (Hge : d <= 2 * r) by now apply Hhi.
      specialize (H1a ltac:(lia)).
      change (inject_Z 1) with 1%Q.
      split; [lra|]. split; [lra|]. split.
      + intros E. apply Hst in E. destruct E as [E|E]; [lia|].
        pose proof (Hhalf E). lra.
      + intros E. apply Hst. right.
        destruct (Z.eq_dec (2 * r) d) as [|Hne]; [assumption|]. exfalso.
        assert (Hgt : d < 2 * r) by lia.
        assert (Hx : (1 * inject_Z d < 2 * t * inject_Z d)%Q).
        { rewrite <- Qmult_assoc, Ht. change 2%Q with (inject_Z 2).
          rewrite <- inject_Z_mult, Qmult_1_l, <- Zlt_Qlt. lia. }
        apply Qmult_lt_r in Hx; [|exact HD]. lra.
    - assert (Hlt : 2 * r < d).
      { destruct (Z_lt_le_dec (2 * r) d) as [|Hge]; [assumption|].
        apply Hhi in Hge. discriminate. }
      specialize (H1b ltac:(lia)).
      change (inject_Z 0) with 0%Q.
      split; [lra|]. split; [lra|]. split.
      + intros E. apply Hst in E. destruct E as [E|E]; [|lia].
        pose proof (Hzero E). lra.
      + intros E. apply Hst. left.
        destruct (Z.eq_dec r 0) as [|Hne]; [assumption|]. exfalso.
        assert (Hpos : 0 < r) by lia.
        assert (Hx : (0 * inject_Z d < t * inject_Z d)%Q).
        { rewrite Ht, Qmult_0_l. change 0%Q with (inject_Z 0).
          now rewrite <- Zlt_Qlt. }
        apply Qmult_lt_r in Hx; [|exact HD]. lra. }
  unfold SpecFloat.new_location, SpecFloat.new_location_even,
    SpecFloat.new_location_odd.
  destruct (Z.even d) eqn:Ev.
  - destruct (Z.eqb_spec r 0) as [E0|N0].
    + apply Hbits; split; intros; auto; try lia; try discriminate.
    + destruct (Z.compare_spec (2 * r) d) as [E|E|E];
        cbn [SpecFloat.shr_record_of_loc];
        apply Hbits; split; intros; auto; try lia; try discriminate.
  - assert (Hodd : 2 * r <> d).
    { intros E. rewrite <- E, Z.even_mul in Ev. discriminate. }
    destruct (Z.eqb_spec r 0) as [E0|N0].
    + apply Hbits; split; intros; auto; try lia; try discriminate.
    + destruct (Z.compare_spec (2 * r + 1) d) as [E|E|E];
        cbn [SpecFloat.shr_record_of_loc];
        apply Hbits; split; intros; auto; try lia; try discriminate.
Qed.

(** The quotient of two positive integers, as [SFdiv] rounds it. *)
Lemma div_rounds (n d : positive) :
  exists m2 c,
    SFdiv prec emax (S754_finite false n 0) (S754_finite false d 0)
    = norm m2 c
    /\ rounds (inject_Z (Z.pos n) / inject_Z (Z.pos d)) c m2.
Proof.
  cbn [SFdiv xorb]. unfold SpecFloat.SFdiv_core_binary.
  cbn [SpecFloat.Zdigits2].
  set (d1 := Z.pos (SpecFloat.digits2_pos n)).
  set (d2 := Z.pos (SpecFloat.digits2_pos d)).
  rewrite !Z.add_0_r. change (0 - 0) with 0.
  set (e' := Z.min (SpecFloat.fexp prec emax (d1 - d2)) 0).
  set (s := 0 - e').
  assert (Hs : 0 <= s) by (unfold s, e'; lia).
  set (m' := match s with
             | 0 => Z.pos n
             | Z.pos _ => Z.shiftl (Z.pos n) s
             | Z.neg _ => 0
             end).
  assert (Em : m' = Z.pos n * 2 ^ s).
  { unfold m'. destruct s as [|p|p] eqn:E; try lia.
    now rewrite Z.shiftl_mul_pow2. }
  clearbody m'.
  pose proof (Z_div_mod m' (Z.pos d) eq_refl) as Hdiv.
  destruct (Z.div_eucl m' (Z.pos d)) as [q r]. destruct Hdiv as [Eq Hr].
  assert (Hpow : 0 < 2 ^ s) by (apply Z.pow_pos_nonneg; lia).
  assert (Hq : 0 <= q) by nia.
  set (v := (inject_Z (Z.pos n) / inject_Z (Z.pos d))%Q).
  assert (HD : (0 < inject_Z (Z.pos d))%Q) by reflexivity.
  assert (HN : (0 < inject_Z (Z.pos n))%Q) by reflexivity.
  assert (Hv : (0 < v)%Q).
  { unfold v. apply Qlt_shift_div_l; [exact HD|]. now rewrite Qmult_0_l. }
  assert (Eu : (v * pow2 (- e')
                == inject_Z q + inject_Z r / inject_Z (Z.pos d))%Q).
  { replace (- e') with s by (unfold s; lia).
    rewrite <- pow2_Z by lia. unfold v.
    assert (E : (inject_Z (Z.pos n) * inject_Z (2 ^ s)
                 == inject_Z (Z.pos d) * inject_Z q + inject_Z r)%Q).
    { rewrite <- !inject_Z_mult, <- inject_Z_plus, <- Em, Eq. reflexivity. }
    field_simplify_eq; [|intros E0; rewrite E0 in HD; now apply Qlt_irrefl in HD].
    rewrite E. ring. }
  pose proof (new_location_locates q r (Z.pos d) eq_refl Hr) as Hloc.
  apply (locates_comp _ (v * pow2 (- e'))) in Hloc; [|now symmetry].
  pose proof (digits2_pos_bounds n) as [Hn0 Hn1]. fold d1 in Hn0, Hn1.
  pose proof (digits2_pos_bounds d) as [Hd0 Hd1]. fold d2 in Hd0, Hd1.
  destruct (Zdigits2_bounds q Hq) as (Hq0 & Hq1 & _).
  assert (Hexp : e' <= SpecFloat.fexp prec emax (SpecFloat.Zdigits2 q + e')).
  { assert (Hlow : (pow2 (d1 - 1 - d2) < v)%Q).
    { unfold v. apply Qlt_shift_div_l; [exact HD|].
      apply Qlt_le_trans with (pow2 (d1 - 1 - d2) * pow2 d2)%Q.
      - apply Qmult_lt_l; [apply pow2_pos|].
        rewrite <- pow2_Z by lia. now rewrite <- Zlt_Qlt.
      - rewrite <- pow2_add. replace (d1 - 1 - d2 + d2) with (d1 - 1) by lia.
        rewrite <- pow2_Z by lia. now rewrite <- Zle_Qle. }
    assert (Hup : (v < pow2 (SpecFloat.Zdigits2 q + e'))%Q).
    { rewrite (pow2_scale v e'), pow2_add.
      apply Qmult_lt_compat_r; [apply pow2_pos|].
      rewrite Eu, <- pow2_Z by lia.
      apply Qlt_le_trans with (inject_Z (q + 1)).
      - rewrite inject_Z_plus. change (inject_Z 1) with 1%Q.
        assert (inject_Z r / inject_Z (Z.pos d) < 1)%Q.
        { apply Qlt_shift_div_r; [exact HD|]. rewrite Qmult_1_l.
          rewrite <- Zlt_Qlt. lia. }
        lra.
      - rewrite <- Zle_Qle. lia. }
    assert (Hlt : (pow2 (d1 - 1 - d2) < pow2 (SpecFloat.Zdigits2 q + e'))%Q)
      by lra.
    apply pow2_lt_inv in Hlt. unfold e' in *. rewrite !fexp_eq in *. lia. }
  destruct (bra_rounds v q e' (SpecFloat.new_location (Z.pos d) r)
              Hv Hq Hloc Hexp) as (m2 & E2 & Hr2).
  exists m2, (SpecFloat.fexp prec emax (SpecFloat.Zdigits2 q + e')).
  split; assumption.
Qed.

(** [Number(s)] on a positive decimal rounds its value. *)
Lemma ofDecimal_rounds (n : positive) (f : nat) :
  exists m2 c,
    Prim2SF (Double.ofDecimal (mkDecimal (Z.pos n) f)) = norm m2 c
    /\ rounds (inject_Z (Z.pos n) / inject_Z (pow10 f)) c m2.
Proof.
  unfold Double.ofDecimal. cbn [mantissa scale].
  destruct (div_rounds n (Z.to_pos (pow10 f))) as (m2 & c & E & Hr).
  exists m2, c. rewrite E.
  rewrite Z2Pos.id in Hr by apply pow10_pos.
  split; [|exact Hr].
  apply Prim2SF_SF2Prim. now apply (norm_valid _ _ _ Hr).
Qed.

Lemma norm_notNegative (v : Q) (c m : Z) :
  rounds v c m -> valueLe (Finite 0%Qc) (valueSF (norm m c)).
Proof.
  intros Hr. destruct (rounds_bounds _ _ _ Hr) as (Hm & Hc & _ & Hpos).
  destruct (norm_cases m c Hm Hc) as [[-> E]|[(H0 & Hf & E)|(H0 & Hf & E)]];
    rewrite E; cbn [valueSF valueLe]; try exact I.
  - apply Qcle_refl.
  - change 0%Qc with (Q2Qc 0). apply Q2Qc_le, Qlt_le_weak. now apply Hpos.
Qed.

Lemma zero_decimal (f : nat) :
  exact (Number_ (N:=PrimFloat.float) (mkDecimal 0 f)) = Finite 0%Qc.
Proof. reflexivity. Qed.

Lemma Number_monotone_double (f : nat) (n m : Z) :
  0 <= n <= m ->
  atMost (Number_ (N:=PrimFloat.float) (mkDecimal n f)) (Number_ (mkDecimal m f)).
Proof.
  intros [Hn Hnm]. unfold atMost.
  destruct m as [|m|m]; try lia.
  { replace n with 0 by lia. rewrite zero_decimal. cbn. apply Qcle_refl. }
  cbn [exact Number_ DoubleNumber]. rewrite !Double_value.
  destruct (ofDecimal_rounds m f) as (m2 & c & E & Hr). rewrite E.
  destruct n as [|n|n]; try lia.
  { change (Prim2SF (Double.ofDecimal (mkDecimal 0 f)))
      with (S754_zero false).
    cbn [valueSF]. now apply (norm_notNegative _ _ _ Hr). }
  destruct (ofDecimal_rounds n f) as (n2 & c' & E' & Hr'). rewrite E'.
  apply (rounds_mono _ _ _ _ _ _ Hr' Hr).
  apply Qmult_le_compat_r.
  - now rewrite <- Zle_Qle.
  - apply Qinv_le_0_compat. change 0%Q with (inject_Z 0).
    rewrite <- Zle_Qle. pose proof (pow10_pos f). lia.
Qed.

Lemma Number_below_double (d : Decimal) (b : PrimFloat.float) :
  0 <= mantissa d ->
  valueLe (Finite (decimalQ d)) (exact b) -> atMost (Number_ d) b.
Proof.
  destruct d as [n f]. cbn [mantissa]. intros Hn Hb. unfold atMost.
  cbn [exact DoubleNumber] in *. rewrite Double_value in Hb.
  destruct n as [|n|n]; try lia.
  { rewrite zero_decimal.
    assert (E0 : decimalQ (mkDecimal 0 f) = 0%Qc).
    { apply Qc_is_canon. rewrite this_decimalQ. reflexivity. }
    rewrite E0 in Hb. rewrite Double_value. exact Hb. }
  cbn [Number_ DoubleNumber]. rewrite !Double_value.
  destruct (ofDecimal_rounds n f) as (n2 & c & E & Hr). rewrite E.
  assert (Hpos : (0 < inject_Z (Z.pos n) / inject_Z (pow10 f))%Q).
  { apply Qlt_shift_div_l.
    - change 0%Q with (inject_Z 0). rewrite <- Zlt_Qlt. apply pow10_pos.
    - rewrite Qmult_0_l. reflexivity. }
  assert (Hd : (this (decimalQ (mkDecimal (Z.pos n) f))
                == inject_Z (Z.pos n) / inject_Z (pow10 f))%Q)
    by apply this_decimalQ.
  pose proof (Prim2SF_valid b) as Hvalid.
  destruct (Prim2SF b) as [s|[]| |[] mb eb];
    cbn [valueSF valueLe SpecFloat.valid_binary] in *; try contradiction.
  - (* zero *)
    exfalso. unfold Qcle in Hb. rewrite Hd in Hb.
    change (this 0%Qc) with 0%Q in Hb. lra.
  - (* infinity *)
    destruct (rounds_bounds _ _ _ Hr) as (Hm & Hc & _ & _).
    destruct (norm_cases n2 c Hm Hc) as [[-> E']|[(H0 & Hf & E')|(H0 & Hf & E')]];
      rewrite E'; exact I.
  - (* negative *)
    exfalso. unfold Qcle in Hb. rewrite Hd in Hb. cbn [this Q2Qc] in Hb.
    pose proof (finite_positive mb eb) as Hp. unfold pow2 in Hp.
    set (q := (inject_Z (Z.pos mb) * 2 ^ eb)%Q) in *. clearbody q.
    assert (Hb' : (inject_Z (Z.pos n) / inject_Z (pow10 f) <= - q)%Q)
      by (rewrite <- (Qred_correct (- q)); exact Hb).
    lra.
  - (* positive *)
    destruct (valid_rounds mb eb Hvalid) as [Eb Hrb].
    change (Finite (Q2Qc (inject_Z (Z.pos mb) * 2 ^ eb)))
      with (valueSF (S754_finite false mb eb)).
    rewrite Eb. apply (rounds_mono _ _ _ _ _ _ Hr Hrb).
    unfold Qcle in Hb. rewrite Hd in Hb. cbn [this Q2Qc] in Hb.
    unfold pow2.
    set (q := (inject_Z (Z.pos mb) * 2 ^ eb)%Q) in *. clearbody q.
    rewrite <- (Qred_correct q). exact Hb.
Qed.

(** Doubles keep the order. *)
Lemma DoubleMonotone : Monotone PrimFloat.float.
Proof.
  split.
  - exact zero_double.
  - exact add_nondecreasing_double.
  - exact Number_monotone_double.
  - exact Number_below_double.
Qed.
End DoubleOrder.

(** C5, as the code has it. In every arithmetic that keeps the order,
    as exact arithmetic and doubles do, and for every claims list with
    amounts that are not negative: the cumulative series has one point per
    claim, in the order of the claims; the point of a claim holds the
    running totals up to it, as the code has added them up, the LPT total
    rounded to 2 decimals and the ETH total to 5; and the series never
    decreases, in either dimension, from one point to the next. *)
Theorem cumData_rounded_running_totals :
  forall (N : Type) (H : JSNumber N) (laws : Monotone N) (s : State (N:=N)),
    Forall amountsNotNegative (claims s) ->
    List.length (cumData s) = List.length (claims s)
    /\ map cp_lpt (cumData s)
       = map (fun t => toFixedNumber t 2)
             (prefixSums (lit 0) (map c_lpt (claims s)))
    /\ map cp_eth (cumData s)
       = map (fun t => toFixedNumber t 5)
             (prefixSums (lit 0) (map c_eth (claims s)))
    /\ Sorted pointNotBelow (cumData s).
Proof.
  intros N H laws s Hs. unfold cumData.
  destruct (cumFrom_prefixSums (claims s) (lit 0) (lit 0)) as (Hl & He & Hn).
  repeat split; try assumption.
  assert (H0 : atMost (lit (N:=N) 0) (lit 0)).
  { unfold atMost. rewrite zero_is_zero. cbn. apply Qcle_refl. }
  now apply (cumFrom_nondecreasing laws).
Qed.

(** Evaluates the list of a goal [Forall P l], and then the amounts. *)
Ltac amounts_not_negative :=
  match goal with
  | |- Forall _ ?l =>
      let E := fresh in
      eassert (E : l = _) by (vm_compute; reflexivity); rewrite E; clear E
  end;
  repeat (apply Forall_cons; [split; vm_compute; discriminate|]);
  apply Forall_nil.

Lemma cumData_rounded_running_totals_witness :
  let exactly := state (run (N:=Qc) (loadDelegator net_scenario addrA) world0) in
  let doubles :=
    state (run (N:=PrimFloat.float) (loadDelegator net_scenario addrA) world0) in
  let below :=
    state (run (N:=PrimFloat.float) (loadDelegator net_015 addrA) world0) in
  (map (fun p => (this (cp_lpt p), this (cp_eth p))) (cumData exactly)
   = [(5, 1 # 1000); (25, 1 # 200)]%Q
   /\ Sorted pointNotBelow (cumData exactly))
  /\ (map (fun p => valueQ (exact (cp_lpt p))) (cumData doubles)
      = [Some 5; Some 25]%Q
      /\ Sorted pointNotBelow (cumData doubles))
  /\ (map (fun p => valueQ (exact (cp_lpt p))) (cumData below)
      = [valueQ (exact (Number_ (N:=PrimFloat.float) (mkDecimal 1 2)))]
      /\ map cp_lpt (cumData below)
         = map (fun t => toFixedNumber t 2)
               (prefixSums (lit 0) (map c_lpt (claims below)))).
Proof.
  cbv zeta. split; [|split].
  - split; [vm_compute; reflexivity|].
    apply (cumData_rounded_running_totals Qc _ ExactMonotone).
    amounts_not_negative.
  - split; [vm_compute; reflexivity|].
    apply (cumData_rounded_running_totals PrimFloat.float _
             DoubleOrder.DoubleMonotone).
    amounts_not_negative.
  - split; [vm_compute; reflexivity|].
    apply (cumData_rounded_running_totals PrimFloat.float _
             DoubleOrder.DoubleMonotone).
    amounts_not_negative.
Defined.

(** C5, as stated, fails, in exact arithmetic and in doubles: the point of
    a single claim of 0.001 LPT holds 0, the total rounded to 2 decimals,
    and not the running total. *)
Lemma cumData_not_the_running_totals :
  let seriesOf N (H : JSNumber N) :=
    let s := state (run (N:=N) (loadDelegator net_small_claim addrA) world0) in
    (map (fun p => valueQ (exact (cp_lpt p))) (cumData s),
     map (fun t => valueQ (exact t))
         (prefixSums (lit 0) (map c_lpt (claims s)))) in
  Forall amountsNotNegative
    (claims (state (run (N:=Qc) (loadDelegator net_small_claim addrA) world0)))
  /\ Forall amountsNotNegative
       (claims (state (run (N:=PrimFloat.float)
                         (loadDelegator net_small_claim addrA) world0)))
  /\ seriesOf Qc _ = ([Some 0%Q], [Some (1 # 1000)%Q])
  /\ seriesOf PrimFloat.float _
     = ([Some 0%Q], [Some (1152921504606847 # 1152921504606846976)%Q])
  /\ fst (seriesOf Qc _) <> snd (seriesOf Qc _)
  /\ fst (seriesOf PrimFloat.float _) <> snd (seriesOf PrimFloat.float _).
Proof.
  cbv zeta.
  split; [amounts_not_negative|].
  split; [amounts_not_negative|].
  split; [vm_compute; reflexivity|]. split; [vm_compute; reflexivity|].
  split; vm_compute; discriminate.
Qed.

(* ================================================================== *)
(** * Yield projections *)

Lemma mkOrch_projected (protocol : RawProtocol) (t : RawTranscoder) :
  projected protocol t
    (mkOrch (Number_ (rp_mintableTokens protocol))
            (Number_ (rp_totalActiveStake protocol))
            (rp_currentRound_id protocol) t).
Proof.
  unfold projected, mkOrch. cbn [o_id o_rewardAPY o_ethYieldPerLPT].
  split; [reflexivity|]. split; [reflexivity|].
  unfold ethYieldPerStakeUnitPerYear.
  destruct (gt (Number_ (rt_totalStake t)) (lit 0)) eqn:E; [|reflexivity].
  cbn -[lit] in *. rewrite lit_0 in E. apply Qcltb_true in E.
  set (stake := decimalQ (rt_totalStake t)) in *.
  assert (stake <> 0) by (intros E0; rewrite E0 in E; revert E; apply Qcle_not_lt, Qcle_refl).
  assert (lit (N:=Qc) 1000000 <> 0).
  { intros E0. apply (f_equal (fun q : Qc => Qnum (this q))) in E0. vm_compute in E0. discriminate. }
  field. auto.
Qed.

(** The sparklines leave the projections alone. *)
Lemma withSparkline_projected protocol days t o :
  projected protocol t o -> projected protocol t (withSparkline days o).
Proof. exact (fun H => H). Qed.

(** What [loadOrchestrators] stores when its two requests succeed. *)
Lemma loadOrchestrators_projected (net : Network) (w : World (N:=Qc))
    (tData : list RawTranscoder) (protocol : RawProtocol) :
  orchData (state w) = None ->
  settle (outcome (fetch_transcoders net)) = Return tData ->
  settle (outcome (fetch_protocol net)) = Return protocol ->
  exists orchs,
    orchData (state (run (loadOrchestrators net) w)) = Some orchs
    /\ Forall2 (projected protocol) tData orchs.
Proof.
  intros Hnone Ht Hp.
  unfold run, loadOrchestrators.
  unfold bind at 1. cbn [getState fst snd]. rewrite Hnone. cbn [isSome].
  unfold bind, tryCatchFinally, gqlFetch, await, batchResolveENS, ret.
  cbn -[settle mkOrch collectNames withSparkline Z.div Z.sub Z.mul].
  rewrite Ht, Hp. cbn -[settle mkOrch collectNames withSparkline Z.div Z.sub Z.mul].
  set (orchs := map (mkOrch _ _ _) tData).
  assert (Horchs : Forall2 (projected protocol) tData orchs).
  { subst orchs. clear. induction tData; cbn [map]; constructor; auto.
    apply mkOrch_projected. }
  destruct (settle (outcome (fetch_domains_in net _)));
    (destruct (map o_id (filter o_isWorking orchs));
     [| destruct (settle (outcome (fetch_transcoderDays net _ _)))]);
    cbn -[withSparkline];
    try (exists orchs; split; [reflexivity | exact Horchs]);
    (eexists; split; [reflexivity|]);
    clear -Horchs; induction Horchs; cbn [map]; constructor; auto.
Qed.


(** C7. For every orchestrator and protocol snapshot that
    [loadOrchestrators] fetches, the stored orchestrators are the
    transcoders, one for one, with
    [rewardAPY = delegatorYieldPerRound * 365 * 100], where
    [delegatorYieldPerRound = baseYieldPerRound * (1 - rewardCut / 1000000)]
    and [baseYieldPerRound = mintable / totalActiveStake] when the active
    stake is positive and 0 otherwise, and with [ethYieldPerLPT =
    (thirtyDayVolumeETH * feeShare / 1000000 / totalStake) * 12] when the
    stake is positive and 0 otherwise.  For 1000 mintable tokens, 100000 of
    active stake and a reward cut stored as 100000 the base yield is 0.01,
    the delegator yield 0.009 and the APY 328.5; in doubles it is printed
    as 328.50. *)
Theorem yield_projections :
  (forall (net : Network) (w : World (N:=Qc))
          (tData : list RawTranscoder) (protocol : RawProtocol),
      orchData (state w) = None ->
      settle (outcome (fetch_transcoders net)) = Return tData ->
      settle (outcome (fetch_protocol net)) = Return protocol ->
      exists orchs,
        orchData (state (run (loadOrchestrators net) w)) = Some orchs
        /\ Forall2 (projected protocol) tData orchs)
  /\ (let baseYield := baseYieldPerRound (N:=Qc) (lit 1000) (lit 100000) in
      let delegatorYield := delegatorYieldPerRound baseYield (lit 100000) in
      this baseYield = (1 # 100)%Q
      /\ this delegatorYield = (9 # 1000)%Q
      /\ this (annualizedRewardAPY delegatorYield) = (657 # 2)%Q
      /\ option_map (map (fun o => this (o_rewardAPY o)))
            (orchData (state (run (N:=Qc) (loadOrchestrators net_yield)
                                world0)))
         = Some [(657 # 2)%Q])
  /\ option_map (map (fun o => toFixed (o_rewardAPY o) 2))
        (orchData (state (run (N:=PrimFloat.float)
                            (loadOrchestrators net_yield) world0)))
     = Some ["328.50"].
Proof.
  split; [|split].
  - intros net w tData protocol. apply loadOrchestrators_projected.
  - cbv zeta. repeat split; vm_compute; reflexivity.
  - vm_compute. reflexivity.
Qed.

Lemma yield_projections_witness :
  exists orchs,
    orchData (state (run (N:=Qc) (loadOrchestrators net_yield) world0))
    = Some orchs
    /\ Forall2 (projected (protocolOf (whole 1000) (whole 100000)))
         [transcoderOf addrB (whole 100000) (whole 500000) (whole 20000)
                       (whole 10)]
         orchs.
Proof.
  apply (proj1 yield_projections net_yield world0); reflexivity.
Defined.

(* ================================================================== *)
(** * The export *)

Lemma filter_sort_perm {A} (after : A -> A -> bool) (p : A -> bool) l :
  Forall (fun x => p x = true) (sort after (filter p l)).
Proof.
  apply (Permutation_Forall (Permutation_sym (sort_perm after (filter p l)))).
  apply Forall_forall. intros x Hx. now apply filter_In in Hx.
Qed.

(** C9, as the code has it. The export writes a fixed schema of exactly 11
    named columns: the header row is the same whatever is exported, every
    data row has as many fields as the header, and the rows are the
    orchestrators it is given, in their order.  The export button passes
    the filtered and sorted orchestrators (not all of them), the ENS names
    and the simulated stake. *)
Theorem export_fixed_schema :
  headers
  = ["Orchestrator"; "ENS Name"; "Reward APY %"; "30d ETH Fees";
     "ETH/LPT/yr"; "Reward Cut %"; "Fee Share %"; "Total Stake";
     "Reward Calling"; "Est LPT/yr"; "Est ETH/yr"]
  /\ List.length headers = 11%nat
  /\ forall (N : Type) (H : JSNumber N),
      (forall (orchs : list Orch) names (stake : N),
          Forall (fun row => List.length row = List.length headers)
                 (csvRows orchs names stake)
          /\ map (fun row => hd "" row) (csvRows orchs names stake)
             = map o_id orchs
          /\ exportCSV orchs names stake
             = join newline
                    (join "," headers
                     :: map (join ",") (csvRows orchs names stake)))
      /\ (forall s : State (N:=N),
             exportClick s
             = exportCSV (filteredOrchs s) (ensNames s) (effectiveStake s)
             /\ Permutation
                  (filteredOrchs s)
                  (filter (keeps (orchFilter s)) (orEmpty (orchData s)))
             /\ Forall (fun o => keeps (orchFilter s) o = true)
                       (filteredOrchs s)).
Proof.
  split; [reflexivity|]. split; [reflexivity|].
  intros N H. split.
  - intros orchs names stake. split; [|split].
    + unfold csvRows. apply Forall_forall. intros row Hrow.
      apply in_map_iff in Hrow. destruct Hrow as (o & <- & _). reflexivity.
    + unfold csvRows. rewrite map_map. reflexivity.
    + reflexivity.
  - intros s. split; [reflexivity|]. split.
    + apply sort_perm.
    + apply filter_sort_perm.
Qed.

(** C9, as stated, fails: there are 11 columns, not 12 or more. *)
Lemma export_has_eleven_columns :
  List.length headers = 11%nat /\ ~ (12 <= List.length headers)%nat.
Proof. split; [reflexivity|]. cbn. lia. Qed.

(* ================================================================== *)
(** * Parsing and aggregation *)

(** A [reduce] over the mapped claims adds the parsed fields, one after
    the other. *)
Lemma reduce_mkClaims {N} `{JSNumber N} (f : Claim -> N)
    (earnData : option (list RawClaim)) (acc : N) :
  fold_left (fun s c => add s (f c)) (mkClaims earnData) acc
  = fold_left add (map (fun c => f (mkClaim c)) (orEmpty earnData)) acc.
Proof.
  unfold mkClaims. revert acc.
  induction (orEmpty earnData) as [|c l IH]; intros acc; cbn; auto.
Qed.

Lemma exactSum_from (ds : list Decimal) (acc : Qc) :
  (this (fold_left Qcplus (map decimalQ ds) acc) == this acc + exactSum ds)%Q.
Proof.
  revert acc. induction ds as [|d ds IH]; intros acc.
  - cbn. ring.
  - cbn [map fold_left]. rewrite IH.
    change (exactSum (d :: ds))
      with (inject_Z (mantissa d) / inject_Z (pow10 (scale d))
            + exactSum ds)%Q.
    unfold decimalQ. cbn [this Qcplus Q2Qc]. rewrite !Qred_correct. ring.
Qed.

(** C8, as the code has it. The decimal strings are parsed by [Number];
    the lifetime totals add the parsed amounts as they are, one after the
    other, with no rounding to display precision before the aggregation,
    in every interpretation of the numbers; in exact arithmetic the totals
    are the sums of the decimals. *)
Theorem totals_add_parsed_amounts :
  (forall (N : Type) (H : JSNumber N) (addr : string) (del : RawDelegator)
          (earnData : option (list RawClaim)) (evtData : RawEvents),
      let d := mkData (N:=N) addr del earnData evtData in
      d_bondedAmount d = Number_ (rd_bondedAmount del)
      /\ d_earned d
         = fold_left add (map (fun c => Number_ (rc_rewardTokens c))
                              (orEmpty earnData)) (lit 0)
      /\ d_totalETH d
         = fold_left add (map (fun c => Number_ (rc_fees c))
                              (orEmpty earnData)) (lit 0))
  /\ (forall (addr : string) (del : RawDelegator)
             (earnData : option (list RawClaim)) (evtData : RawEvents),
         let d := mkData (N:=Qc) addr del earnData evtData in
         (this (d_earned d)
          == exactSum (map rc_rewardTokens (orEmpty earnData)))%Q
         /\ (this (d_totalETH d)
             == exactSum (map rc_fees (orEmpty earnData)))%Q).
Proof.
  split.
  - intros N H addr del earnData evtData. cbn -[lit mkClaims timeline].
    split; [reflexivity|].
    split; [apply (reduce_mkClaims c_lpt) | apply (reduce_mkClaims c_eth)].
  - intros addr del earnData evtData.
    unfold mkData. cbn [d_earned d_totalETH].
    rewrite (reduce_mkClaims c_lpt), (reduce_mkClaims c_eth).
    cbn -[lit]. rewrite lit_0.
    rewrite <- (map_map rc_rewardTokens decimalQ).
    rewrite <- (map_map rc_fees decimalQ).
    rewrite !exactSum_from.
    change (this (Q2Qc 0)) with (Qred 0). rewrite Qred_correct. split; ring.
Qed.

(** C8, as stated, fails on a JavaScript engine, where [Number] is a
    double and not a decimal of arbitrary precision: claims of 0.1 and 0.2
    LPT add up to 0.3 as decimals, and to 0.30000000000000004 in the
    lookup. *)
Lemma doubles_do_not_add_decimals_exactly :
  let earnedOf N (H : JSNumber N) :=
    option_map (fun d => valueQ (exact (d_earned d)))
      (data (state (run (N:=N) (loadDelegator net_tenths addrA) world0))) in
  exactSum [mkDecimal 1 1; mkDecimal 2 1] == 3 # 10
  /\ earnedOf Qc _ = Some (Some (3 # 10))
  /\ earnedOf PrimFloat.float _
     = Some (Some (1351079888211149 # 4503599627370496))
  /\ earnedOf PrimFloat.float _ <> Some (Some (3 # 10)).
Proof.
  cbv zeta. split; [reflexivity|]. split; [vm_compute; reflexivity|].
  split; [vm_compute; reflexivity|]. vm_compute. discriminate.
Qed.

(* ================================================================== *)
(** * The loaders *)

(** Unfolds the control flow of a loader; the state updates are left to
    [cbn]. *)
Ltac unfold_loader :=
  unfold run, loadDelegator, loadOrchestrators, compareEffect, openCompare,
    resolveENS, bind, tryCatchFinally, gqlFetch, await, Promise_all3, ret,
    throw.

Section Lookup.
Context {N : Type} `{JSNumber N}.

(** C3. The three queries of a lookup are joined: when one of them
    fails, or the profile query finds no delegator, the lookup fails as a
    whole.  The displayed data is empty afterwards, whatever was displayed
    before and whatever the other queries returned; the wallet and the
    address in the URL are the old ones; the error message is the one of a
    failed query, or the one for a missing delegator; the loading flag is
    down; and each of the three requests went out exactly once, after the
    ENS request if there is one: nothing is tried again. *)
Theorem barrier_failure_discards_everything :
  forall (net : Network) (address addr : string) (w : World (N:=N)),
    target net address = Some addr ->
    barrierFails net addr ->
    let w' := run (loadDelegator net address) w in
    data (state w') = None
    /\ loading (state w') = false
    /\ wallet (state w') = wallet (state w)
    /\ addressParam w' = addressParam w
    /\ (error (state w') = msgNoDelegator
        \/ Some (error (state w')) = rejection (fetch_delegator net addr)
        \/ Some (error (state w')) = rejection (fetch_earnings net addr)
        \/ Some (error (state w')) = rejection (fetch_events net addr))
    /\ requests w'
       = (requests w ++ resolutionRequests address
          ++ [Q_delegator addr; Q_earnings addr; Q_events addr])%list.
Proof.
  intros net address addr w Ht Hf. cbv zeta.
  unfold target, resolutionRequests in *. unfold barrierFails, rejection in Hf.
  unfold_loader.
  destruct (String.eqb (trim address) "") eqn:Eblank; [discriminate|].
  destruct (settle (outcome (fetch_delegator net addr))) as [[del|]|m1] eqn:E1;
    destruct (settle (outcome (fetch_earnings net addr))) as [earn|m2] eqn:E2;
    destruct (settle (outcome (fetch_events net addr))) as [evt|m3] eqn:E3;
    try (exfalso; clear -Hf; intuition congruence);
    (destruct (endsWith (trim address) ".eth") eqn:Eens;
     [ cbn -[settle mkData both];
       destruct (settle (outcome (fetch_domains net _)))
         as [[|[nm [a|]] ds]|]; try discriminate;
       destruct (String.eqb a "") eqn:Ea; [discriminate|]; injection Ht as ->
     | destruct (isAddress (toLowerCase (trim address))) eqn:Eaddr;
       [injection Ht as <- | discriminate] ]);
    cbn -[settle mkData both Nat.leb]; rewrite ?E1, ?E2, ?E3;
    cbn -[settle mkData Nat.leb];
    repeat match goal with
           | |- context [Nat.leb ?a ?b] => destruct (Nat.leb a b)
           end;
    cbn -[mkData];
    rewrite <- ?app_assoc; cbn [app];
    repeat split; auto;
    unfold rejection; rewrite ?E1, ?E2, ?E3; auto 6.
Qed.

(** C10. A lookup whose input is empty, or white space only, does
    nothing: it returns at once and leaves the world as it is, so no
    loading flag, no request, no error message, and the data, the wallet
    and the error that were displayed stay.  An input that is not blank,
    not an ENS name and not an address sets the validation message,
    without a request. *)
Theorem blank_input_is_a_no_op :
  (forall (net : Network) (address : string) (w : World (N:=N)),
      trim address = "" ->
      loadDelegator net address w = (Return tt, w))
  /\ (forall (net : Network) (address : string) (w : World (N:=N)),
         trim address <> "" ->
         endsWith (trim address) ".eth" = false ->
         isAddress (toLowerCase (trim address)) = false ->
         let w' := run (loadDelegator net address) w in
         error (state w') = msgInvalidInput
         /\ data (state w') = None
         /\ loading (state w') = false
         /\ requests w' = requests w).
Proof.
  split.
  - intros net address w Hblank. unfold loadDelegator.
    rewrite Hblank. reflexivity.
  - intros net address w Hblank Hens Haddr. cbv zeta.
    unfold_loader.
    destruct (String.eqb (trim address) "") eqn:E.
    + apply String.eqb_eq in E. contradiction.
    + rewrite Hens, Haddr. cbn. auto.
Qed.

End Lookup.

Lemma barrier_failure_witness :
  let w' := run (loadDelegator net_earnings_down addrB) session1 in
  data (state session1) <> None
  /\ data (state w') = None
  /\ error (state w') = "Failed to fetch"
  /\ requests w'
     = (requests session1
        ++ [Q_delegator addrB; Q_earnings addrB; Q_events addrB])%list.
Proof.
  cbv zeta.
  destruct (barrier_failure_discards_everything
              net_earnings_down addrB addrB session1)
    as (Hdata & _ & _ & _ & _ & Hreq).
  - vm_compute. reflexivity.
  - right. left. vm_compute. discriminate.
  - split; [vm_compute; discriminate|]. split; [exact Hdata|].
    split; [vm_compute; reflexivity | exact Hreq].
Defined.

Lemma blank_input_witness :
  loadDelegator net_scenario "   " session1 = (Return tt, session1)
  /\ error (state (run (loadDelegator net_scenario "hello") session1))
     = msgInvalidInput.
Proof.
  split.
  - apply (proj1 blank_input_is_a_no_op). vm_compute. reflexivity.
  - apply (proj2 blank_input_is_a_no_op net_scenario "hello" session1);
      vm_compute; (reflexivity || discriminate).
Defined.



(* ================================================================== *)
(** * Trimming *)

Lemma stripPrefix_app (p l r : list ascii) :
  stripPrefix p l = Some r -> l = (p ++ r)%list.
Proof.
  revert l. induction p as [|a p IH]; intros l; cbn.
  - now intros [= ->].
  - destruct l as [|b l]; [discriminate|].
    destruct (Ascii.eqb a b) eqn:E; [|discriminate].
    apply Ascii.eqb_eq in E. subst b. intros Hs. now rewrite (IH l Hs).
Qed.

Lemma stripPrefix_longer (p l more : list ascii) :
  stripPrefix p l <> None -> stripPrefix p (l ++ more) <> None.
Proof.
  revert l. induction p as [|a p IH]; intros l; cbn.
  - discriminate.
  - destruct l as [|b l]; [congruence|]. cbn.
    destruct (Ascii.eqb a b); [apply IH | congruence].
Qed.

(** What starts with no token has no prefix that starts with one. *)
Lemma stripAny_longer (ts : list (list ascii)) (l more : list ascii) :
  stripAny ts (l ++ more) = None -> stripAny ts l = None.
Proof.
  induction ts as [|t ts IH]; cbn; [reflexivity|].
  destruct (stripPrefix t l) eqn:E.
  - assert (Hn : stripPrefix t (l ++ more) <> None)
      by (apply stripPrefix_longer; congruence).
    destruct (stripPrefix t (l ++ more)); [discriminate | congruence].
  - destruct (stripPrefix t (l ++ more)); [discriminate | exact IH].
Qed.

Lemma stripAny_nil (ts : list (list ascii)) :
  Forall (fun t => t <> []) ts -> stripAny ts [] = None.
Proof.
  induction 1 as [|t ts Ht _ IH]; cbn; [reflexivity|].
  destruct t; [contradiction | exact IH].
Qed.

Lemma stripAny_shorter (ts : list (list ascii)) (l r : list ascii) :
  Forall (fun t => t <> []) ts ->
  stripAny ts l = Some r ->
  (List.length r < List.length l)%nat /\ exists t, l = (t ++ r)%list.
Proof.
  induction 1 as [|t ts Ht _ IH]; cbn; [discriminate|].
  destruct (stripPrefix t l) eqn:E; [|exact IH].
  intros [= ->]. apply stripPrefix_app in E. subst l. split.
  - rewrite length_app. destruct t; [contradiction | cbn; lia].
  - now exists t.
Qed.

Lemma dropLeading_fixed (ts : list (list ascii)) (fuel : nat)
    (l : list ascii) :
  stripAny ts l = None -> dropLeading ts fuel l = l.
Proof. destruct fuel; cbn; [reflexivity|]. now intros ->. Qed.

(** With fuel for every character, what is left starts with no token, and
    is the end of the list. *)
Lemma dropLeading_done (ts : list (list ascii)) (fuel : nat)
    (l : list ascii) :
  Forall (fun t => t <> []) ts ->
  (List.length l <= fuel)%nat ->
  stripAny ts (dropLeading ts fuel l) = None
  /\ exists dropped, l = (dropped ++ dropLeading ts fuel l)%list.
Proof.
  intros Hts. revert l. induction fuel as [|fuel IH]; intros l Hl.
  - destruct l; [|cbn in Hl; lia]. cbn.
    split; [now apply stripAny_nil | now exists []].
  - cbn. destruct (stripAny ts l) as [r|] eqn:E.
    + destruct (stripAny_shorter ts l r Hts E) as [Hlen [t ->]].
      destruct (IH r) as [Hnone [dropped Hd]]; [lia|].
      split; [exact Hnone|]. exists (t ++ dropped)%list.
      rewrite <- app_assoc. now rewrite <- Hd.
    + split; [exact E | now exists []].
Qed.

Lemma whiteSpace_nonempty : Forall (fun t => t <> []) whiteSpace.
Proof. repeat constructor; discriminate. Qed.

Lemma whiteSpace_rev_nonempty :
  Forall (fun t => t <> []) (map (@rev ascii) whiteSpace).
Proof. repeat constructor; discriminate. Qed.

(** A trimmed list neither starts nor ends with white space. *)
Lemma trimmed (l : list ascii) :
  let t := trimEnd (trimStart l) in
  stripAny whiteSpace t = None
  /\ stripAny (map (@rev ascii) whiteSpace) (rev t) = None.
Proof.
  cbv zeta. unfold trimStart, trimEnd.
  destruct (dropLeading_done whiteSpace (List.length l) l
              whiteSpace_nonempty (Nat.le_refl _)) as [Hstart _].
  set (l1 := dropLeading whiteSpace (List.length l) l) in *.
  destruct (dropLeading_done (map (@rev ascii) whiteSpace)
              (List.length l1) (rev l1) whiteSpace_rev_nonempty)
    as [Hend [dropped Hd]].
  { now rewrite length_rev. }
  set (l2 := dropLeading _ (List.length l1) (rev l1)) in *.
  split.
  - apply (stripAny_longer whiteSpace (rev l2) (rev dropped)).
    rewrite <- rev_app_distr, <- Hd, rev_involutive. exact Hstart.
  - now rewrite rev_involutive.
Qed.

Lemma trim_idempotent (s : string) : trim (trim s) = trim s.
Proof.
  unfold trim. rewrite list_ascii_of_string_of_list_ascii.
  destruct (trimmed (list_ascii_of_string s)) as [Hstart Hend].
  set (t := trimEnd (trimStart (list_ascii_of_string s))) in *.
  f_equal. unfold trimStart at 1.
  rewrite (dropLeading_fixed _ _ _ Hstart).
  unfold trimEnd. rewrite (dropLeading_fixed _ _ _ Hend).
  apply rev_involutive.
Qed.

(** X1. White space around the input does not matter to a lookup: the
    lookup of the trimmed input is the lookup of the input, in every state
    and with every response of the network. *)
Theorem lookup_ignores_surrounding_space :
  forall (N : Type) (H : JSNumber N) (net : Network) (address : string)
         (w : World (N:=N)),
    loadDelegator net (trim address) w = loadDelegator net address w.
Proof.
  intros. unfold loadDelegator. now rewrite trim_idempotent.
Qed.

(* ================================================================== *)
(** * Addresses in normal form *)

Lemma lowerHex_not_white (c : ascii) (l : list ascii) :
  isLowerHex c = true ->
  stripAny (map (@rev ascii) whiteSpace) (c :: l) = None.
Proof.
  destruct c as [[] [] [] [] [] [] [] []]; intros Hc;
    try discriminate Hc; reflexivity.
Qed.

Lemma lowerHex_lower (c : ascii) : isLowerHex c = true -> lowerChar c = c.
Proof.
  destruct c as [[] [] [] [] [] [] [] []]; intros Hc;
    try discriminate Hc; reflexivity.
Qed.

Lemma lowerHex_not_h (c : ascii) :
  isLowerHex c = true -> Ascii.eqb "h" c = false.
Proof.
  destruct c as [[] [] [] [] [] [] [] []]; intros Hc;
    try discriminate Hc; reflexivity.
Qed.

(** The shape of a string that passes the address pattern. *)
Lemma isAddress_shape (a : string) :
  isAddress a = true ->
  exists hex c,
    list_ascii_of_string a = ("0" :: "x" :: hex ++ [c])%char%list
    /\ forallb isLowerHex hex = true /\ isLowerHex c = true
    /\ List.length hex = 39%nat.
Proof.
  unfold isAddress. destruct (list_ascii_of_string a) as [|z [|x hex]];
    try discriminate.
  intros Ha. apply andb_prop in Ha. destruct Ha as [Ha Hhex].
  apply andb_prop in Ha. destruct Ha as [Ha Hlen].
  apply andb_prop in Ha. destruct Ha as [Hz Hx].
  apply Ascii.eqb_eq in Hz, Hx. subst z x.
  apply Nat.eqb_eq in Hlen.
  destruct (exists_last (l:=hex)) as (hex' & c & ->).
  { intros ->. discriminate. }
  rewrite forallb_app in Hhex. apply andb_prop in Hhex.
  destruct Hhex as [Hhex' Hc]. cbn in Hc. rewrite andb_true_r in Hc.
  rewrite length_app in Hlen. cbn in Hlen.
  exists hex', c. repeat split; auto. lia.
Qed.

Lemma address_trim (a : string) : isAddress a = true -> trim a = a.
Proof.
  intros Ha. destruct (isAddress_shape a Ha) as (hex & c & Hl & _ & Hc & _).
  unfold trim. rewrite Hl.
  assert (Hs : trimStart ("0" :: "x" :: hex ++ [c])%char%list
               = ("0" :: "x" :: hex ++ [c])%char%list) by reflexivity.
  rewrite Hs. unfold trimEnd.
  replace (rev ("0" :: "x" :: hex ++ [c])%char%list)
    with (c :: rev hex ++ ["x"; "0"])%char%list.
  2:{ cbn [rev]. rewrite rev_app_distr. cbn. now rewrite <- app_assoc. }
  cbn [List.length dropLeading]. rewrite (lowerHex_not_white c _ Hc).
  replace (c :: rev hex ++ ["x"; "0"])%char%list
    with (rev ("0" :: "x" :: hex ++ [c])%char%list).
  2:{ cbn [rev]. rewrite rev_app_distr. cbn. now rewrite <- app_assoc. }
  rewrite rev_involutive, <- Hl. apply string_of_list_ascii_of_string.
Qed.

Lemma address_lower (a : string) : isAddress a = true -> toLowerCase a = a.
Proof.
  intros Ha. destruct (isAddress_shape a Ha) as (hex & c & Hl & Hhex & Hc & _).
  unfold toLowerCase. rewrite <- (string_of_list_ascii_of_string a) at 2.
  f_equal. rewrite Hl. cbn [map]. f_equal. f_equal.
  rewrite map_app. cbn [map]. rewrite (lowerHex_lower c Hc). f_equal.
  clear -Hhex. induction hex as [|d hex IH]; [reflexivity|].
  cbn in Hhex. apply andb_prop in Hhex. destruct Hhex as [Hd Hhex].
  cbn [map]. now rewrite (lowerHex_lower d Hd), IH.
Qed.

Lemma address_not_ens (a : string) :
  isAddress a = true -> endsWith a ".eth" = false.
Proof.
  intros Ha. destruct (isAddress_shape a Ha) as (hex & c & Hl & _ & Hc & _).
  unfold endsWith. rewrite Hl.
  replace (rev ("0" :: "x" :: hex ++ [c])%char%list)
    with (c :: rev hex ++ ["x"; "0"])%char%list.
  2:{ cbn [rev]. rewrite rev_app_distr. cbn. now rewrite <- app_assoc. }
  cbn -[Ascii.eqb]. now rewrite (lowerHex_not_h c Hc).
Qed.

Lemma address_not_blank (a : string) :
  isAddress a = true -> String.eqb a "" = false.
Proof.
  intros Ha. destruct a; [discriminate Ha | reflexivity].
Qed.

(** X2. An input that is not an ENS name and is, trimmed and in lower case,
    [0x] and 40 hexadecimal digits, is looked up under that lower-case
    address; the address is its own normal form (it resolves to itself, with
    no request), and looking it up is the same lookup. *)
Theorem address_lookup_in_normal_form :
  forall (N : Type) (H : JSNumber N) (net : Network) (address : string),
    endsWith (trim address) ".eth" = false ->
    isAddress (toLowerCase (trim address)) = true ->
    let a := toLowerCase (trim address) in
    target net address = Some a
    /\ (forall net', target net' a = Some a)
    /\ (forall w : World (N:=N),
           loadDelegator net address w = loadDelegator net a w).
Proof.
  intros N H net address Hens Ha. cbv zeta.
  set (a := toLowerCase (trim address)) in *.
  assert (Hblank : String.eqb (trim address) "" = false).
  { destruct (trim address) eqn:E; [|reflexivity].
    subst a. discriminate Ha. }
  assert (Hnormal : forall net', target net' a = Some a).
  { intros net'. unfold target.
    rewrite (address_trim a Ha), (address_not_blank a Ha),
      (address_not_ens a Ha), (address_lower a Ha), Ha. reflexivity. }
  split; [|split].
  - unfold target. rewrite Hblank, Hens. fold a. now rewrite Ha.
  - exact Hnormal.
  - intros w. unfold loadDelegator.
    rewrite (address_trim a Ha), (address_not_blank a Ha),
      (address_not_ens a Ha), (address_lower a Ha), Hblank, Hens.
    fold a. reflexivity.
Qed.

Lemma address_lookup_in_normal_form_witness :
  let typed := "  0x00000000000000000000000000000000000000AA " in
  target net_scenario typed = Some addrA
  /\ run (N:=Qc) (loadDelegator net_scenario typed) world0
     = run (loadDelegator net_scenario addrA) world0.
Proof.
  cbv zeta.
  destruct (address_lookup_in_normal_form Qc _ net_scenario
              "  0x00000000000000000000000000000000000000AA ")
    as (Ht & _ & Hl).
  - vm_compute. reflexivity.
  - vm_compute. reflexivity.
  - split.
    + vm_compute in Ht. vm_compute. exact Ht.
    + unfold run. specialize (Hl world0). cbv zeta in Hl.
      apply (f_equal snd) in Hl. vm_compute in Hl. vm_compute. exact Hl.
Defined.

Section MoreLookup.
Context {N : Type} `{JSNumber N}.

(** X3. A lookup whose input resolves to [addr] and whose three queries
    succeed with an existing delegator: the state afterwards is given field
    by field (the wallet and the address parameter are [addr], no error, the
    dashboard tab, the data built from the three answers, no orchestrator
    data, the simulator back on the bonded amount; filter, order, names and
    protocol data as before), and the requests sent are those of the
    resolution and then the three queries for [addr]. *)
Theorem lookup_success_replaces_everything :
  forall (net : Network) (address addr : string) (w : World (N:=N))
         (del : RawDelegator) (earnData : option (list RawClaim))
         (evtData : RawEvents),
    target net address = Some addr ->
    settle (outcome (fetch_delegator net addr)) = Return (Some del) ->
    settle (outcome (fetch_earnings net addr)) = Return earnData ->
    settle (outcome (fetch_events net addr)) = Return evtData ->
    let w' := run (loadDelegator net address) w in
    state w'
    = {| wallet := addr; loading := false; error := "";
         data := Some (mkData addr del earnData evtData);
         tab := T_dash; show := true; orchData := None;
         orchLoading := orchLoading (state w);
         orchFilter := orchFilter (state w);
         orchSort := orchSort (state w);
         ensNames := ensNames (state w);
         protocolData := protocolData (state w);
         simStake := Number_ (rd_bondedAmount del);
         simCustom := false |}
    /\ addressParam w' = Some addr
    /\ requests w'
       = (requests w ++ resolutionRequests address
          ++ [Q_delegator addr; Q_earnings addr; Q_events addr])%list.
Proof.
  intros net address addr w del earnData evtData Ht E1 E2 E3. cbv zeta.
  unfold target, resolutionRequests in *.
  unfold_loader.
  destruct (String.eqb (trim address) "") eqn:Eblank; [discriminate|].
  (destruct (endsWith (trim address) ".eth") eqn:Eens;
   [ cbn -[settle mkData both];
     destruct (settle (outcome (fetch_domains net _)))
       as [[|[nm [a|]] ds]|]; try discriminate;
     destruct (String.eqb a "") eqn:Ea; [discriminate|]; injection Ht as ->
   | destruct (isAddress (toLowerCase (trim address))) eqn:Eaddr;
     [injection Ht as <- | discriminate] ]);
    cbn -[settle mkData both Nat.leb]; rewrite ?E1, ?E2, ?E3;
    cbn -[settle mkData Nat.leb];
    rewrite <- ?app_assoc; cbn [app];
    repeat split; auto.
Qed.

(** X4. After a lookup of an input that is not blank, nothing is loading,
    and the dashboard is shown exactly when there is data.  With data there
    is no error message and no welcome panel, and the wallet and the address
    parameter are the address of the data, to which the input resolved;
    without data the welcome panel is shown exactly when the error box is
    not, and the wallet and the address parameter are what they were. *)
Theorem lookup_ends_with_data_or_error :
  forall (net : Network) (address : string) (w : World (N:=N)),
    trim address <> "" ->
    let w' := run (loadDelegator net address) w in
    showsLoading (state w') = false
    /\ showsDashboard (state w') = isSome (data (state w'))
    /\ match data (state w') with
       | Some d =>
           error (state w') = ""
           /\ showsWelcome (state w') = false
           /\ wallet (state w') = d_address d
           /\ addressParam w' = Some (d_address d)
           /\ target net address = Some (d_address d)
       | None =>
           showsWelcome (state w') = negb (showsError (state w'))
           /\ wallet (state w') = wallet (state w)
           /\ addressParam w' = addressParam w
       end.
Proof.
  intros net address w Hblank. cbv zeta.
  unfold target, showsLoading, showsDashboard, showsWelcome, showsError.
  unfold_loader.
  destruct (String.eqb (trim address) "") eqn:E.
  { apply String.eqb_eq in E. contradiction. }
  destruct (endsWith (trim address) ".eth").
  - cbn -[settle mkData both].
    destruct (settle (outcome (fetch_domains net _)))
      as [[|[nm [a|]] ds]|]; cbn -[settle mkData both]; try solve [repeat split; reflexivity].
    destruct (String.eqb a ""); cbn -[settle mkData both]; try solve [repeat split; reflexivity].
    destruct (snd (both _ _)) as [[[del|] [earn evt]]|]; cbn; try solve [repeat split; reflexivity].
  - destruct (isAddress _); cbn -[settle mkData both]; try solve [repeat split; reflexivity].
    destruct (snd (both _ _)) as [[[del|] [earn evt]]|]; cbn; try solve [repeat split; reflexivity].
Qed.

(** X5. A name ending in [.eth] that does not resolve stops the lookup
    after the one resolution request: no delegator query is sent, there is
    no data, nothing is loading, and the error is the message about the
    name, or the message of the failed request. *)
Theorem unresolved_name_stops_the_lookup :
  forall (net : Network) (address : string) (w : World (N:=N)),
    endsWith (trim address) ".eth" = true ->
    target net address = None ->
    let w' := run (loadDelegator net address) w in
    requests w'
    = (requests w ++ [Q_domains (toLowerCase (trim address))])%list
    /\ data (state w') = None
    /\ loading (state w') = false
    /\ (error (state w') = msgUnresolved (trim address)
        \/ Some (error (state w'))
           = rejection (fetch_domains net (toLowerCase (trim address)))).
Proof.
  intros net address w Hens Ht. cbv zeta.
  unfold target, rejection in *. unfold_loader. rewrite Hens in *.
  destruct (String.eqb (trim address) "") eqn:E.
  { apply String.eqb_eq in E. rewrite E in Hens. discriminate. }
  cbn -[settle mkData both msgUnresolved].
  destruct (settle (outcome (fetch_domains net _)))
    as [[|[nm [a|]] ds]|]; cbn -[settle mkData both msgUnresolved]; auto.
  destruct (String.eqb a ""); [|discriminate].
  cbn -[msgUnresolved]. auto.
Qed.
End MoreLookup.

Lemma lookup_success_replaces_everything_witness :
  let w' := run (N:=Qc) (loadDelegator net_delegated " 0x00000000000000000000000000000000000000AA") session2 in
  orchData (state session2) <> None
  /\ wallet (state w') = addrA
  /\ orchData (state w') = None
  /\ tab (state w') = T_dash
  /\ requests w'
     = (requests session2
        ++ [Q_delegator addrA; Q_earnings addrA; Q_events addrA])%list.
Proof.
  cbv zeta.
  destruct (lookup_success_replaces_everything
              net_delegated " 0x00000000000000000000000000000000000000AA"
              addrA session2
              {| rd_id := addrA; rd_bondedAmount := whole 1000;
                 rd_fees := whole 0; rd_withdrawnFees := whole 0;
                 rd_startRound := whole 1;
                 rd_delegate := Some
                   {| dg_id := addrB; dg_totalStake := whole 20000;
                      dg_rewardCut := whole 100000;
                      dg_feeShare := whole 500000;
                      dg_thirtyDayVolumeETH := whole 0 |} |}
              (Some [claimOf 1000 10 10 (whole 5) (mkDecimal 1 3);
                     claimOf 2000 11 15 (whole 20) (mkDecimal 4 3)])
              noEvents)
    as (Hstate & _ & Hreq); try (vm_compute; reflexivity).
  split; [vm_compute; discriminate|].
  rewrite Hstate. cbn [wallet orchData tab].
  split; [reflexivity|]. split; [reflexivity|]. split; [reflexivity|].
  exact Hreq.
Defined.

Lemma lookup_ends_with_data_or_error_witness :
  let found := run (N:=Qc) (loadDelegator net_delegated addrA) world0 in
  let failed := run (N:=Qc) (loadDelegator net_earnings_down addrB) found in
  showsDashboard (state found) = true
  /\ error (state found) = ""
  /\ addressParam found = Some addrA
  /\ showsDashboard (state failed) = false
  /\ wallet (state failed) = addrA
  /\ addressParam failed = Some addrA.
Proof.
  cbv zeta.
  assert (HA : trim addrA <> "") by (vm_compute; discriminate).
  assert (HB : trim addrB <> "") by (vm_compute; discriminate).
  pose proof (lookup_ends_with_data_or_error (N:=Qc) net_delegated addrA
                world0 HA) as Hfound.
  pose proof (lookup_ends_with_data_or_error (N:=Qc) net_earnings_down addrB
                (run (loadDelegator net_delegated addrA) world0) HB)
    as Hfailed.
  cbv zeta in Hfound, Hfailed. vm_compute in Hfound. vm_compute in Hfailed.
  destruct Hfound as (_ & Hshown & Herr & _ & _ & Hparam & _).
  destruct Hfailed as (_ & Hhidden & _ & Hwallet & Hparam').
  vm_compute. repeat split; assumption.
Defined.

Lemma unresolved_name_witness :
  let w' := run (N:=Qc) (loadDelegator net_scenario " nobody.eth ") session1 in
  requests w' = (requests session1 ++ [Q_domains "nobody.eth"])%list
  /\ data (state w') = None
  /\ error (state w') = msgUnresolved "nobody.eth".
Proof.
  cbv zeta.
  destruct (unresolved_name_stops_the_lookup (N:=Qc) net_scenario
              " nobody.eth " session1)
    as (Hreq & Hdata & _ & _); try (vm_compute; reflexivity).
  split; [vm_compute in Hreq; vm_compute; exact Hreq|].
  split; [exact Hdata|]. vm_compute. reflexivity.
Defined.

Section MoreOrchestrators.
Context {N : Type} `{JSNumber N}.

(** X6. When the orchestrator query or the protocol query fails, the
    orchestrator load ends silently: both requests were sent and nothing
    after them, the state is what it was but for the loading flag, which is
    off (no error message, no orchestrator data), and the address parameter
    is untouched. *)
Theorem orchestrator_failure_is_silent :
  forall (net : Network) (w : World (N:=N)),
    orchData (state w) = None ->
    rejection (fetch_transcoders net) <> None
    \/ rejection (fetch_protocol net) <> None ->
    let w' := run (loadOrchestrators net) w in
    state w'
    = {| wallet := wallet (state w); loading := loading (state w);
         error := error (state w); data := data (state w);
         tab := tab (state w); show := show (state w); orchData := None;
         orchLoading := false; orchFilter := orchFilter (state w);
         orchSort := orchSort (state w); ensNames := ensNames (state w);
         protocolData := protocolData (state w);
         simStake := simStake (state w);
         simCustom := simCustom (state w) |}
    /\ requests w' = (requests w ++ [Q_transcoders; Q_protocol])%list
    /\ addressParam w' = addressParam w.
Proof.
  intros net w Hnone Hfail. cbv zeta. unfold rejection in Hfail.
  unfold run, loadOrchestrators.
  unfold bind, tryCatchFinally, gqlFetch, await, batchResolveENS, ret,
    background, getState.
  rewrite Hnone. cbn [isSome].
  destruct (settle (outcome (fetch_transcoders net))) as [tData|] eqn:Et;
    destruct (settle (outcome (fetch_protocol net))) as [protocol|] eqn:Ep;
    try (exfalso; clear -Hfail; intuition congruence);
    cbn -[settle Nat.leb]; rewrite ?Et, ?Ep; cbn -[settle Nat.leb];
    repeat match goal with
           | |- context [Nat.leb ?a ?b] => destruct (Nat.leb a b)
           end;
    cbn; rewrite <- ?app_assoc; cbn [app]; rewrite ?Hnone;
    repeat split; reflexivity.
Qed.

(** X7. When the orchestrator query and the protocol query succeed, the
    load sends the name query for all orchestrator ids in lower case,
    and the daily-fees query only if some orchestrator is working; the
    orchestrators are stored, with sparklines if that query was sent and
    succeeded; a failed name query leaves the names empty; error, data and
    tab are untouched. *)
Theorem orchestrator_success_requests :
  forall (net : Network) (w : World (N:=N))
         (tData : list RawTranscoder) (protocol : RawProtocol),
    orchData (state w) = None ->
    settle (outcome (fetch_transcoders net)) = Return tData ->
    settle (outcome (fetch_protocol net)) = Return protocol ->
    let orchs :=
      map (mkOrch (Number_ (rp_mintableTokens protocol))
                  (Number_ (rp_totalActiveStake protocol))
                  (rp_currentRound_id protocol)) tData in
    let ids := map toLowerCase (map o_id orchs) in
    let workingIds := map o_id (filter o_isWorking orchs) in
    let dayStart := ((now net / 1000 - 30 * 86400) / 86400)%Z in
    let w' := run (loadOrchestrators net) w in
    requests w'
    = (requests w
       ++ Q_transcoders :: Q_protocol :: Q_domains_in ids
          :: match workingIds with
             | [] => []
             | _ :: _ => [Q_transcoderDays workingIds dayStart]
             end)%list
    /\ orchData (state w')
       = Some match workingIds with
              | [] => orchs
              | _ :: _ =>
                  match settle (outcome (fetch_transcoderDays
                                           net workingIds dayStart)) with
                  | Return days => map (withSparkline days) orchs
                  | Throw _ => orchs
                  end
              end
    /\ ensNames (state w')
       = match settle (outcome (fetch_domains_in net ids)) with
         | Return domains => collectNames domains
         | Throw _ => []
         end
    /\ orchLoading (state w') = false
    /\ error (state w') = error (state w)
    /\ data (state w') = data (state w)
    /\ tab (state w') = tab (state w).
Proof.
  intros net w tData protocol Hnone Ht Hp. cbv zeta.
  unfold run, loadOrchestrators.
  unfold bind, tryCatchFinally, gqlFetch, await, batchResolveENS, ret,
    getState.
  rewrite Hnone. cbn [isSome].
  cbn -[settle mkOrch collectNames withSparkline Z.div Z.sub Z.mul].
  rewrite Ht, Hp.
  cbn -[settle mkOrch collectNames withSparkline Z.div Z.sub Z.mul].
  set (orchs := map (mkOrch _ _ _) tData).
  destruct (settle (outcome (fetch_domains_in net _)));
    (destruct (map o_id (filter o_isWorking orchs));
     [| destruct (settle (outcome (fetch_transcoderDays net _ _)))]);
    cbn -[withSparkline Z.div Z.sub Z.mul];
    rewrite <- ?app_assoc; cbn [app]; repeat split; reflexivity.
Qed.
End MoreOrchestrators.

Lemma orchestrator_failure_witness :
  let w' := run (N:=Qc) (loadOrchestrators net_protocol_down) delegated1 in
  state w' = state delegated1
  /\ requests w' = (requests delegated1 ++ [Q_transcoders; Q_protocol])%list.
Proof.
  cbv zeta.
  destruct (orchestrator_failure_is_silent (N:=Qc) net_protocol_down
              delegated1) as (Hstate & Hreq & _).
  - vm_compute. reflexivity.
  - right. vm_compute. discriminate.
  - split; [|exact Hreq]. rewrite Hstate. vm_compute. reflexivity.
Defined.

Lemma orchestrator_success_witness :
  let w' := run (N:=Qc) (loadOrchestrators net_delegated) delegated1 in
  requests w'
  = (requests delegated1
     ++ [Q_transcoders; Q_protocol; Q_domains_in [addrB; addrC];
         Q_transcoderDays [addrB; addrC] 19645])%list
  /\ option_map (map o_id) (orchData (state w')) = Some [addrB; addrC]
  /\ ensNames (state w') = [].
Proof.
  cbv zeta.
  pose proof (orchestrator_success_requests (N:=Qc) net_delegated delegated1
                [transcoderOf addrB (whole 100000) (whole 500000)
                              (whole 20000) (whole 5);
                 transcoderOf addrC (whole 50000) (whole 500000)
                              (whole 30000) (whole 10)]
                (protocolOf (whole 1000) (whole 100000))) as Hload.
  cbv zeta in Hload.
  destruct Hload as (Hreq & Horchs & Hnames & _);
    try (vm_compute; reflexivity).
  split; [vm_compute in Hreq; vm_compute; exact Hreq|].
  split; [rewrite Horchs; vm_compute; reflexivity|].
  rewrite Hnames. vm_compute. reflexivity.
Defined.

(* ================================================================== *)
(** * ENS names *)

Lemma lookup_assign_same (k v : string) (l : list (string * string)) :
  lookup k (assign k v l) = Some v.
Proof.
  induction l as [|[k' v'] l IH]; cbn.
  - now rewrite String.eqb_refl.
  - destruct (String.eqb k k') eqn:E; cbn.
    + now rewrite String.eqb_refl.
    + now rewrite E.
Qed.

Lemma lookup_assign_other (k k' v : string) (l : list (string * string)) :
  k' <> k -> lookup k' (assign k v l) = lookup k' l.
Proof.
  intros Hk. induction l as [|[k2 v2] l IH]; cbn.
  - destruct (String.eqb k' k) eqn:E; [|reflexivity].
    apply String.eqb_eq in E. contradiction.
  - destruct (String.eqb k k2) eqn:E; cbn.
    + apply String.eqb_eq in E. subst k2.
      destruct (String.eqb k' k) eqn:E'; [|reflexivity].
      apply String.eqb_eq in E'. contradiction.
    + now rewrite IH.
Qed.

Lemma names_dec (d : Domain) :
  (exists addr name, isNameOf d addr name
     /\ dm_name d = Some name
     /\ exists id, dm_resolvedAddress d = Some id /\ toLowerCase id = addr
        /\ String.eqb name "" = false /\ String.eqb id "" = false)
  \/ (forall addr name, ~ isNameOf d addr name).
Proof.
  destruct d as [[name|] [id|]]; cbn.
  2-4: right; intros addr nm (Hn & _ & id' & Hid & _); cbn in *; congruence.
  destruct (String.eqb name "") eqn:En.
  { right. intros addr nm (Hn & Hne & _). cbn in Hn. injection Hn as <-.
    apply String.eqb_eq in En. contradiction. }
  destruct (String.eqb id "") eqn:Ei.
  { right. intros addr nm (_ & _ & id' & Hid & Hne & _). cbn in Hid.
    injection Hid as <-. apply String.eqb_eq in Ei. contradiction. }
  left. exists (toLowerCase id), name.
  pose proof (proj1 (String.eqb_neq _ _) En) as Hn.
  pose proof (proj1 (String.eqb_neq _ _) Ei) as Hi.
  split; [|split; [reflexivity|]].
  - split; [reflexivity|]. split; [exact Hn|]. exists id. auto.
  - exists id. auto.
Qed.

Lemma collect_step (seen : list Domain) (held : list (string * string))
    (d : Domain) :
  shortestOf seen held ->
  shortestOf (seen ++ [d])
    (match dm_name d, dm_resolvedAddress d with
     | Some name, Some id =>
         if String.eqb name "" || String.eqb id "" then held
         else
           let addr := toLowerCase id in
           match lookup addr held with
           | None => assign addr name held
           | Some old =>
               if (jsLength name <? jsLength old)%nat
               then assign addr name held else held
           end
     | _, _ => held
     end).
Proof.
  intros Hheld.
  assert (Hskip : (forall addr name, ~ isNameOf d addr name) ->
                  shortestOf (seen ++ [d]) held).
  { intros Hno addr. specialize (Hheld addr).
    destruct (lookup addr held) as [name|].
    - destruct Hheld as [(d0 & Hin & Hd0) Hmin]. split.
      + exists d0. split; [apply in_or_app; now left | exact Hd0].
      + intros d' other Hin' Hn'. apply in_app_or in Hin'.
        destruct Hin' as [Hin'|[<-|[]]]; [eauto | now apply Hno in Hn'].
    - intros d' other Hin' Hn'. apply in_app_or in Hin'.
      destruct Hin' as [Hin'|[<-|[]]]; [now apply (Hheld d' other) | now apply (Hno addr other)]. }
  destruct (names_dec d)
    as [(addr & name & Hd & Hname & id & Hid & Haddr & En & Ei)|Hno].
  2:{ destruct d as [[name|] [id|]]; cbn; auto.
      destruct (String.eqb name "" || String.eqb id "") eqn:E; auto.
      exfalso. apply orb_false_elim in E. destruct E as [En Ei].
      apply String.eqb_neq in En, Ei.
      apply (Hno (toLowerCase id) name). repeat split; auto.
      exists id. auto. }
  rewrite Hname, Hid, En, Ei. cbn [orb]. cbv zeta. rewrite Haddr.
  assert (Honly : forall a other, isNameOf d a other -> a = addr /\ other = name).
  { intros a other (Hn & _ & id' & Hid' & _ & Ha).
    rewrite Hname in Hn. rewrite Hid in Hid'.
    injection Hn as <-. injection Hid' as <-. split; congruence. }
  assert (Hnew : forall taken,
             (forall d' other, In d' seen -> isNameOf d' addr other ->
                               (jsLength name <= jsLength other)%nat) ->
             (forall a, a <> addr -> lookup a taken = lookup a held) ->
             lookup addr taken = Some name ->
             shortestOf (seen ++ [d]) taken).
  { intros taken Hmin Hother Hsame a.
    destruct (string_dec a addr) as [->|Ha].
    - rewrite Hsame. split.
      + exists d. split; [apply in_or_app; right; now left | exact Hd].
      + intros d' other Hin' Hn'. apply in_app_or in Hin'.
        destruct Hin' as [Hin'|[<-|[]]]; [eauto|].
        destruct (Honly _ _ Hn') as [_ ->]. lia.
    - rewrite (Hother a Ha). specialize (Hheld a).
      destruct (lookup a held) as [nm|].
      + destruct Hheld as [(d0 & Hin & Hd0) Hmin0]. split.
        * exists d0. split; [apply in_or_app; now left | exact Hd0].
        * intros d' other Hin' Hn'. apply in_app_or in Hin'.
          destruct Hin' as [Hin'|[<-|[]]]; [eauto|].
          destruct (Honly _ _ Hn') as [-> _]. contradiction.
      + intros d' other Hin' Hn'. apply in_app_or in Hin'.
        destruct Hin' as [Hin'|[<-|[]]]; [now apply (Hheld d' other)|].
        destruct (Honly _ _ Hn') as [-> _]. contradiction. }
  pose proof (Hheld addr) as Haddr0.
  destruct (lookup addr held) as [old|] eqn:Eold.
  - destruct Haddr0 as [(d0 & Hin0 & Hd0) Hmin0].
    destruct (jsLength name <? jsLength old)%nat eqn:Elt.
    + apply Nat.ltb_lt in Elt. apply Hnew.
      * intros d' other Hin' Hn'. specialize (Hmin0 d' other Hin' Hn'). lia.
      * intros a Ha. now apply lookup_assign_other.
      * apply lookup_assign_same.
    + apply Nat.ltb_ge in Elt. intros a.
      destruct (string_dec a addr) as [->|Ha].
      * rewrite Eold. split.
        -- exists d0. split; [apply in_or_app; now left | exact Hd0].
        -- intros d' other Hin' Hn'. apply in_app_or in Hin'.
           destruct Hin' as [Hin'|[<-|[]]]; [eauto|].
           destruct (Honly _ _ Hn') as [_ ->]. exact Elt.
      * specialize (Hheld a). destruct (lookup a held) as [nm|].
        -- destruct Hheld as [(d1 & Hin1 & Hd1) Hmin1]. split.
           ++ exists d1. split; [apply in_or_app; now left | exact Hd1].
           ++ intros d' other Hin' Hn'. apply in_app_or in Hin'.
              destruct Hin' as [Hin'|[<-|[]]]; [eauto|].
              destruct (Honly _ _ Hn') as [-> _]. contradiction.
        -- intros d' other Hin' Hn'. apply in_app_or in Hin'.
           destruct Hin' as [Hin'|[<-|[]]]; [now apply (Hheld d' other)|].
           destruct (Honly _ _ Hn') as [-> _]. contradiction.
  - apply Hnew.
    + intros d' other Hin' Hn'. exfalso. exact (Haddr0 d' other Hin' Hn').
    + intros a Ha. now apply lookup_assign_other.
    + apply lookup_assign_same.
Qed.

(** X8. When the resolved addresses of the domains are Ethereum addresses,
    the names collected from the domains hold, for every address in lower
    case, the shortest name among the domains that name it (a domain counts
    if its name and its resolved address are present and not empty; the
    length of a name is its [length] in JavaScript, the number of UTF-16
    code units), and nothing for an address that no domain names. *)
Theorem collectNames_keeps_shortest (domains : list Domain) :
  Forall resolvesToAddress domains ->
  shortestOf domains (collectNames domains).
Proof.
  intros _. unfold collectNames.
  assert (Hgen : forall seen held,
             shortestOf seen held ->
             shortestOf (seen ++ domains)
               (fold_left
                  (fun names d =>
                     match dm_name d, dm_resolvedAddress d with
                     | Some name, Some id =>
                         if String.eqb name "" || String.eqb id "" then names
                         else
                           let addr := toLowerCase id in
                           match lookup addr names with
                           | None => assign addr name names
                           | Some old =>
                               if (jsLength name <? jsLength old)%nat
                               then assign addr name names else names
                           end
                     | _, _ => names
                     end) domains held)).
  { induction domains as [|d ds IH]; intros seen held Hheld; cbn [fold_left].
    - now rewrite app_nil_r.
    - replace (seen ++ d :: ds)%list with ((seen ++ [d]) ++ ds)%list
        by (rewrite <- app_assoc; reflexivity).
      apply IH. now apply collect_step. }
  apply (Hgen [] []). intros addr. cbn. intros d other [].
Qed.

Lemma collectNames_keeps_shortest_witness :
  let domains := [ {| dm_name := Some "aaaaaaaa.eth";
                      dm_resolvedAddress := Some addrA |};
                   {| dm_name := Some accented;
                      dm_resolvedAddress := Some addrA |} ] in
  (String.length "aaaaaaaa.eth" < String.length accented)%nat
  /\ (jsLength accented < jsLength "aaaaaaaa.eth")%nat
  /\ lookup addrA (collectNames domains) = Some accented
  /\ shortestOf domains (collectNames domains).
Proof.
  cbv zeta.
  split; [vm_compute; lia|]. split; [vm_compute; lia|].
  split; [vm_compute; reflexivity|].
  apply collectNames_keeps_shortest.
  repeat (apply Forall_cons; [right; vm_compute; reflexivity|]).
  apply Forall_nil.
Defined.

(* ================================================================== *)
(** * The leaderboard *)

Lemma Qcmult_neg1 (x : Qc) : (x * lit (-1) = - x)%Qc.
Proof.
  assert (E : lit (N:=Qc) (-1) = (- (1))%Qc) by (apply Qc_is_canon; reflexivity).
  rewrite E. ring.
Qed.

Lemma Qclt_minus (a b : Qc) : (0 < b - a <-> a < b)%Qc.
Proof. symmetry. apply Qclt_minus_iff. Qed.

Lemma orchAfter_exact (by_ : Column * Direction) (a b : Orch (N:=Qc)) :
  orchAfter by_ a b = true <-> ~ inOrder by_ a b.
Proof.
  unfold orchAfter, inOrder. destruct by_ as [col []]; cbn [fst snd];
    cbn -[lit column]; rewrite lit_0, Qcltb_true.
  - rewrite Qcmult_neg1.
    replace (- (column col a - column col b))%Qc
      with (column col b - column col a)%Qc by ring.
    rewrite Qclt_minus. split.
    + intros Hlt Hle. exact (Qcle_not_lt _ _ Hle Hlt).
    + apply Qcnot_le_lt.
  - rewrite lit_1, Qcmult_1_r, Qclt_minus. split.
    + intros Hlt Hle. exact (Qcle_not_lt _ _ Hle Hlt).
    + apply Qcnot_le_lt.
Qed.

Lemma inOrder_total (by_ : Column * Direction) (a b : Orch (N:=Qc)) :
  ~ inOrder by_ a b -> inOrder by_ b a.
Proof.
  unfold inOrder. destruct (snd by_); intros Hn;
    apply Qclt_le_weak, Qcnot_le_lt, Hn.
Qed.

Lemma inOrder_trans (by_ : Column * Direction) (a b c : Orch (N:=Qc)) :
  inOrder by_ a b -> inOrder by_ b c -> inOrder by_ a c.
Proof.
  unfold inOrder. destruct (snd by_); intros H1 H2;
    eapply Qcle_trans; eassumption.
Qed.

(** X9. Over exact numbers, the leaderboard is in the order of the chosen
    column and direction; orchestrators with equal values of the column keep
    the order the indexing service gave them; and the order to begin with
    is the projected reward yield, descending. *)
Theorem leaderboard_sorted_and_stable :
  forall s : State (N:=Qc),
    let listed := filter (keeps (orchFilter s)) (orEmpty (orchData s)) in
    StronglySorted (inOrder (orchSort s)) (filteredOrchs s)
    /\ (forall v : Qc,
           filter (fun o => Qc_eq_bool (column (fst (orchSort s)) o) v)
                  (filteredOrchs s)
           = filter (fun o => Qc_eq_bool (column (fst (orchSort s)) o) v)
                    listed)
    /\ orchSort (initialState (N:=Qc)) = (Col_rewardAPY, Desc).
Proof.
  intros s. cbv zeta. unfold filteredOrchs. split; [|split].
  - apply (sort_sorted (orchAfter (orchSort s)) (inOrder (orchSort s))).
    + intros x y z. apply inOrder_trans.
    + intros x y Hf. destruct (orchAfter_exact (orchSort s) x y) as [_ Hb].
      unfold inOrder in *. destruct (snd (orchSort s));
        apply Qcnot_lt_le; intros Hlt; rewrite Hb in Hf;
        try discriminate; intros Hle; exact (Qcle_not_lt _ _ Hle Hlt).
    + intros x y Ht. apply inOrder_total. now apply orchAfter_exact.
  - intros v. apply sort_stable.
    intros x y Hx Hy. apply Qc_eq_bool_true in Hx, Hy.
    destruct (orchAfter (orchSort s) x y) eqn:E; [|reflexivity].
    apply orchAfter_exact in E. exfalso. apply E.
    unfold inOrder. rewrite Hx, Hy. destruct (snd (orchSort s)); apply Qcle_refl.
  - reflexivity.
Qed.

(* ================================================================== *)
(** * Rank and counts *)

Lemma findIndex_spec {A} (p : A -> bool) (l : list A) :
  (findIndex p l = -1 /\ forallb (fun x => negb (p x)) l = true)
  \/ (exists before x after,
         l = (before ++ x :: after)%list
         /\ forallb (fun y => negb (p y)) before = true
         /\ p x = true
         /\ findIndex p l = Z.of_nat (List.length before)).
Proof.
  induction l as [|x l IH]; cbn [findIndex forallb].
  - now left.
  - destruct (p x) eqn:Ex.
    + right. exists [], x, l. repeat split; auto.
    + cbn [negb andb]. destruct IH as [[Hi Hall]|(before & y & after & -> & Hb & Hy & Hi)].
      * left. rewrite Hi. cbn. auto.
      * right. exists (x :: before), y, after. rewrite Hi.
        assert (Hlt : (Z.of_nat (List.length before) <? 0) = false)
          by (apply Z.ltb_ge; lia).
        cbv zeta. rewrite Hlt. cbn [forallb List.length]. rewrite Ex.
        repeat split; auto. lia.
Qed.

Section Rank.
Context {N : Type} `{JSNumber N}.

(** X10. The rank shown for the delegator's own orchestrator is between 0
    and the length of the leaderboard; it is 0 exactly when no row of the
    leaderboard is that orchestrator (as when there is no delegate);
    otherwise the row at that rank is the first row of the orchestrator. *)
Theorem rank_of_the_current_orchestrator :
  forall s : State (N:=N),
    (0 <= currentOrchRank s <= Z.of_nat (List.length (filteredOrchs s)))%Z
    /\ (currentOrchRank s = 0%Z
        <-> Forall (fun o => isCurrent s o = false) (filteredOrchs s))
    /\ (forall o,
           nth_error (filteredOrchs s) (Z.to_nat (currentOrchRank s - 1))
           = Some o ->
           (0 < currentOrchRank s)%Z ->
           isCurrent s o = true
           /\ Forall (fun o' => isCurrent s o' = false)
                (firstn (Z.to_nat (currentOrchRank s - 1))
                        (filteredOrchs s)))
    /\ (currentOrchId s = None -> currentOrchRank s = 0%Z).
Proof.
  intros s. unfold currentOrchRank.
  assert (Hall : forall l : list (Orch (N:=N)),
             forallb (fun x => negb (isCurrent s x)) l = true
             <-> Forall (fun o => isCurrent s o = false) l).
  { intros l. rewrite forallb_forall, Forall_forall.
    split; intros Hl x Hx; specialize (Hl x Hx);
      destruct (isCurrent s x); auto; discriminate. }
  destruct (findIndex_spec (isCurrent s) (filteredOrchs s))
    as [[Hi Hnone]|(before & x & after & Hl & Hb & Hx & Hi)].
  - rewrite Hi. split; [lia|]. split; [|split].
    + split; [intros _; now apply Hall | reflexivity].
    + intros o _ Hpos. lia.
    + reflexivity.
  - rewrite Hi, Hl. rewrite length_app. cbn [List.length].
    split; [lia|]. split; [|split].
    + split; [lia|]. intros Hno. exfalso.
      rewrite Forall_forall in Hno.
      assert (Hin : In x (before ++ x :: after)) by (apply in_elt).
      rewrite (Hno x Hin) in Hx. discriminate.
    + intros o Hnth _.
      replace (Z.to_nat (Z.of_nat (List.length before) + 1 - 1))
        with (List.length before) in * by lia.
      rewrite nth_error_app2 in Hnth by lia.
      rewrite Nat.sub_diag in Hnth. cbn in Hnth. injection Hnth as <-.
      split; [exact Hx|].
      rewrite firstn_app, Nat.sub_diag, firstn_all. cbn [firstn].
      rewrite app_nil_r. now apply Hall.
    + intros Hid. unfold isCurrent in Hx. rewrite Hid in Hx. discriminate.
Qed.

(** X11. The leaderboard holds the orchestrators that pass the filter, each
    once, whatever the order: its length is the number of working
    orchestrators under the filter [working], and the number of
    orchestrators loaded under [all]; the former is at most the latter. *)
Theorem leaderboard_length :
  forall s : State (N:=N),
    (workingCount s <= List.length (orEmpty (orchData s)))%nat
    /\ List.length (filteredOrchs s)
       = match orchFilter s with
         | F_working => workingCount s
         | F_all => List.length (orEmpty (orchData s))
         end
    /\ Permutation (filteredOrchs s)
                   (filter (keeps (orchFilter s)) (orEmpty (orchData s))).
Proof.
  intros s. unfold workingCount, filteredOrchs. split; [|split].
  - apply filter_length_le.
  - rewrite (Permutation_length (sort_perm _ _)).
    destruct (orchFilter s); cbn [keeps].
    + reflexivity.
    + clear. induction (orEmpty (orchData s)); cbn; auto.
  - apply sort_perm.
Qed.

(** X12. A click on a sortable header sorts by its column: descending if
    the leaderboard was sorted by another column; a second click reverses
    the direction and a third restores that of the first.  A click changes
    neither the orchestrators nor the filter, and sends no request. *)
Theorem header_click_toggles :
  forall (col : Column) (w : World (N:=N)),
    let w1 := run (clickHeader col) w in
    let w2 := run (clickHeader col) w1 in
    let w3 := run (clickHeader col) w2 in
    fst (orchSort (state w1)) = col
    /\ (fst (orchSort (state w)) <> col -> orchSort (state w1) = (col, Desc))
    /\ orchSort (state w2)
       = (col, match snd (orchSort (state w1)) with
               | Desc => Asc
               | Asc => Desc
               end)
    /\ orchSort (state w3) = orchSort (state w1)
    /\ orchData (state w1) = orchData (state w)
    /\ orchFilter (state w1) = orchFilter (state w)
    /\ requests w1 = requests w.
Proof.
  intros col w. cbv zeta. unfold run, clickHeader, updateOrchSort, modify.
  cbn. unfold toggled.
  destruct (orchSort (state w)) as [c d]. cbn [fst snd].
  destruct c, d, col; cbn; repeat split; auto; intros; congruence.
Qed.
End Rank.

Lemma rank_of_the_current_orchestrator_witness :
  currentOrchId (state delegated2) = Some addrB
  /\ map o_id (filteredOrchs (state delegated2)) = [addrC; addrB]
  /\ currentOrchRank (state delegated2) = 2%Z
  /\ exists o,
       nth_error (filteredOrchs (state delegated2)) 1 = Some o
       /\ isCurrent (state delegated2) o = true.
Proof.
  assert (Hrank : currentOrchRank (state delegated2) = 2%Z)
    by (vm_compute; reflexivity).
  assert (Hnth : exists o,
             nth_error (filteredOrchs (state delegated2))
                       (Z.to_nat (currentOrchRank (state delegated2) - 1))
             = Some o)
    by (vm_compute; eexists; reflexivity).
  destruct Hnth as [o Ho].
  destruct (rank_of_the_current_orchestrator (state delegated2))
    as (_ & _ & Hrow & _).
  destruct (Hrow o Ho) as [Hcurrent _]; [rewrite Hrank; reflexivity|].
  split; [vm_compute; reflexivity|].
  split; [vm_compute; reflexivity|].
  split; [exact Hrank|].
  exists o. split; [|exact Hcurrent].
  rewrite Hrank in Ho. exact Ho.
Defined.

(* ================================================================== *)
(** * Lifetime totals *)

Lemma ofNat_S (n : nat) : ofNat (S n) = (1 + ofNat n)%Qc.
Proof.
  unfold ofNat. apply Qc_is_canon. cbn [this Qcplus Q2Qc].
  rewrite !Qred_correct. rewrite Nat2Z.inj_succ. unfold Z.succ.
  rewrite inject_Z_plus. ring.
Qed.

Lemma rounds_at_least_one (c : RawClaim) :
  (1 <= c_rounds (mkClaim (N:=Qc) c))%Qc.
Proof. cbn -[lit]. rewrite lit_1. apply Qcmax_lower_r. Qed.

Lemma totalRounds_from (l : list RawClaim) (acc : Qc) :
  (acc + ofNat (List.length l)
   <= fold_left (fun s c => (s + c_rounds c)%js) (map (mkClaim (N:=Qc)) l) acc)%Qc.
Proof.
  revert acc. induction l as [|c l IH]; intros acc; cbn [map fold_left List.length].
  - replace (ofNat 0) with 0%Qc by (apply Qc_is_canon; reflexivity).
    rewrite Qcplus_0_r. apply Qcle_refl.
  - eapply Qcle_trans; [|apply IH].
    rewrite ofNat_S.
    replace (acc + (1 + ofNat (List.length l)))%Qc
      with ((acc + 1) + ofNat (List.length l))%Qc by ring.
    apply Qcplus_le_compat; [|apply Qcle_refl].
    apply Qcplus_le_compat; [apply Qcle_refl | apply rounds_at_least_one].
Qed.

Lemma ofNat_pos (n : nat) : (0 < n)%nat -> (0 < ofNat n)%Qc.
Proof.
  intros Hn. unfold ofNat, Qclt. cbn [this Q2Qc]. rewrite !Qred_correct.
  change 0%Q with (inject_Z 0). rewrite <- Zlt_Qlt. lia.
Qed.

(** X13. Over exact numbers, with data built from the answers: the total
    of rounds is at least the number of claims; without claims the totals
    are 0, the series is empty and both averages show the placeholder that
    the source has for them, the literal [emDash]; with a claim
    both averages are the totals divided by the total of rounds, in 2 and 6
    decimals (the division is never by zero). *)
Theorem average_shown_iff_claims :
  forall (addr : string) (del : RawDelegator)
         (earnData : option (list RawClaim)) (evtData : RawEvents)
         (s : State (N:=Qc)),
    data s = Some (mkData addr del earnData evtData) ->
    (ofNat (List.length (claims s)) <= totalRounds s)%Qc
    /\ match orEmpty earnData with
       | [] =>
           earned s = lit 0 /\ totalETH s = lit 0 /\ totalRounds s = lit 0
           /\ cumData s = []
           /\ avgPerRound s = emDash /\ avgETHPerRound s = emDash
       | _ :: _ =>
           avgPerRound s = toFixed (earned s / totalRounds s)%js 2
           /\ avgETHPerRound s = toFixed (totalETH s / totalRounds s)%js 6
       end.
Proof.
  intros addr del earnData evtData s Hs.
  assert (Hrounds : (ofNat (List.length (claims s)) <= totalRounds s)%Qc).
  { unfold claims, totalRounds. rewrite Hs, orZero_exact.
    cbn [d_claims d_totalRounds mkData]. unfold mkClaims.
    rewrite length_map.
    pose proof (totalRounds_from (orEmpty earnData) (lit 0)) as Hle.
    rewrite lit_0, Qcplus_0_l in Hle. rewrite lit_0. exact Hle. }
  split; [exact Hrounds|].
  unfold avgPerRound, avgETHPerRound.
  destruct (orEmpty earnData) as [|c l] eqn:E.
  - unfold earned, totalETH, totalRounds, cumData, claims in *. rewrite Hs.
    cbn [d_claims d_earned d_totalETH d_totalRounds mkData].
    unfold mkClaims. rewrite E. cbn [map fold_left cumFrom].
    rewrite !orZero_exact. repeat split; reflexivity.
  - assert (Hpos : gt (totalRounds s) (lit 0) = true).
    { cbn -[lit]. rewrite lit_0. apply Qcltb_true.
      eapply Qclt_le_trans; [|exact Hrounds].
      apply ofNat_pos. unfold claims. rewrite Hs.
      cbn [d_claims mkData]. unfold mkClaims. rewrite E. cbn. lia. }
    rewrite Hpos. split; reflexivity.
Qed.

(* ================================================================== *)
(** * The end of the cumulative series *)

Lemma last_cons {A} (x d : A) (l : list A) : last (x :: l) d = last l x.
Proof.
  revert x d. induction l as [|y l IH]; intros x d; [reflexivity|].
  change (last (x :: y :: l) d) with (last (y :: l) d).
  now rewrite !IH.
Qed.

Lemma cumFrom_last {N} `{JSNumber N} (cs : list Claim) :
  forall cl ce : N,
    last (map cp_lpt (cumFrom cl ce cs)) (toFixedNumber cl 2)
    = toFixedNumber (fold_left (fun s c => (s + c_lpt c)%js) cs cl) 2
    /\ last (map cp_eth (cumFrom cl ce cs)) (toFixedNumber ce 5)
       = toFixedNumber (fold_left (fun s c => (s + c_eth c)%js) cs ce) 5.
Proof.
  induction cs as [|c cs IH]; intros cl ce.
  - split; reflexivity.
  - cbn [cumFrom map fold_left cp_lpt cp_eth]. rewrite !last_cons.
    apply IH.
Qed.

(** X14. With data built from the answers, the last point of the
    cumulative series is the lifetime totals, rounded: the LPT earned to 2
    decimals and the ETH fees to 5 (and the rounded 0 for both if there is
    no claim). *)
Theorem series_ends_at_the_totals :
  forall (N : Type) (H : JSNumber N) (addr : string) (del : RawDelegator)
         (earnData : option (list RawClaim)) (evtData : RawEvents)
         (s : State (N:=N)),
    data s = Some (mkData addr del earnData evtData) ->
    last (map cp_lpt (cumData s)) (toFixedNumber (lit 0) 2)
    = toFixedNumber (d_earned (mkData addr del earnData evtData)) 2
    /\ last (map cp_eth (cumData s)) (toFixedNumber (lit 0) 5)
       = toFixedNumber (d_totalETH (mkData addr del earnData evtData)) 5.
Proof.
  intros N H addr del earnData evtData s Hs.
  unfold cumData, claims. rewrite Hs. cbn [d_claims d_earned d_totalETH mkData].
  apply cumFrom_last.
Qed.

Lemma average_shown_iff_claims_witness :
  avgPerRound (state delegated1) = "4.17"
  /\ avgETHPerRound (state delegated1) = "0.000833"
  /\ avgPerRound (state session1) = emDash.
Proof.
  pose proof (average_shown_iff_claims addrA
                {| rd_id := addrA; rd_bondedAmount := whole 1000;
                   rd_fees := whole 0; rd_withdrawnFees := whole 0;
                   rd_startRound := whole 1;
                   rd_delegate := Some
                     {| dg_id := addrB; dg_totalStake := whole 20000;
                        dg_rewardCut := whole 100000;
                        dg_feeShare := whole 500000;
                        dg_thirtyDayVolumeETH := whole 0 |} |}
                (Some [claimOf 1000 10 10 (whole 5) (mkDecimal 1 3);
                       claimOf 2000 11 15 (whole 20) (mkDecimal 4 3)])
                noEvents (state delegated1)) as Hwith.
  pose proof (average_shown_iff_claims addrA (delegatorOf addrA (whole 1000))
                (Some []) noEvents (state session1)) as Hnone.
  destruct Hwith as (_ & Hlpt & Heth); [vm_compute; reflexivity|].
  destruct Hnone as (_ & _ & _ & _ & _ & Hdash & _);
    [vm_compute; reflexivity|].
  split; [rewrite Hlpt; vm_compute; reflexivity|].
  split; [rewrite Heth; vm_compute; reflexivity|].
  exact Hdash.
Defined.

Lemma series_ends_at_the_totals_witness :
  map (fun p => this (cp_lpt p)) (cumData (state delegated1))
  = [5; 25]%Q
  /\ this (d_earned (mkData (N:=Qc) addrA (delegatorOf addrA (whole 1000))
                            (Some [claimOf 1000 10 10 (whole 5) (mkDecimal 1 3);
                                   claimOf 2000 11 15 (whole 20)
                                           (mkDecimal 4 3)])
                            noEvents)) = 25%Q
  /\ last (map cp_lpt (cumData (state delegated1))) (toFixedNumber (lit 0) 2)
     = toFixedNumber (Q2Qc 25) 2.
Proof.
  split; [vm_compute; reflexivity|]. split; [vm_compute; reflexivity|].
  destruct (series_ends_at_the_totals Qc _ addrA
              {| rd_id := addrA; rd_bondedAmount := whole 1000;
                 rd_fees := whole 0; rd_withdrawnFees := whole 0;
                 rd_startRound := whole 1;
                 rd_delegate := Some
                   {| dg_id := addrB; dg_totalStake := whole 20000;
                      dg_rewardCut := whole 100000;
                      dg_feeShare := whole 500000;
                      dg_thirtyDayVolumeETH := whole 0 |} |}
              (Some [claimOf 1000 10 10 (whole 5) (mkDecimal 1 3);
                     claimOf 2000 11 15 (whole 20) (mkDecimal 4 3)])
              noEvents (state delegated1)) as [Hlpt _];
    [vm_compute; reflexivity|].
  rewrite Hlpt. apply Qc_is_canon. vm_compute. reflexivity.
Defined.

(* ================================================================== *)
(** * The rounding of the series *)

Lemma this_halfUnit (f : nat) :
  (this (halfUnit f) == (1 # 2) / inject_Z (pow10 f))%Q.
Proof. unfold halfUnit. cbn [this Q2Qc]. apply Qred_correct. Qed.

Lemma pow10_Qpos (f : nat) : (0 < inject_Z (pow10 f))%Q.
Proof.
  change 0%Q with (inject_Z 0). rewrite <- Zlt_Qlt. apply pow10_pos.
Qed.

Lemma toFixedNumber_within (f : nat) (x : Qc) :
  (0 <= x)%Qc -> within f (toFixedNumber x f) x.
Proof.
  intros Hx. unfold within, toFixedNumber. cbn [exact ExactNumber Number_].
  destruct (Qcabs_nonneg x Hx) as [-> ->]. fold bound21.
  assert (Hh : (0 <= this (halfUnit f))%Q).
  { rewrite this_halfUnit. apply Qle_shift_div_l; [apply pow10_Qpos|].
    rewrite Qmult_0_l. discriminate. }
  destruct (Qcltb x bound21).
  - pose proof (pow10_Qpos f) as Hp.
    pose proof (Qfloor_le (this x * inject_Z (pow10 f) + (1 # 2))) as Hlo.
    pose proof (Qlt_floor (this x * inject_Z (pow10 f) + (1 # 2))) as Hhi.
    fold (nearest f x) in Hlo, Hhi.
    rewrite inject_Z_plus in Hhi. change (inject_Z 1) with 1%Q in Hhi.
    set (n := inject_Z (nearest f x)) in *.
    set (p := inject_Z (pow10 f)) in *.
    assert (Hn : (this (decimalQ (mkDecimal (nearest f x) f)) == n / p)%Q)
      by apply this_decimalQ.
    unfold Qcle. cbn [this Qcminus Qcplus Qcopp Q2Qc].
    rewrite !Qred_correct, Hn, this_halfUnit. fold p.
    assert (Hhp : ((1 # 2) / p * p == 1 # 2)%Q) by (field; lra).
    set (h := ((1 # 2) / p)%Q) in *.
    split.
    + apply Qle_shift_div_l; [exact Hp|].
      assert (E : ((this x + - h) * p == this x * p - h * p)%Q) by ring.
      rewrite E, Hhp. clearbody n p h. lra.
    + apply Qle_shift_div_r; [exact Hp|].
      assert (E : ((this x + h) * p == this x * p + h * p)%Q) by ring.
      rewrite E, Hhp. clearbody n p h. lra.
  - unfold Qcle. cbn [this Qcminus Qcplus Qcopp Q2Qc].
    rewrite !Qred_correct. split; lra.
Qed.

Lemma prefixSums_nonneg (xs : list Qc) (acc : Qc) :
  (0 <= acc)%Qc -> Forall (fun x => 0 <= x)%Qc xs ->
  Forall (fun t => 0 <= t)%Qc (prefixSums acc xs).
Proof.
  revert acc. induction xs as [|x xs IH]; intros acc Hacc Hxs; cbn.
  - constructor.
  - inversion Hxs as [|? ? Hx Hrest]; subst.
    destruct (Qcplus_nonneg acc x Hacc Hx) as [Hsum _].
    constructor; [exact Hsum | now apply IH].
Qed.

(** X15. Over exact numbers, with claims that are not negative, every
    point of the cumulative series is within half a unit of its last
    decimal of the exact running total: 0.005 LPT and 0.000005 ETH. *)
Theorem series_within_half_a_unit :
  forall s : State (N:=Qc),
    Forall nonNegative (claims s) ->
    Forall2 (fun p t => within 2 (cp_lpt p) t) (cumData s)
            (prefixSums (lit 0) (map c_lpt (claims s)))
    /\ Forall2 (fun p t => within 5 (cp_eth p) t) (cumData s)
               (prefixSums (lit 0) (map c_eth (claims s))).
Proof.
  intros s Hs. unfold cumData.
  assert (Hgen : forall cs cl ce,
             (0 <= cl)%Qc -> (0 <= ce)%Qc -> Forall nonNegative cs ->
             Forall2 (fun p t => within 2 (cp_lpt p) t) (cumFrom cl ce cs)
                     (prefixSums cl (map c_lpt cs))
             /\ Forall2 (fun p t => within 5 (cp_eth p) t) (cumFrom cl ce cs)
                        (prefixSums ce (map c_eth cs))).
  { induction cs as [|c cs IH]; intros cl ce Hcl Hce Hcs;
      cbn [cumFrom map prefixSums].
    - split; constructor.
    - inversion Hcs as [|? ? [Hl He] Hrest]; subst.
      destruct (Qcplus_nonneg cl (c_lpt c) Hcl Hl) as [Hl0 _].
      destruct (Qcplus_nonneg ce (c_eth c) Hce He) as [He0 _].
      destruct (IH _ _ Hl0 He0 Hrest) as [IHl IHe].
      split; constructor; auto; cbn [cp_lpt cp_eth];
        now apply toFixedNumber_within. }
  apply Hgen; [rewrite lit_0; apply Qcle_refl .. | exact Hs].
Qed.

(* ================================================================== *)
(** * Kinds of timeline entries *)

Lemma decimalQ_zero (d : Decimal) : decimalQ d = 0%Qc <-> mantissa d = 0%Z.
Proof.
  destruct d as [m k]. unfold decimalQ. cbn [mantissa scale]. split.
  - intros E. apply (f_equal this) in E. cbn [this Q2Qc] in E.
    assert (Hq : (inject_Z m / inject_Z (pow10 k) == 0)%Q).
    { rewrite <- (Qred_correct (_ / _)), E. reflexivity. }
    pose proof (pow10_Qpos k) as Hp.
    assert (Hm : (inject_Z m == 0)%Q).
    { setoid_replace (inject_Z m)
        with (inject_Z m / inject_Z (pow10 k)
              * inject_Z (pow10 k))%Q by (field; lra).
      rewrite Hq. ring. }
    exact (proj1 (inject_Z_injective m 0) Hm).
  - intros ->. apply Qc_is_canon. cbn [this Q2Qc]. rewrite !Qred_correct.
    change (inject_Z 0) with 0%Q. unfold Qdiv. ring.
Qed.

(** X16. Over exact numbers, a bond event is shown as a redelegation
    exactly when its additional amount is zero and it names an old
    delegate, and as a bond otherwise; the text of a redelegation names the
    new delegate. *)
Theorem bond_is_redelegation_iff :
  forall e : RawBond,
    (e_t (bondEntry (N:=Qc) e) = K_redelegate
     <-> mantissa (rb_additionalAmount e) = 0%Z /\ rb_oldDelegate e <> None)
    /\ (e_t (bondEntry (N:=Qc) e) = K_redelegate
        \/ e_t (bondEntry (N:=Qc) e) = K_bond)
    /\ (e_t (bondEntry (N:=Qc) e) = K_redelegate ->
        e_desc (bondEntry (N:=Qc) e)
        = "Moved delegation to " ++ fmtAddr (rb_newDelegate e)).
Proof.
  intros e. unfold bondEntry. cbn -[lit fmtN fmtAddr].
  rewrite lit_0.
  destruct (Qc_eq_bool (decimalQ (rb_additionalAmount e)) 0) eqn:E.
  - apply Qc_eq_bool_true, decimalQ_zero in E.
    destruct (rb_oldDelegate e); cbn; repeat split; auto;
      try discriminate; intros; intuition congruence.
  - assert (Hn : mantissa (rb_additionalAmount e) <> 0%Z).
    { intros Hm. apply decimalQ_zero, Qc_eq_bool_true in Hm. congruence. }
    cbn. repeat split; auto; try discriminate; intros; intuition congruence.
Qed.

Lemma count_kind_sort {N} `{JSNumber N} (k : EventKind) (l : list Event) :
  List.length (filter (fun e => kind_eqb (e_t e) k) (sort laterThan l))
  = List.length (filter (fun e => kind_eqb (e_t e) k) l).
Proof.
  apply Permutation_length.
  clear. generalize (sort_perm laterThan l).
  generalize (sort laterThan l). intros l' Hp.
  induction Hp; cbn; auto.
  - destruct (kind_eqb (e_t x) k); auto.
  - destruct (kind_eqb (e_t x) k), (kind_eqb (e_t y) k); auto. constructor.
  - etransitivity; eauto.
Qed.

(** X17. The timeline has one entry for every event and every claim the
    answers hold, and no other: its length is the sum of the six lengths,
    and kind by kind the entries are as many as the events of that kind
    (bonds and redelegations together are the bond events). *)
Theorem timeline_has_one_entry_per_event :
  forall (N : Type) (H : JSNumber N) (addr : string) (del : RawDelegator)
         (earnData : option (list RawClaim)) (evtData : RawEvents),
    let d := mkData (N:=N) addr del earnData evtData in
    let count k :=
      List.length (filter (fun e => kind_eqb (e_t e) k) (d_events d)) in
    List.length (d_events d)
    = (List.length (orEmpty (bondEvents evtData))
       + List.length (orEmpty (unbondEvents evtData))
       + List.length (orEmpty (rebondEvents evtData))
       + List.length (orEmpty (withdrawStakeEvents evtData))
       + List.length (orEmpty (withdrawFeesEvents evtData))
       + List.length (orEmpty earnData))%nat
    /\ count K_claim = List.length (d_claims d)
    /\ (count K_bond + count K_redelegate)%nat
       = List.length (orEmpty (bondEvents evtData))
    /\ count K_unbond = List.length (orEmpty (unbondEvents evtData))
    /\ count K_rebond = List.length (orEmpty (rebondEvents evtData))
    /\ count K_withdraw = List.length (orEmpty (withdrawStakeEvents evtData))
    /\ count K_withdrawFees
       = List.length (orEmpty (withdrawFeesEvents evtData)).
Proof.
  intros N H addr del earnData evtData. cbv zeta.
  cbn [d_events d_claims mkData]. unfold timeline.
  rewrite (Permutation_length (sort_perm _ _)).
  rewrite !count_kind_sort.
  unfold stakeEntries, mkClaims.
  rewrite !filter_app, !length_app, !length_map.
  assert (Hmap : forall A (f : A -> Event (N:=N)) (t k : EventKind) l,
             (forall x, e_t (f x) = t) ->
             List.length (filter (fun e => kind_eqb (e_t e) k) (map f l))
             = if kind_eqb t k then List.length l else 0%nat).
  { intros A f t k l Hf. induction l as [|x l IH]; cbn.
    - now destruct (kind_eqb t k).
    - rewrite Hf. destruct (kind_eqb t k); cbn; now rewrite IH. }
  assert (Hamount : forall t before after dd unit k l,
             List.length (filter (fun e => kind_eqb (e_t e) k)
                            (map (amountEntry (N:=N) t before after dd unit) l))
             = if kind_eqb t k then List.length l else 0%nat).
  { intros. apply Hmap. reflexivity. }
  assert (Hclaim : forall k (l : list (Claim (N:=N))),
             List.length (filter (fun e => kind_eqb (e_t e) k)
                            (map claimEntry l))
             = if kind_eqb K_claim k then List.length l else 0%nat).
  { intros. apply Hmap. reflexivity. }
  assert (Hkind : forall x : RawBond,
             e_t (bondEntry (N:=N) x) = K_bond
             \/ e_t (bondEntry (N:=N) x) = K_redelegate).
  { intros x. unfold bondEntry. cbn [e_t].
    destruct (strictEq _ _ && isSome _); auto. }
  assert (Hbond : forall l,
             (List.length (filter (fun e => kind_eqb (e_t e) K_bond)
                             (map (bondEntry (N:=N)) l))
              + List.length (filter (fun e => kind_eqb (e_t e) K_redelegate)
                               (map (bondEntry (N:=N)) l)))%nat
             = List.length l).
  { induction l as [|x l IH]; [reflexivity|]. cbn [map filter].
    destruct (Hkind x) as [-> | ->]; cbn; lia. }
  assert (Hnot : forall k l, k <> K_bond -> k <> K_redelegate ->
             List.length (filter (fun e => kind_eqb (e_t e) k)
                            (map (bondEntry (N:=N)) l)) = 0%nat).
  { intros k l Hb Hr. induction l as [|x l IH]; [reflexivity|].
    cbn [map filter].
    destruct (Hkind x) as [-> | ->]; destruct k; cbn; congruence. }
  pose proof (Hbond (orEmpty (bondEvents evtData))) as Hb.
  rewrite !Hamount, !Hclaim. cbn [kind_eqb]. rewrite !length_map.
  repeat split; rewrite ?(Hnot _ _) by discriminate; lia.
Qed.

Lemma series_within_half_a_unit_witness :
  let s := state (run (N:=Qc) (loadDelegator net_small_claim addrA) world0) in
  map (fun p => this (cp_lpt p)) (cumData s) = [0]%Q
  /\ map this (prefixSums (lit 0) (map c_lpt (claims s))) = [1 # 1000]%Q
  /\ Forall2 (fun p t => within 2 (cp_lpt p) t) (cumData s)
             (prefixSums (lit 0) (map c_lpt (claims s))).
Proof.
  cbv zeta.
  split; [vm_compute; reflexivity|]. split; [vm_compute; reflexivity|].
  apply (series_within_half_a_unit
           (state (run (N:=Qc) (loadDelegator net_small_claim addrA) world0))).
  repeat constructor; vm_compute; discriminate.
Defined.

(* ================================================================== *)
(** * Exact arithmetic, as rationals *)

Lemma this_plus (a b : Qc) : (this (a + b)%Qc == this a + this b)%Q.
Proof. cbn [this Qcplus Q2Qc]. apply Qred_correct. Qed.

Lemma this_mult (a b : Qc) : (this (a * b)%Qc == this a * this b)%Q.
Proof. cbn [this Qcmult Q2Qc]. apply Qred_correct. Qed.

Lemma this_opp (a : Qc) : (this (- a)%Qc == - this a)%Q.
Proof. cbn [this Qcopp Q2Qc]. apply Qred_correct. Qed.

Lemma this_minus (a b : Qc) : (this (a - b)%Qc == this a - this b)%Q.
Proof. unfold Qcminus. rewrite this_plus, this_opp. reflexivity. Qed.

Lemma this_inv (a : Qc) : (this (/ a)%Qc == / this a)%Q.
Proof. cbn [this Qcinv Q2Qc]. apply Qred_correct. Qed.

Lemma this_div (a b : Qc) : (this (a / b)%Qc == this a / this b)%Q.
Proof. unfold Qcdiv. rewrite this_mult, this_inv. reflexivity. Qed.

Lemma this_lit (z : Z) : (this (lit (N:=Qc) z) == inject_Z z)%Q.
Proof. rewrite lit_exact. cbn [this Q2Qc]. apply Qred_correct. Qed.

Lemma this_Q2Qc (q : Q) : (this (Q2Qc q) == q)%Q.
Proof. cbn [this Q2Qc]. apply Qred_correct. Qed.

Ltac to_Q :=
  unfold Qcle, Qclt in *;
  change (this 0%Qc) with 0%Q in *;
  change (this 1%Qc) with 1%Q in *;
  repeat (rewrite ?this_plus, ?this_minus, ?this_mult, ?this_opp, ?this_div,
            ?this_lit, ?this_Q2Qc in * );
  change (this 0%Qc) with 0%Q in *;
  change (this 1%Qc) with 1%Q in *.

(* ================================================================== *)
(** * The animated counter *)

Lemma Qcmin_cases (a : Qc) :
  (a <= 1 /\ Qcmin a 1 = a) \/ (1 < a /\ Qcmin a 1 = 1)%Qc.
Proof.
  unfold Qcmin. destruct (Qcltb 1 a) eqn:E.
  - right. split; [now apply Qcltb_true | reflexivity].
  - left. split; [now apply Qcltb_false | reflexivity].
Qed.

Lemma progress_bounds (t0 now : Qc) :
  (t0 <= now)%Qc ->
  let p := Qcmin ((now - t0) / dur) 1 in
  (0 <= p)%Qc /\ (p <= 1)%Qc
  /\ ((t0 + dur <= now)%Qc -> p = 1%Qc)
  /\ ((now < t0 + dur)%Qc -> (p < 1)%Qc)
  /\ (now = t0 -> p = 0%Qc).
Proof.
  intros Hnow. cbv zeta.
  assert (Hdur : (this dur == 1200)%Q) by (unfold dur; apply this_Q2Qc).
  destruct (Qcmin_cases ((now - t0) / dur)) as [[Hle ->]|[Hlt ->]].
  - assert (Hp0 : (0 <= (now - t0) / dur)%Qc).
    { to_Q. rewrite Hdur in *; unfold Qdiv in *; change (/ 1200)%Q with (1 # 1200)%Q in *. lra. }
    split; [exact Hp0|]. split; [exact Hle|]. split; [|split].
    + intros Hend. apply Qcle_antisym; [exact Hle|].
      to_Q. rewrite Hdur in *; unfold Qdiv in *; change (/ 1200)%Q with (1 # 1200)%Q in *. lra.
    + intros Hmid. to_Q. rewrite Hdur in *; unfold Qdiv in *; change (/ 1200)%Q with (1 # 1200)%Q in *.
      lra.
    + intros ->. apply Qc_is_canon. to_Q. rewrite Hdur in *; unfold Qdiv in *; change (/ 1200)%Q with (1 # 1200)%Q in *.
      ring.
  - split; [|split; [apply Qcle_refl|split; [reflexivity|split]]].
    + to_Q. lra.
    + intros Hmid. exfalso. to_Q. rewrite Hdur in *; unfold Qdiv in *; change (/ 1200)%Q with (1 # 1200)%Q in *.
      lra.
    + intros ->. exfalso. to_Q. rewrite Hdur in *; unfold Qdiv in *; change (/ 1200)%Q with (1 # 1200)%Q in *.
      lra.
Qed.

Lemma ease_bounds (p : Qc) :
  (0 <= p)%Qc -> (p <= 1)%Qc ->
  (0 <= 1 - (1 - p) ^ 3)%Qc /\ (1 - (1 - p) ^ 3 <= 1)%Qc.
Proof.
  intros H0 H1. cbn [Qcpower]. to_Q.
  set (u := (1 - this p)%Q) in *.
  assert (Hu0 : (0 <= u)%Q) by (subst u; lra).
  assert (Hu1 : (u <= 1)%Q) by (subst u; lra).
  clearbody u.
  assert (Hs0 : (0 <= u * 1)%Q) by lra.
  assert (Hs1 : (u * 1 <= 1)%Q) by lra.
  set (v := (u * 1)%Q) in *. clearbody v.
  assert (Hv0 : (0 <= u * v)%Q) by nra.
  assert (Hv1 : (u * v <= 1)%Q) by nra.
  set (z := (u * v)%Q) in *. clearbody z.
  split; nra.
Qed.

(** X18. Over exact numbers, at a frame not before the start of the
    animation the number displayed is between the value the animation
    started from and its target; from 1200 ms on it is the target and no
    further frame is requested, before that another frame is requested; at
    the very start it is the starting value. *)
Theorem animation_stays_between_and_ends :
  forall start target t0 now : Qc,
    (t0 <= now)%Qc ->
    let '(shown, again) := tick start target t0 now in
    ((start <= target)%Qc -> (start <= shown)%Qc /\ (shown <= target)%Qc)
    /\ ((target <= start)%Qc -> (target <= shown)%Qc /\ (shown <= start)%Qc)
    /\ ((t0 + dur <= now)%Qc -> shown = target /\ again = false)
    /\ ((now < t0 + dur)%Qc -> again = true)
    /\ (now = t0 -> shown = start).
Proof.
  intros start target t0 now Hnow. unfold tick.
  destruct (progress_bounds t0 now Hnow) as (Hp0 & Hp1 & Hend & Hmid & Hstart).
  set (p := Qcmin ((now - t0) / dur) 1) in *. clearbody p.
  destruct (ease_bounds p Hp0 Hp1) as [He0 He1].
  set (e := (1 - (1 - p) ^ 3)%Qc) in *.
  split; [|split; [|split; [|split]]].
  - intros Hst. clearbody e. revert He0 He1 Hst. to_Q.
    intros He0 He1 Hst.
    set (s := this start) in *. set (t := this target) in *.
    set (x := this e) in *. clearbody s t x. split; nra.
  - intros Hst. clearbody e. revert He0 He1 Hst. to_Q.
    intros He0 He1 Hst.
    set (s := this start) in *. set (t := this target) in *.
    set (x := this e) in *. clearbody s t x. split; nra.
  - intros Hdone. specialize (Hend Hdone). subst p. split.
    + subst e. cbn [Qcpower]. ring.
    + reflexivity.
  - intros Hnot. apply Qcltb_true. now apply Hmid.
  - intros Hat. specialize (Hstart Hat). subst p. subst e.
    cbn [Qcpower]. ring.
Qed.

Lemma animation_witness :
  this (fst (tick 0 (Q2Qc 80) (Q2Qc 1000) (Q2Qc 1600))) = 70%Q
  /\ snd (tick 0 (Q2Qc 80) (Q2Qc 1000) (Q2Qc 1600)) = true
  /\ (0 <= fst (tick 0 (Q2Qc 80) (Q2Qc 1000) (Q2Qc 1600)) <= Q2Qc 80)%Qc
  /\ tick 0 (Q2Qc 80) (Q2Qc 1000) (Q2Qc 2200) = (Q2Qc 80, false).
Proof.
  assert (Hmid : (Q2Qc 1000 <= Q2Qc 1600)%Qc) by (vm_compute; discriminate).
  assert (Hend : (Q2Qc 1000 <= Q2Qc 2200)%Qc) by (vm_compute; discriminate).
  pose proof (animation_stays_between_and_ends 0 (Q2Qc 80) (Q2Qc 1000)
                (Q2Qc 1600) Hmid) as H1.
  pose proof (animation_stays_between_and_ends 0 (Q2Qc 80) (Q2Qc 1000)
                (Q2Qc 2200) Hend) as H2.
  destruct (tick 0 (Q2Qc 80) (Q2Qc 1000) (Q2Qc 1600)) as [shown again] eqn:E1.
  destruct (tick 0 (Q2Qc 80) (Q2Qc 1000) (Q2Qc 2200)) as [shown' again'] eqn:E2.
  destruct H1 as (Hup & _ & _ & Hagain & _).
  destruct H2 as (_ & _ & Hdone & _).
  cbn [fst snd].
  split; [apply (f_equal (fun r => this (fst r))) in E1; vm_compute in E1;
          symmetry; exact E1|].
  split; [apply Hagain; vm_compute; reflexivity|].
  split; [apply Hup; vm_compute; discriminate|].
  destruct Hdone as [-> ->]; [vm_compute; discriminate | reflexivity].
Defined.

(* ================================================================== *)
(** * The shape of the exported text *)

Lemma occurrences_app (c : ascii) (s1 s2 : string) :
  occurrences c (s1 ++ s2) = (occurrences c s1 + occurrences c s2)%nat.
Proof. induction s1 as [|a s1 IH]; cbn; [reflexivity|]. rewrite IH. lia. Qed.

Lemma occurrences_substring (c : ascii) (s : string) :
  forall n m, (occurrences c (substring n m s) <= occurrences c s)%nat.
Proof.
  induction s as [|a s IH]; intros n m.
  - destruct n, m; cbn; lia.
  - destruct n as [|n].
    + destruct m as [|m]; cbn; [lia|]. specialize (IH 0%nat m). lia.
    + cbn. specialize (IH n m). lia.
Qed.

Lemma plain_app (s1 s2 : string) : plain s1 -> plain s2 -> plain (s1 ++ s2).
Proof.
  unfold plain. intros [H1 H2] [H3 H4]. rewrite !occurrences_app. lia.
Qed.

Lemma plain_substring (s : string) (n m : nat) :
  plain s -> plain (substring n m s).
Proof.
  unfold plain. intros [H1 H2].
  pose proof (occurrences_substring comma s n m).
  pose proof (occurrences_substring lineFeed s n m). lia.
Qed.

Lemma plain_zeros (n : nat) : plain (zeros n).
Proof. induction n; [split; reflexivity|]. destruct IHn. split; cbn; auto. Qed.

Lemma plain_uint (u : Decimal.uint) : plain (NilEmpty.string_of_uint u).
Proof.
  induction u; [split; reflexivity | ..]; destruct IHu; split; cbn; auto.
Qed.

Lemma plain_digitsOf (n : Z) : plain (digitsOf n).
Proof.
  unfold digitsOf, NilZero.string_of_uint.
  destruct (N.to_uint (Z.to_N n)) eqn:E; try (rewrite <- E; apply plain_uint).
  split; reflexivity.
Qed.

Lemma plain_fixedDigits (f : nat) (n : Z) :
  plain (fst (fixedDigits f n)) /\ plain (snd (fixedDigits f n)).
Proof.
  unfold fixedDigits. cbv zeta. cbn [fst snd].
  assert (Hm : plain (if (String.length (digitsOf n) <=? f)%nat
                      then zeros (f + 1 - String.length (digitsOf n))
                           ++ digitsOf n
                      else digitsOf n)).
  { destruct (_ <=? _)%nat; [apply plain_app; [apply plain_zeros|]|];
      apply plain_digitsOf. }
  split; now apply plain_substring.
Qed.

Lemma plain_toFixed {N} `{JSNumber N} (x : N) (f : nat) : plain (toFixed x f).
Proof.
  unfold toFixed. destruct (exact x) as [q| | |]; try (split; reflexivity).
  destruct (plain_fixedDigits f (nearest f (Qcabs q))) as [Ha Hb].
  destruct (fixedDigits f (nearest f (Qcabs q))) as [a b]. cbn [fst snd] in *.
  assert (Hs : plain (if Qcltb q 0 then "-" else ""))
    by (destruct (Qcltb q 0); split; reflexivity).
  destruct f; repeat apply plain_app; auto; split; reflexivity.
Qed.

Lemma plain_lookup (names : list (string * string)) (k : string) :
  Forall (fun kv => plain (snd kv)) names ->
  plain match lookup k names with Some name => name | None => "" end.
Proof.
  induction 1 as [|[k' v] names Hv _ IH]; cbn.
  - split; reflexivity.
  - destruct (String.eqb k k'); [exact Hv | exact IH].
Qed.

Lemma occurrences_join (c : ascii) (sep : string) (parts : list string) :
  occurrences c (join sep parts)
  = (fold_right (fun p acc => occurrences c p + acc) 0 parts
     + (List.length parts - 1) * occurrences c sep)%nat.
Proof.
  induction parts as [|p [|q rest] IH].
  - reflexivity.
  - cbn. lia.
  - change (join sep (p :: q :: rest)) with (p ++ sep ++ join sep (q :: rest)).
    rewrite !occurrences_app, IH. cbn [fold_right List.length]. lia.
Qed.

(** X19. When no orchestrator id and no ENS name holds a comma or a line
    feed, every line of the export, the header included, has exactly ten
    commas (eleven fields) and no line feed, and the text has one line feed
    for every orchestrator (the header and one line each, none after the
    last). *)
Theorem export_lines_are_well_formed :
  forall (N : Type) (H : JSNumber N) (orchs : list (Orch (N:=N)))
         (names : list (string * string)) (stake : N),
    Forall (fun o => plain (o_id o)) orchs ->
    Forall (fun kv => plain (snd kv)) names ->
    Forall (fun line => occurrences comma line = 10%nat
                        /\ occurrences lineFeed line = 0%nat)
           (map (join ",") (headers :: csvRows orchs names stake))
    /\ occurrences lineFeed (exportCSV orchs names stake)
       = List.length orchs.
Proof.
  intros N H orchs names stake Hids Hnames.
  assert (Hlines :
            Forall (fun line => occurrences comma line = 10%nat
                                /\ occurrences lineFeed line = 0%nat)
                   (map (join ",") (headers :: csvRows orchs names stake))).
  { cbn [map]. constructor; [split; reflexivity|].
    unfold csvRows. rewrite map_map. apply Forall_forall.
    intros line Hline. apply in_map_iff in Hline.
    destruct Hline as (o & <- & Ho).
    rewrite Forall_forall in Hids. specialize (Hids o Ho).
    pose proof (plain_lookup names (o_id o) Hnames) as Hname.
    rewrite !occurrences_join. unfold csvRow.
    cbn [fold_right List.length].
    repeat match goal with
           | |- context [occurrences ?c (toFixed ?x ?f)] =>
               rewrite (proj1 (plain_toFixed x f)) ||
               rewrite (proj2 (plain_toFixed x f))
           end.
    destruct Hids as [-> ->]. destruct Hname as [-> ->].
    destruct (o_callingReward o); split; reflexivity. }
  split; [exact Hlines|].
  unfold exportCSV. rewrite occurrences_join.
  rewrite length_map. cbn [List.length]. unfold csvRows at 2.
  rewrite length_map.
  assert (Hsum : forall lines,
             Forall (fun line => occurrences comma line = 10%nat
                                 /\ occurrences lineFeed line = 0%nat) lines ->
             fold_right (fun p acc => (occurrences lineFeed p + acc)%nat)
                        0%nat lines = 0%nat).
  { induction 1 as [|l ls [_ Hl] _ IH]; cbn [fold_right]; [reflexivity|].
    now rewrite Hl, IH. }
  rewrite (Hsum _ Hlines). change (occurrences lineFeed newline) with 1%nat.
  lia.
Qed.

Lemma export_lines_witness :
  let text := exportCSV (filteredOrchs (state delegated2))
                        [(addrC, "clear.eth")] (lit (N:=Qc) 1000) in
  occurrences lineFeed text = 2%nat
  /\ occurrences comma text = 30%nat.
Proof.
  cbv zeta.
  destruct (export_lines_are_well_formed Qc _
              (filteredOrchs (state delegated2)) [(addrC, "clear.eth")]
              (lit 1000)) as [_ Hfeeds].
  - apply Forall_forall. intros o Ho.
    assert (Hids : map o_id (filteredOrchs (state delegated2))
                   = [addrC; addrB]) by (vm_compute; reflexivity).
    apply (in_map o_id) in Ho. rewrite Hids in Ho.
    destruct Ho as [<-|[<-|[]]]; split; vm_compute; reflexivity.
  - repeat constructor.
  - split; [|vm_compute; reflexivity].
    rewrite Hfeeds. vm_compute. reflexivity.
Defined.

(* ================================================================== *)
(** * Reward cut and projected yield *)

(** X20. Over exact numbers, with mintable tokens that are not negative:
    of two orchestrators in the same protocol state the one with the lower
    reward cut has at least the projected reward yield of the other; the
    yield is not negative for a cut of at most 1000000, and it is 0 when
    there is no active stake. *)
Theorem lower_cut_never_yields_less :
  forall (mintable totalActive : Qc) (currentRoundId : string)
         (t1 t2 : RawTranscoder),
    (0 <= mintable)%Qc ->
    (decimalQ (rt_rewardCut t1) <= decimalQ (rt_rewardCut t2))%Qc ->
    let o1 := mkOrch mintable totalActive currentRoundId t1 in
    let o2 := mkOrch mintable totalActive currentRoundId t2 in
    (o_rewardAPY o2 <= o_rewardAPY o1)%Qc
    /\ ((decimalQ (rt_rewardCut t1) <= lit 1000000)%Qc ->
        (0 <= o_rewardAPY o1)%Qc)
    /\ ((totalActive <= 0)%Qc -> o_rewardAPY o1 = 0%Qc).
Proof.
  intros mintable totalActive currentRoundId t1 t2 Hm Hcut. cbv zeta.
  unfold mkOrch. cbn [o_rewardAPY]. cbn -[lit decimalQ].
  set (c1 := decimalQ (rt_rewardCut t1)) in *.
  set (c2 := decimalQ (rt_rewardCut t2)) in *.
  set (base := if Qcltb (lit 0) totalActive then (mintable / totalActive)%Qc
               else lit 0).
  assert (Hbase : (0 <= base)%Qc).
  { subst base. destruct (Qcltb (lit 0) totalActive) eqn:E.
    - rewrite lit_0 in E. apply Qcltb_true in E.
      unfold Qcdiv. rewrite <- (Qcmult_0_l (/ totalActive)).
      apply Qcmult_le_compat_r; [exact Hm|].
      unfold Qcle. rewrite this_inv. change (this 0%Qc) with 0%Q.
      apply Qinv_le_0_compat. apply Qlt_le_weak. exact E.
    - rewrite lit_0. apply Qcle_refl. }
  assert (Hzero : (totalActive <= 0)%Qc -> base = 0%Qc).
  { intros Hta. subst base. rewrite lit_0.
    assert (E : Qcltb 0 totalActive = false) by now apply Qcltb_false.
    now rewrite E. }
  clearbody base c1 c2.
  split; [|split].
  - to_Q. change (inject_Z 1) with 1%Q. change (inject_Z 1000000) with 1000000%Q.
    change (inject_Z 365) with 365%Q. change (inject_Z 100) with 100%Q.
    unfold Qdiv. change (/ 1000000)%Q with (1 # 1000000)%Q.
    set (b := this base) in *. set (x1 := this c1) in *.
    set (x2 := this c2) in *. clearbody b x1 x2. nra.
  - intros H1. to_Q. change (inject_Z 1) with 1%Q in *.
    change (inject_Z 1000000) with 1000000%Q in *.
    change (inject_Z 365) with 365%Q. change (inject_Z 100) with 100%Q.
    unfold Qdiv. change (/ 1000000)%Q with (1 # 1000000)%Q.
    set (b := this base) in *. set (x1 := this c1) in *. clearbody b x1. nra.
  - intros Hta. rewrite (Hzero Hta). ring.
Qed.

(* ================================================================== *)
(** * The simulator and the panels *)

Section Simulator.
Context {N : Type} `{JSNumber N}.

(** X21. The stake of the simulator: focusing the field does not change
    it; typing sets it to the number typed (0 for what is no number), and
    focusing then keeps it; the reset button returns to the bonded amount
    and to following it.  Typing changes neither the bonded amount nor the
    orchestrators, and sends no request. *)
Theorem simulator_follows_the_bonded_amount :
  forall (w : World (N:=N)) (value : option Decimal),
    let typed := match value with
                 | Some d => orZero (Number_ d)
                 | None => lit 0
                 end in
    effectiveStake (state (run simFocus w)) = effectiveStake (state w)
    /\ effectiveStake (state (run (simChange value) w)) = typed
    /\ effectiveStake (state (run simFocus (run (simChange value) w))) = typed
    /\ effectiveStake (state (run simReset (run (simChange value) w)))
       = bondedAmount (state w)
    /\ simCustom (state (run simReset w)) = false
    /\ bondedAmount (state (run (simChange value) w)) = bondedAmount (state w)
    /\ requests (run (simChange value) w) = requests w
    /\ orchData (state (run (simChange value) w)) = orchData (state w).
Proof.
  intros [s rq ap] value. cbv zeta.
  unfold run, simFocus, simReset, simChange, bind, getState, ret,
    effectiveStake, bondedAmount.
  cbn. destruct (simCustom s) eqn:E; cbn; rewrite ?E; repeat split; reflexivity.
Qed.

End Simulator.

Lemma lower_cut_witness :
  let o1 := mkOrch (lit 1000) (lit 100000) "4000"
              (transcoderOf addrC (whole 50000) (whole 500000) (whole 30000)
                            (whole 10)) in
  let o2 := mkOrch (lit 1000) (lit 100000) "4000"
              (transcoderOf addrB (whole 100000) (whole 500000) (whole 20000)
                            (whole 5)) in
  this (o_rewardAPY o1) = (1387 # 4)%Q
  /\ this (o_rewardAPY o2) = (657 # 2)%Q
  /\ (o_rewardAPY o2 <= o_rewardAPY o1)%Qc.
Proof.
  cbv zeta. split; [vm_compute; reflexivity|].
  split; [vm_compute; reflexivity|].
  assert (Hm : (0 <= lit 1000)%Qc) by (vm_compute; discriminate).
  assert (Hcut : (decimalQ (whole 50000) <= decimalQ (whole 100000))%Qc)
    by (vm_compute; discriminate).
  exact (proj1 (lower_cut_never_yields_less (lit 1000) (lit 100000) "4000"
                  (transcoderOf addrC (whole 50000) (whole 500000)
                                (whole 30000) (whole 10))
                  (transcoderOf addrB (whole 100000) (whole 500000)
                                (whole 20000) (whole 5))
                  Hm Hcut)).
Defined.

(* ================================================================== *)
(** * The link of a lookup *)

Section Link.
Context {N : Type} `{JSNumber N}.

(** What a lookup stores depends on its input by the address queried
    only. *)
Lemma same_target_same_data (net : Network) (a1 a2 addr : string)
    (w1 w2 : World (N:=N)) :
  target net a1 = Some addr ->
  target net a2 = Some addr ->
  data (state (run (loadDelegator net a1) w1))
  = data (state (run (loadDelegator net a2) w2)).
Proof.
  intros H1 H2. unfold target in *. unfold_loader.
  destruct (String.eqb (trim a1) ""); [discriminate|].
  destruct (String.eqb (trim a2) ""); [discriminate|].
  destruct (endsWith (trim a1) ".eth");
    destruct (endsWith (trim a2) ".eth");
    cbn -[settle mkData both];
    repeat match goal with
           | Hx : match settle ?o with _ => _ end = Some _ |- _ =>
               destruct (settle o) as [[|[? [?|]] ?]|]; try discriminate
           | Hx : (if String.eqb ?a "" then _ else _) = Some _ |- _ =>
               destruct (String.eqb a ""); [discriminate|]
           | Hx : (if isAddress ?a then _ else _) = Some _ |- _ =>
               destruct (isAddress a); [|discriminate]
           | Hx : Some _ = Some _ |- _ => injection Hx as ->
           end;
    cbn -[settle mkData both];
    destruct (snd (both _ _)) as [[[del|] [earn evt]]|]; cbn; reflexivity.
Qed.

(** A lookup that ends with data has stored it under the address it
    queried. *)
Lemma lookup_with_data (net : Network) (address addr : string)
    (w : World (N:=N)) :
  target net address = Some addr ->
  data (state (run (loadDelegator net address) w)) <> None ->
  let w' := run (loadDelegator net address) w in
  addressParam w' = Some addr
  /\ wallet (state w') = addr
  /\ error (state w') = ""
  /\ requests w'
     = (requests w ++ resolutionRequests address
        ++ [Q_delegator addr; Q_earnings addr; Q_events addr])%list.
Proof.
  intros Ht Hd. cbv zeta. revert Hd.
  unfold target, resolutionRequests in *. unfold_loader.
  destruct (String.eqb (trim address) ""); [discriminate|].
  (destruct (endsWith (trim address) ".eth");
   [ cbn -[settle mkData both];
     destruct (settle (outcome (fetch_domains net _)))
       as [[|[nm [a|]] ds]|]; try discriminate;
     destruct (String.eqb a ""); [discriminate|]; injection Ht as ->
   | destruct (isAddress (toLowerCase (trim address)));
     [injection Ht as <- | discriminate] ]);
    cbn -[settle mkData both];
    (destruct (snd (both _ _)) as [[[del|] [earn evt]]|]; cbn;
     intros Hd; try (exfalso; apply Hd; reflexivity));
    rewrite <- ?app_assoc; cbn [app]; repeat split; reflexivity.
Qed.

(** X22. The link of a lookup leads back to it.  When a lookup ends with
    data for an address of the form [0x] and 40 hexadecimal digits in lower
    case (as every address typed in is; a name resolves to what the name
    service answers), the address parameter of the URL is that address, and
    a page opened at that URL, given the same answers, loads on mount: the
    input field holds the address, the data is the same, the wallet is the
    address, there is no error, and the three queries for the address are
    all it has sent. *)
Theorem link_reproduces_the_lookup :
  forall (net : Network) (address addr : string) (w : World (N:=N))
         (other : option string),
    target net address = Some addr ->
    isAddress addr = true ->
    data (state (run (loadDelegator net address) w)) <> None ->
    let w' := run (loadDelegator net address) w in
    let p := mount net (opened (addressParam w') other) in
    addressParam w' = Some addr
    /\ inputVal p = addr
    /\ data (state (world p)) = data (state w')
    /\ wallet (state (world p)) = addr
    /\ error (state (world p)) = ""
    /\ requests (world p)
       = [Q_delegator addr; Q_earnings addr; Q_events addr]
    /\ addressParam (world p) = Some addr.
Proof.
  intros net address addr w other Ht Ha Hd. cbv zeta.
  destruct (lookup_with_data net address addr w Ht Hd) as (Hparam & _).
  rewrite Hparam. split; [reflexivity|].
  assert (Hnormal : target net addr = Some addr).
  { unfold target.
    rewrite (address_trim addr Ha), (address_not_blank addr Ha),
      (address_not_ens addr Ha), (address_lower addr Ha), Ha. reflexivity. }
  unfold mount, opened, addressOrWallet. cbn [world addressParam walletParam].
  rewrite (address_not_blank addr Ha). cbn [world inputVal].
  rewrite ?(address_not_blank addr Ha). cbn [world inputVal].
  set (fresh := {| state := initialState; requests := [];
                   addressParam := Some addr |}).
  pose proof (same_target_same_data net addr address addr fresh w
                Hnormal Ht) as Hsame.
  assert (Hd' : data (state (run (loadDelegator net addr) fresh)) <> None)
    by (rewrite Hsame; exact Hd).
  destruct (lookup_with_data net addr addr fresh Hnormal Hd')
    as (Hp & Hw & He & Hr).
  unfold resolutionRequests in Hr.
  rewrite (address_trim addr Ha), (address_not_ens addr Ha) in Hr.
  cbn in Hr. repeat split; assumption.
Qed.
End Link.

Lemma link_reproduces_the_lookup_witness :
  let typed := " 0x00000000000000000000000000000000000000AA" in
  let w' := run (N:=Qc) (loadDelegator net_delegated typed) session2 in
  addressParam w' = Some addrA
  /\ data (state (world (mount net_delegated (opened (Some addrA) None))))
     = data (state w').
Proof.
  cbv zeta.
  destruct (link_reproduces_the_lookup (N:=Qc) net_delegated
              " 0x00000000000000000000000000000000000000AA" addrA session2
              None) as (Hparam & _ & Hdata & _).
  - vm_compute. reflexivity.
  - vm_compute. reflexivity.
  - vm_compute. discriminate.
  - split; [exact Hparam|]. rewrite Hparam in Hdata. exact Hdata.
Defined.
